(** * Duplicate detection and consolidation of extracted tasks

    A shallow embedding of [src/services/deduplication.ts]: the lexical
    similarity filter ([calculateSimilarity], [getLevenshteinDistance]),
    the candidate pair generator ([findPotentialDuplicates]), the
    semantic oracle stage ([deduplicateTasks]), the cache matcher
    ([checkAgainstClickUp]) and the merge resolver ([mergeSimilarTasks]).

    Modelling conventions.
    - A JavaScript string is a [string]: a sequence of code units, here
      the code units below 256.  [toLowerCase] and [trim] are written out
      for that range.
    - The numbers of the similarity filter are lengths and edit distances
      (naturals) and quotients of two of them.  A quotient is kept as the
      exact rational; the double the program computes is the correctly
      rounded image of it, and rounding is monotone and fixes 0 and 1.
      The difference [1 - d / m] of the edit-distance branch is kept as
      the exact rational as well; the program rounds twice there (the
      quotient, then the difference), so its double is within 2^-52 of
      that rational and need not be its rounded image.
      For strings shorter than 2^32 code units (engines allow fewer) a
      quotient of lengths that differs from 0, from 1 or from one of the
      thresholds 0.6, 0.7, 0.75 differs from it by more than 2^-36, far
      more than the rounding error, so every comparison in the program
      has the same result on the doubles and on the rationals.  A
      theorem that gives a similarity strictly between 0 and 1 gives the
      rational.  [NaN] is kept as a value of its own.
    - An array cell or local that the program reads as a number is a
      [cell]: [Some n] for the natural [n], [None] for [undefined] or
      [NaN] (both are absorbing for [Math.min] and [+]).
    - The language-model client is a parameter: a function from the
      request to the outcome of the single call a stage makes.
      [JSON.parse] is a parameter as well.
    - A function that may throw returns an [Exc]; the module-level client
      handle and the environment variable are an explicit [Env]. *)

From Stdlib Require Import List String Ascii Arith Bool Lia ZArith QArith Permutation Sorted.
Import ListNotations.

Local Open Scope string_scope.
Local Open Scope list_scope.
Local Open Scope nat_scope.

(** ** JavaScript strings *)

Definition is_upper (c : ascii) : bool :=
  let n := nat_of_ascii c in
  ((65 <=? n) && (n <=? 90)) ||
  ((192 <=? n) && (n <=? 222) && negb (n =? 215)).

Definition lower_char (c : ascii) : ascii :=
  if is_upper c then ascii_of_nat (nat_of_ascii c + 32) else c.

(** [String.prototype.toLowerCase]. *)
Fixpoint toLowerCase (s : string) : string :=
  match s with
  | EmptyString => EmptyString
  | String c s' => String (lower_char c) (toLowerCase s')
  end.

(** White space and line terminators of ECMAScript below 256:
    TAB, LF, VT, FF, CR, SP, NBSP. *)
Definition is_space (c : ascii) : bool :=
  let n := nat_of_ascii c in
  ((9 <=? n) && (n <=? 13)) || (n =? 32) || (n =? 160).

Fixpoint trimStart (s : string) : string :=
  match s with
  | EmptyString => EmptyString
  | String c s' => if is_space c then trimStart s' else s
  end.

Fixpoint trimEnd (s : string) : string :=
  match s with
  | EmptyString => EmptyString
  | String c s' =>
      match trimEnd s' with
      | EmptyString => if is_space c then EmptyString else String c EmptyString
      | t => String c t
      end
  end.

(** [String.prototype.trim]. *)
Definition trim (s : string) : string := trimEnd (trimStart s).

(** [String.prototype.includes]: [sub] occurs in [s] at some position. *)
Fixpoint includes (s sub : string) : bool :=
  prefix sub s ||
  match s with
  | EmptyString => false
  | String _ s' => includes s' sub
  end.

(** [s1.charAt(i) !== s2.charAt(j)]; [charAt] out of range is the empty
    string, here [None]. *)
Definition charAt (s : string) (i : nat) : option ascii := String.get i s.

Definition charAt_neq (x y : option ascii) : bool :=
  match x, y with
  | Some a, Some b => negb (Ascii.eqb a b)
  | None, None => false
  | _, _ => true
  end.

(** ** Numbers *)

Inductive number : Type :=
  | Num (q : Q)
  | NaN.

(** A JavaScript value read as a natural number; [None] is [undefined]
    or [NaN]. *)
Definition cell : Type := option nat.

Definition js_min (x y : cell) : cell :=
  match x, y with
  | Some a, Some b => Some (Nat.min a b)
  | _, _ => None
  end.

Definition js_succ (x : cell) : cell := option_map S x.

(** [a / b] for a numerator that does not exceed the denominator, which
    is the case at both divisions of [calculateSimilarity]: [0 / 0] is
    [NaN]. *)
Definition js_div (a : cell) (b : nat) : number :=
  match a, b with
  | Some n, S _ => Num (Z.of_nat n # Pos.of_nat b)
  | _, _ => NaN
  end.

(** [1 - x]. *)
Definition one_minus (x : number) : number :=
  match x with
  | Num q => Num (1 - q)
  | NaN => NaN
  end.

(** [x > c]; a comparison with [NaN] is false. *)
Definition js_gt (x : number) (c : Q) : bool :=
  match x with
  | Num q => negb (Qle_bool q c)
  | NaN => false
  end.

(** ** Arrays of numbers *)

(** [a[j]]. *)
Definition array_get (a : list cell) (j : nat) : cell :=
  match nth_error a j with
  | Some c => c
  | None => None
  end.

(** [a[j] = v]: overwrites inside the array, extends it otherwise (the
    cells skipped over are holes, which read as [undefined]). *)
Definition array_set (a : list cell) (j : nat) (v : cell) : list cell :=
  if j <? List.length a
  then firstn j a ++ v :: skipn (S j) a
  else a ++ repeat None (j - List.length a) ++ [v].

(** ** Lexical similarity filter *)

(** Body of the inner loop of [getLevenshteinDistance], at row [i] and
    column [j]; the state is [(costs, lastValue)]. *)
Definition levInner (s1 s2 : string) (i : nat)
    (st : list cell * cell) (j : nat) : list cell * cell :=
  let '(costs, lastValue) := st in
  if i =? 0 then (array_set costs j (Some j), lastValue)
  else if 0 <? j then
    let newValue := array_get costs (j - 1) in
    let newValue :=
      if charAt_neq (charAt s1 (i - 1)) (charAt s2 (j - 1))
      then js_succ (js_min (js_min newValue lastValue) (array_get costs j))
      else newValue in
    (array_set costs (j - 1) lastValue, newValue)
  else (costs, lastValue).

(** Body of the outer loop: one row. *)
Definition levOuter (s1 s2 : string) (costs : list cell) (i : nat) : list cell :=
  let '(costs', lastValue) :=
    fold_left (levInner s1 s2 i) (seq 0 (S (String.length s2))) (costs, Some i) in
  if 0 <? i then array_set costs' (String.length s2) lastValue else costs'.

Definition getLevenshteinDistance (s1 s2 : string) : cell :=
  let costs := fold_left (levOuter s1 s2) (seq 0 (S (String.length s1))) [] in
  array_get costs (String.length s2).

Definition calculateSimilarity (str1 str2 : string) : number :=
  let s1 := trim (toLowerCase str1) in
  let s2 := trim (toLowerCase str2) in
  if String.eqb s1 s2 then Num 1
  else
    let ratio :=
      js_div (Some (Nat.min (String.length s1) (String.length s2)))
             (Nat.max (String.length s1) (String.length s2)) in
    if (includes s1 s2 || includes s2 s1) && js_gt ratio (7 # 10) then ratio
    else
      let longer := if String.length s2 <? String.length s1 then s1 else s2 in
      let shorter := if String.length s2 <? String.length s1 then s2 else s1 in
      if String.length longer =? 0 then Num 1
      else
        let editDistance := getLevenshteinDistance shorter longer in
        let maxDist := String.length longer in
        one_minus (js_div editDistance maxDist).


(** ** Tasks *)

Inductive Priority : Type := urgent | high | normal | low.

Record Task : Type := mkTask {
  title : string;
  description : string;
  priority : Priority;
  dueDate : option string
}.

(** [TaskWithMetadata extends Task]: the task's own fields, the position
    in the batch and, in the merge resolver, the meeting it comes from. *)
Record TaskWithMetadata : Type := mkMeta {
  task : Task;
  index : nat;
  source : option string
}.

(** The object literal [{ title: t.title, description: t.description,
    priority: t.priority, dueDate: t.dueDate }]. *)
Definition stripMeta (t : TaskWithMetadata) : Task :=
  {| title := title (task t);
     description := description (task t);
     priority := priority (task t);
     dueDate := dueDate (task t) |}.

(** [xs.map((x, i) => f x i)], positions counted from [i0]. *)
Fixpoint mapi_from {A B : Type} (f : A -> nat -> B) (i0 : nat) (xs : list A) : list B :=
  match xs with
  | [] => []
  | x :: xs' => f x i0 :: mapi_from f (S i0) xs'
  end.

Definition mapi {A B : Type} (f : A -> nat -> B) (xs : list A) : list B :=
  mapi_from f 0 xs.

(** ** Candidate pair generator *)

(** Body of the inner loop of [findPotentialDuplicates].  [tasks[i]] and
    [tasks[j]] are inside the array for every [i], [j] the loops reach;
    outside it the property access on [undefined] would throw, and the
    model leaves the list as it is. *)
Definition pairStep (tasks : list TaskWithMetadata) (i : nat)
    (potentialDuplicates : list (nat * nat)) (j : nat) : list (nat * nat) :=
  match nth_error tasks i, nth_error tasks j with
  | Some ti, Some tj =>
      let similarity := calculateSimilarity (title (task ti)) (title (task tj)) in
      if js_gt similarity (6 # 10)
      then potentialDuplicates ++ [(i, j)]
      else potentialDuplicates
  | _, _ => potentialDuplicates
  end.

Definition findPotentialDuplicates (tasks : list TaskWithMetadata) : list (nat * nat) :=
  fold_left
    (fun potentialDuplicates i =>
       fold_left (pairStep tasks i)
                 (seq (i + 1) (List.length tasks - (i + 1)))
                 potentialDuplicates)
    (seq 0 (List.length tasks)) [].

(** ** Cache matcher *)

Record ClickUpEntry : Type := mkEntry {
  entry_title : string;
  entry_id : string
}.

Record CacheMatch : Type := mkMatch {
  extractedTaskIndex : nat;
  clickupTaskId : string;
  similarity : number
}.

Definition matchStep (i : nat) (extractedTask : Task)
    (matches : list CacheMatch) (existingTask : ClickUpEntry) : list CacheMatch :=
  let similarity := calculateSimilarity (title extractedTask) (entry_title existingTask) in
  if js_gt similarity (75 # 100)
  then matches ++ [ {| extractedTaskIndex := i;
                       clickupTaskId := entry_id existingTask;
                       similarity := similarity |} ]
  else matches.

(** The function only reads [extractedTasks]; its result is the list of
    matches. *)
Definition checkAgainstClickUp (extractedTasks : list Task)
    (existingClickUpTasks : list ClickUpEntry) : list CacheMatch :=
  fold_left
    (fun matches i =>
       match nth_error extractedTasks i with
       | Some extractedTask =>
           fold_left (matchStep i extractedTask) existingClickUpTasks matches
       | None => matches
       end)
    (seq 0 (List.length extractedTasks)) [].

(** ** Exceptions *)

(** A computation that returns a value or throws an error (its message). *)
Definition Exc (A : Type) : Type := (A + string)%type.

Definition ret {A : Type} (x : A) : Exc A := inl x.
Definition throw {A : Type} (msg : string) : Exc A := inr msg.

Definition bind {A B : Type} (c : Exc A) (k : A -> Exc B) : Exc B :=
  match c with
  | inl x => k x
  | inr e => inr e
  end.

Notation "x <- c ;; k" := (bind c (fun x => k))
  (at level 61, c at next level, right associativity).

(** [try { body } catch (error) { return fallback }]. *)
Definition try_catch {A : Type} (body : Exc A) (fallback : A) : A :=
  match body with
  | inl x => x
  | inr _ => fallback
  end.

Fixpoint mapM {A B : Type} (f : A -> Exc B) (xs : list A) : Exc (list B) :=
  match xs with
  | [] => ret []
  | x :: xs' => y <- f x ;; ys <- mapM f xs' ;; ret (y :: ys)
  end.

Fixpoint foldM {A S : Type} (f : S -> A -> Exc S) (xs : list A) (s : S) : Exc S :=
  match xs with
  | [] => ret s
  | x :: xs' => s' <- f s x ;; foldM f xs' s'
  end.

(** ** Values of type [any] *)

(** What [JSON.parse] returns.  A number is the rational its double
    denotes; an object is its list of members in source order. *)
#[warnings="-register-all"]
Inductive json : Type :=
  | JNull
  | JBool (b : bool)
  | JNum (q : Q)
  | JStr (s : string)
  | JArr (elems : list json)
  | JObj (members : list (string * json)).

(** A value or [undefined]. *)
Definition jsval : Type := option json.

(** Own property of a parsed object: the last member with that name. *)
Definition lookup_prop (k : string) (members : list (string * json)) : jsval :=
  option_map snd (find (fun m => String.eqb (fst m) k) (rev members)).

(** [v.k] for the property names this file reads ([duplicates],
    [taskIndex], [duplicateOfIndex], [reason], [merges], [mergedTask],
    [primaryIndex], [mergeIndices]): none of them is on a prototype, so a
    primitive or an array has it [undefined]; on [null] and [undefined]
    the access throws. *)
Definition getProp (v : jsval) (k : string) : Exc jsval :=
  match v with
  | None => throw "TypeError: cannot read properties of undefined"
  | Some JNull => throw "TypeError: cannot read properties of null"
  | Some (JObj members) => ret (lookup_prop k members)
  | Some _ => ret None
  end.

(** [!!v]. *)
Definition truthy (v : jsval) : bool :=
  match v with
  | None => false
  | Some JNull => false
  | Some (JBool b) => b
  | Some (JNum q) => negb (Qeq_bool q 0)
  | Some (JStr s) => negb (String.eqb s "")
  | Some (JArr _) => true
  | Some (JObj _) => true
  end.

(** [Array.isArray(v)]. *)
Definition isArray (v : jsval) : bool :=
  match v with
  | Some (JArr _) => true
  | _ => false
  end.

(** [a || b]. *)
Definition js_or (a b : jsval) : jsval := if truthy a then a else b.

Fixpoint chars_of (s : string) : list json :=
  match s with
  | EmptyString => []
  | String c s' => JStr (String c EmptyString) :: chars_of s'
  end.

(** The values [for (const x of v)] runs over; a value that is not
    iterable throws. *)
Definition iterate (v : jsval) : Exc (list json) :=
  match v with
  | Some (JArr elems) => ret elems
  | Some (JStr s) => ret (chars_of s)
  | _ => throw "TypeError: value is not iterable"
  end.

(** [v.map(f)] for a callback that may throw. *)
Definition arrayMap {B : Type} (v : jsval) (f : json -> Exc B) : Exc (list B) :=
  match v with
  | Some (JArr elems) => mapM f elems
  | _ => throw "TypeError: map is not a function"
  end.

(** [SameValueZero(v, i)] for an array position [i]. *)
Definition same_index (v : jsval) (i : nat) : bool :=
  match v with
  | Some (JNum q) => Qeq_bool q (inject_Z (Z.of_nat i))
  | _ => false
  end.

(** [new Set(values).has(i)]. *)
Definition set_has (values : list jsval) (i : nat) : bool :=
  existsb (fun v => same_index v i) values.

(** ** Process state and the language-model client *)

(** The handle [new Anthropic({ apiKey })]. *)
Record Client : Type := mkClient { apiKey : string }.

(** [process.env.ANTHROPIC_API_KEY] and the module variable [anthropic]. *)
Record Env : Type := mkEnv {
  ANTHROPIC_API_KEY : option string;
  anthropic : option Client
}.

(** The request of [client.messages.create]: the prompt is a fixed
    template over the indexed tasks and, in [deduplicateTasks], the
    candidate pairs. *)
Inductive Request : Type :=
  | DedupRequest (taskList : list TaskWithMetadata) (potentialPairs : list (nat * nat))
  | MergeRequest (taskList : list TaskWithMetadata).

Inductive ContentBlock : Type :=
  | TextBlock (text : string)
  | OtherBlock (type : string).

(** The awaited call resolves with a message or rejects. *)
Inductive Response : Type :=
  | Resolved (content : list ContentBlock)
  | Rejected (error : string).

(** What a run of an exported function leaves behind: its result or the
    error thrown to the caller, the process state, and the calls made to
    the language model, each with the response it got. *)
Record Run (A : Type) : Type := mkRun {
  outcome : Exc A;
  env_after : Env;
  calls : list (Request * Response)
}.

Arguments mkRun {A} _ _ _.
Arguments outcome {A} _.
Arguments env_after {A} _.
Arguments calls {A} _.

Definition missingKey : string :=
  "ANTHROPIC_API_KEY environment variable is required".

Definition getAnthropicClient (env : Env) : Exc Client * Env :=
  match anthropic env with
  | Some client => (ret client, env)
  | None =>
      match ANTHROPIC_API_KEY env with
      | None | Some EmptyString => (throw missingKey, env)
      | Some key =>
          let client := {| apiKey := key |} in
          (ret client,
           {| ANTHROPIC_API_KEY := ANTHROPIC_API_KEY env; anthropic := Some client |})
      end
  end.

(** ** The regular expression [/\{[\s\S]*\}/] *)

(** The suffix that starts at the first opening brace. *)
Fixpoint from_open_brace (s : string) : option string :=
  match s with
  | EmptyString => None
  | String c s' => if Ascii.eqb c "{" then Some s else from_open_brace s'
  end.

(** The prefix that ends with the last closing brace. *)
Fixpoint upto_close_brace (s : string) : option string :=
  match s with
  | EmptyString => None
  | String c s' =>
      match upto_close_brace s' with
      | Some m => Some (String c m)
      | None => if Ascii.eqb c "}" then Some (String c EmptyString) else None
      end
  end.

(** [text.match(/\{[\s\S]*\}/)]: the leftmost opening brace and, the star
    being greedy, everything up to the last closing brace after it;
    [null] when there is none. *)
Definition match_braces (text : string) : option string :=
  match from_open_brace text with
  | Some (String c rest) => option_map (String c) (upto_close_brace rest)
  | _ => None
  end.

(** ** Results *)

Record DuplicateMatch : Type := mkDup {
  taskIndex : jsval;
  duplicateOfIndex : jsval;
  reason : jsval
}.

Record DeduplicationResult : Type := mkResult {
  duplicates : list DuplicateMatch;
  uniqueTasks : list Task;
  totalDuplicates : nat
}.

(** An element of the array [mergeSimilarTasks] returns: a task of the
    input, or the [mergedTask] value of the model's answer. *)
Inductive MergedTask : Type :=
  | Kept (t : Task)
  | Synthesized (mergedTask : json).

Record Meeting : Type := mkMeeting {
  meetingTitle : string;
  tasks : list Task
}.

Section Stages.

(** [JSON.parse]; [None] is the [SyntaxError] it throws. *)
Variable JSON_parse : string -> option json.

(** [client.messages.create]. *)
Variable oracle : Client -> Request -> Response.

Definition parseJSON (text : string) : Exc json :=
  match JSON_parse text with
  | Some v => ret v
  | None => throw "SyntaxError"
  end.

(** [{ duplicates: [], uniqueTasks: tasks, totalDuplicates: 0 }]. *)
Definition allUnique (tasks : list Task) : DeduplicationResult :=
  {| duplicates := []; uniqueTasks := tasks; totalDuplicates := 0 |}.

(** The callback of [parsed.duplicates.map]. *)
Definition toDuplicateMatch (dup : json) : Exc DuplicateMatch :=
  ti <- getProp (Some dup) "taskIndex" ;;
  doi <- getProp (Some dup) "duplicateOfIndex" ;;
  r <- getProp (Some dup) "reason" ;;
  ret {| taskIndex := ti;
         duplicateOfIndex := doi;
         reason := js_or r (Some (JStr "Identified as duplicate")) |}.

(** [response.content[0]] of the awaited response; reading [type] of a
    missing first block throws. *)
Definition firstBlock (response : Response) : Exc ContentBlock :=
  match response with
  | Rejected error => throw error
  | Resolved content =>
      match nth_error content 0 with
      | None => throw "TypeError: cannot read properties of undefined"
      | Some block => ret block
      end
  end.

(** The [try] block of [deduplicateTasks]. *)
Definition dedupTry (response : Response) (tasks : list Task)
    (tasksWithMeta : list TaskWithMetadata) : Exc DeduplicationResult :=
  content <- firstBlock response ;;
  match content with
  | OtherBlock _ => throw "Unexpected response type from Claude API"
  | TextBlock text =>
      match match_braces text with
      | None => ret (allUnique tasks)
      | Some jsonMatch =>
          parsed <- parseJSON jsonMatch ;;
          dups <- getProp (Some parsed) "duplicates" ;;
          if negb (truthy dups) || negb (isArray dups)
          then ret (allUnique tasks)
          else
            duplicates <- arrayMap dups toDuplicateMatch ;;
            let duplicateIndices := map taskIndex duplicates in
            let uniqueTasks :=
              map stripMeta
                  (filter (fun t => negb (set_has duplicateIndices (index t)))
                          tasksWithMeta) in
            ret {| duplicates := duplicates;
                   uniqueTasks := uniqueTasks;
                   totalDuplicates := List.length duplicates |}
      end
  end.

Definition deduplicateTasks (env : Env) (tasks : list Task) : Run DeduplicationResult :=
  if List.length tasks =? 0
  then mkRun (ret {| duplicates := []; uniqueTasks := []; totalDuplicates := 0 |}) env []
  else
    match getAnthropicClient env with
    | (inr error, env1) => mkRun (throw error) env1 []
    | (inl client, env1) =>
        let tasksWithMeta :=
          mapi (fun t i => {| task := t; index := i; source := None |}) tasks in
        let potentialPairs := findPotentialDuplicates tasksWithMeta in
        if List.length potentialPairs =? 0
        then mkRun (ret (allUnique tasks)) env1 []
        else
          let request := DedupRequest tasksWithMeta potentialPairs in
          let response := oracle client request in
          mkRun (ret (try_catch (dedupTry response tasks tasksWithMeta)
                                (allUnique tasks)))
                env1 [(request, response)]
    end.

(** The two nested loops that flatten the meetings; the state is
    [(allTasksWithSource, index)]. *)
Definition flattenMeetings (tasksByMeeting : list Meeting) : list TaskWithMetadata :=
  fst (fold_left
         (fun st meeting =>
            fold_left
              (fun st t =>
                 let '(allTasksWithSource, index) := st in
                 (allTasksWithSource ++
                    [ {| task := t; index := index;
                         source := Some (meetingTitle meeting) |} ],
                  S index))
              (tasks meeting) st)
         tasksByMeeting ([], 0)).

(** [allTasksWithSource.map(t => ({ title: ..., ... }))]. *)
Definition keepAll (allTasksWithSource : list TaskWithMetadata) : list MergedTask :=
  map (fun t => Kept (stripMeta t)) allTasksWithSource.

(** Body of the loop over [merges]; the state is [(result, merged)]. *)
Definition mergeStep (st : list MergedTask * list jsval) (merge : json)
    : Exc (list MergedTask * list jsval) :=
  let '(result, merged) := st in
  mergedTask <- getProp (Some merge) "mergedTask" ;;
  match mergedTask with
  | Some v =>
      if truthy mergedTask
      then
        primaryIndex <- getProp (Some merge) "primaryIndex" ;;
        mergeIndices <- getProp (Some merge) "mergeIndices" ;;
        idxs <- iterate (js_or mergeIndices (Some (JArr []))) ;;
        ret (result ++ [Synthesized v], merged ++ primaryIndex :: map Some idxs)
      else ret st
  | None => ret st
  end.

(** The [try] block of [mergeSimilarTasks]. *)
Definition mergeTry (response : Response)
    (allTasksWithSource : list TaskWithMetadata) : Exc (list MergedTask) :=
  content <- firstBlock response ;;
  match content with
  | OtherBlock _ => ret (keepAll allTasksWithSource)
  | TextBlock text =>
      match match_braces text with
      | None => ret (keepAll allTasksWithSource)
      | Some jsonMatch =>
          parsed <- parseJSON jsonMatch ;;
          m <- getProp (Some parsed) "merges" ;;
          merges <- iterate (js_or m (Some (JArr []))) ;;
          st <- foldM mergeStep merges ([], []) ;;
          let '(result, merged) := st in
          ret (result ++
               keepAll (filter (fun t => negb (set_has merged (index t)))
                               allTasksWithSource))
      end
  end.

Definition mergeSimilarTasks (env : Env) (tasksByMeeting : list Meeting)
    : Run (list MergedTask) :=
  if List.length tasksByMeeting =? 0 then mkRun (ret []) env []
  else
    let allTasksWithSource := flattenMeetings tasksByMeeting in
    if List.length allTasksWithSource <=? 1
    then mkRun (ret (keepAll allTasksWithSource)) env []
    else
      let potentialPairs := findPotentialDuplicates allTasksWithSource in
      if List.length potentialPairs =? 0
      then mkRun (ret (keepAll allTasksWithSource)) env []
      else
        match getAnthropicClient env with
        | (inr error, env1) => mkRun (throw error) env1 []
        | (inl client, env1) =>
            let request := MergeRequest allTasksWithSource in
            let response := oracle client request in
            mkRun (ret (try_catch (mergeTry response allTasksWithSource)
                                  (keepAll allTasksWithSource)))
                  env1 [(request, response)]
        end.

End Stages.

(** ** A reference [JSON.parse]

    The stages are stated for every parser.  The concrete runs below use
    this one: a recursive-descent parser of the JSON grammar for texts
    whose strings stay below code unit 256.  A number literal is kept as
    the rational it writes, which is the value of the double for the
    integers of the runs below. *)

Module Json.

Definition is_ws (c : ascii) : bool :=
  let n := nat_of_ascii c in
  (n =? 32) || (n =? 9) || (n =? 10) || (n =? 13).

Fixpoint skip_ws (s : string) : string :=
  match s with
  | String c s' => if is_ws c then skip_ws s' else s
  | EmptyString => s
  end.

Fixpoint strip_prefix (p s : string) : option string :=
  match p, s with
  | EmptyString, _ => Some s
  | String a p', String b s' => if Ascii.eqb a b then strip_prefix p' s' else None
  | String _ _, EmptyString => None
  end.

Definition digit_of (c : ascii) : option Z :=
  let n := nat_of_ascii c in
  if (48 <=? n) && (n <=? 57) then Some (Z.of_nat (n - 48)) else None.

Definition hex_of (c : ascii) : option nat :=
  let n := nat_of_ascii c in
  if (48 <=? n) && (n <=? 57) then Some (n - 48)
  else if (65 <=? n) && (n <=? 70) then Some (n - 55)
  else if (97 <=? n) && (n <=? 102) then Some (n - 87)
  else None.

(** Reads digits: their value after [acc], how many, and the rest. *)
Fixpoint digits (s : string) (acc : Z) (count : nat) : Z * nat * string :=
  match s with
  | String c s' =>
      match digit_of c with
      | Some d => digits s' (10 * acc + d)%Z (S count)
      | None => (acc, count, s)
      end
  | EmptyString => (acc, count, s)
  end.

Definition pow10 (e : Z) : Q :=
  match e with
  | Z0 => 1
  | Zpos p => inject_Z (10 ^ Zpos p)
  | Zneg p => 1 # Pos.pow 10 p
  end.

Definition is_char (c : ascii) (lit : string) : bool :=
  String.eqb (String c EmptyString) lit.

Definition quote_char : ascii := ascii_of_nat 34.
Definition backslash_char : ascii := ascii_of_nat 92.

(** An optional sign. *)
Definition sign (allow_plus : bool) (s : string) : bool * string :=
  match s with
  | String c s' =>
      if is_char c "-" then (true, s')
      else if allow_plus && is_char c "+" then (false, s')
      else (false, s)
  | EmptyString => (false, s)
  end.

Definition fraction (s : string) : option (Q * string) :=
  match s with
  | String c s' =>
      if is_char c "." then
        let '(fpart, fcount, rest) := digits s' 0%Z 0 in
        if fcount =? 0 then None
        else Some (fpart # Pos.pow 10 (Pos.of_nat fcount), rest)
      else Some (0 : Q, s)
  | EmptyString => Some (0 : Q, s)
  end.

Definition exponent (s : string) : option (Z * string) :=
  match s with
  | String c s' =>
      if is_char c "e" || is_char c "E" then
        let '(eneg, s1) := sign true s' in
        let '(epart, ecount, rest) := digits s1 0%Z 0 in
        if ecount =? 0 then None
        else Some (if eneg then (- epart)%Z else epart, rest)
      else Some (0%Z, s)
  | EmptyString => Some (0%Z, s)
  end.

Definition number_of (s : string) : option (Q * string) :=
  let '(neg, s0) := sign false s in
  let '(ipart, icount, s1) := digits s0 0%Z 0 in
  let leading_zero :=
    match s0 with
    | String c _ => is_char c "0" && (1 <? icount)
    | EmptyString => false
    end in
  if (icount =? 0) || leading_zero then None
  else
    match fraction s1 with
    | None => None
    | Some (f, s2) =>
        match exponent s2 with
        | None => None
        | Some (e, rest) =>
            let magnitude := Qred ((inject_Z ipart + f) * pow10 e) in
            Some (if neg then Qred (- magnitude) else magnitude, rest)
        end
    end.

(** The character an escape letter stands for. *)
Definition escape_of (e : ascii) : option ascii :=
  if Ascii.eqb e quote_char then Some quote_char
  else if Ascii.eqb e backslash_char then Some backslash_char
  else if is_char e "/" then Some e
  else if is_char e "b" then Some (ascii_of_nat 8)
  else if is_char e "f" then Some (ascii_of_nat 12)
  else if is_char e "n" then Some (ascii_of_nat 10)
  else if is_char e "r" then Some (ascii_of_nat 13)
  else if is_char e "t" then Some (ascii_of_nat 9)
  else None.

(** The four hexadecimal digits of a [\u] escape, below 256. *)
Definition unicode_of (s : string) : option (ascii * string) :=
  match s with
  | String h1 (String h2 (String h3 (String h4 rest))) =>
      match hex_of h1, hex_of h2, hex_of h3, hex_of h4 with
      | Some 0, Some 0, Some a, Some b => Some (ascii_of_nat (16 * a + b), rest)
      | _, _, _, _ => None
      end
  | _ => None
  end.

(** The characters of a string literal after its opening quote; [skip]
    counts the characters of an escape still to pass over, [pending] is
    the character it stands for. *)
Fixpoint string_body (s : string) (skip : nat) (pending : option ascii)
    : option (string * string) :=
  match s with
  | EmptyString => None
  | String c rest =>
      match skip with
      | S (S k) => string_body rest (S k) pending
      | 1 =>
          match pending, string_body rest 0 None with
          | Some p, Some (body, rest') => Some (String p body, rest')
          | _, _ => None
          end
      | 0 =>
          if Ascii.eqb c quote_char then Some (EmptyString, rest)
          else if Ascii.eqb c backslash_char then
            match rest with
            | String e rest1 =>
                if is_char e "u" then
                  match unicode_of rest1 with
                  | Some (p, _) => string_body rest 5 (Some p)
                  | None => None
                  end
                else
                  match escape_of e with
                  | Some p => string_body rest 1 (Some p)
                  | None => None
                  end
            | EmptyString => None
            end
          else if nat_of_ascii c <? 32 then None
          else
            match string_body rest 0 None with
            | Some (body, rest') => Some (String c body, rest')
            | None => None
            end
      end
  end.

Definition literal (word : string) (v : json) (s : string) : option (json * string) :=
  option_map (pair v) (strip_prefix word s).

Fixpoint value (fuel : nat) (s : string) {struct fuel} : option (json * string) :=
  match fuel with
  | 0 => None
  | S fuel' =>
      match skip_ws s with
      | EmptyString => None
      | String c rest as s0 =>
          if is_char c "n" then literal "null" JNull s0
          else if is_char c "t" then literal "true" (JBool true) s0
          else if is_char c "f" then literal "false" (JBool false) s0
          else if Ascii.eqb c quote_char then
            match string_body rest 0 None with
            | Some (body, rest') => Some (JStr body, rest')
            | None => None
            end
          else if is_char c "[" then
            match strip_prefix "]" (skip_ws rest) with
            | Some rest' => Some (JArr [], rest')
            | None =>
                match elements fuel' rest with
                | Some (elems, rest') => Some (JArr elems, rest')
                | None => None
                end
            end
          else if is_char c "{" then
            match strip_prefix "}" (skip_ws rest) with
            | Some rest' => Some (JObj [], rest')
            | None =>
                match members fuel' rest with
                | Some (ms, rest') => Some (JObj ms, rest')
                | None => None
                end
            end
          else
            match number_of s0 with
            | Some (q, rest') => Some (JNum q, rest')
            | None => None
            end
      end
  end

with elements (fuel : nat) (s : string) {struct fuel} : option (list json * string) :=
  match fuel with
  | 0 => None
  | S fuel' =>
      match value fuel' s with
      | Some (v, rest) =>
          match skip_ws rest with
          | String c rest' =>
              if is_char c "," then
                match elements fuel' rest' with
                | Some (vs, rest'') => Some (v :: vs, rest'')
                | None => None
                end
              else if is_char c "]" then Some ([v], rest')
              else None
          | EmptyString => None
          end
      | None => None
      end
  end

with members (fuel : nat) (s : string) {struct fuel}
    : option (list (string * json) * string) :=
  match fuel with
  | 0 => None
  | S fuel' =>
      match skip_ws s with
      | String q rest =>
          if Ascii.eqb q quote_char then
            match string_body rest 0 None with
            | Some (key, rest1) =>
                match strip_prefix ":" (skip_ws rest1) with
                | Some rest2 =>
                    match value fuel' rest2 with
                    | Some (v, rest3) =>
                        match skip_ws rest3 with
                        | String c rest4 =>
                            if is_char c "," then
                              match members fuel' rest4 with
                              | Some (ms, rest5) => Some ((key, v) :: ms, rest5)
                              | None => None
                              end
                            else if is_char c "}" then Some ([(key, v)], rest4)
                            else None
                        | EmptyString => None
                        end
                    | None => None
                    end
                | None => None
                end
            | None => None
            end
          else None
      | EmptyString => None
      end
  end.

Definition parse (text : string) : option json :=
  match value (2 * String.length text + 2) text with
  | Some (v, rest) =>
      match skip_ws rest with
      | EmptyString => Some v
      | _ => None
      end
  | None => None
  end.

(** Writes a text with apostrophes where the JSON text has quotation
    marks. *)
Fixpoint quoted (s : string) : string :=
  match s with
  | EmptyString => EmptyString
  | String c s' => String (if is_char c "'" then quote_char else c) (quoted s')
  end.

End Json.


(** ** Vocabulary of the properties *)

(** The edit distance of two sequences (insertion, deletion and
    substitution of one character, each of cost one), by recursion on
    both. *)
Fixpoint lev (x : list ascii) : list ascii -> nat :=
  fix lev_x (y : list ascii) : nat :=
    match x, y with
    | [], _ => List.length y
    | _, [] => List.length x
    | a :: x', b :: y' =>
        if Ascii.eqb a b then lev x' y'
        else S (Nat.min (Nat.min (lev x' y') (lev_x y')) (lev x' y))
    end.

(** The edit distance of two strings; the program's table is indexed by
    prefixes, so the recursion runs from the last character. *)
Definition editDistance (s1 s2 : string) : nat :=
  lev (rev (list_ascii_of_string s1)) (rev (list_ascii_of_string s2)).

(** Entry [(i, j)] of the table the program fills row by row: the
    distance of the prefixes of lengths [i] and [j]. *)
Definition prefixDistance (s1 s2 : string) (i j : nat) : nat :=
  lev (rev (firstn i (list_ascii_of_string s1)))
      (rev (firstn j (list_ascii_of_string s2))).

(** Row [i] of the table is in the array. *)
Definition rowStored (s1 s2 : string) (i : nat) (costs : list cell) : Prop :=
  forall k, k <= String.length s2 ->
    array_get costs k = Some (prefixDistance s1 s2 i k).

(** Normalization of the similarity filter. *)
Definition normalize (s : string) : string := trim (toLowerCase s).

(** The branch of [calculateSimilarity] that returns the length ratio is
    taken: the normalized strings differ, one contains the other, and the
    ratio exceeds 0.7. *)
Definition containmentShortcut (str1 str2 : string) : bool :=
  let s1 := normalize str1 in
  let s2 := normalize str2 in
  negb (String.eqb s1 s2) &&
  (includes s1 s2 || includes s2 s1) &&
  js_gt (js_div (Some (Nat.min (String.length s1) (String.length s2)))
                (Nat.max (String.length s1) (String.length s2)))
        (7 # 10).

(** The tasks of a batch with their positions, as [deduplicateTasks]
    numbers them. *)
Definition withIndex (batch : list Task) : list TaskWithMetadata :=
  mapi (fun t i => {| task := t; index := i; source := None |}) batch.

(** The titles of two positions of a batch are more similar than
    [threshold]. *)
Definition similarAt (threshold : Q) (batch : list TaskWithMetadata) (i j : nat) : Prop :=
  exists ti tj,
    nth_error batch i = Some ti /\ nth_error batch j = Some tj /\
    js_gt (calculateSimilarity (title (task ti)) (title (task tj))) threshold = true.

(** What one pass of the inner loop of [findPotentialDuplicates] adds. *)
Definition pairIf (tasks : list TaskWithMetadata) (i j : nat) : list (nat * nat) :=
  match nth_error tasks i, nth_error tasks j with
  | Some ti, Some tj =>
      if js_gt (calculateSimilarity (title (task ti)) (title (task tj))) (6 # 10)
      then [(i, j)] else []
  | _, _ => []
  end.

(** What one pass of the inner loop of [checkAgainstClickUp] adds. *)
Definition matchIf (i : nat) (extractedTask : Task) (existingTask : ClickUpEntry)
    : list CacheMatch :=
  let similarity := calculateSimilarity (title extractedTask) (entry_title existingTask) in
  if js_gt similarity (75 # 100)
  then [ {| extractedTaskIndex := i;
            clickupTaskId := entry_id existingTask;
            similarity := similarity |} ]
  else [].

(** [getAnthropicClient] returns a handle: one is cached, or the key is
    set and not empty. *)
Definition clientAvailable (env : Env) : bool :=
  match fst (getAnthropicClient env) with
  | inl _ => true
  | inr _ => false
  end.

(** The property [k] of a parsed value that is not [null]. *)
Definition field (k : string) (v : json) : jsval :=
  match v with
  | JObj members => lookup_prop k members
  | _ => None
  end.

(** The values a loop [for (const x of v)] visits, when [v] can be
    iterated. *)
Definition itemsOf (v : jsval) : list json :=
  match iterate v with
  | inl items => items
  | inr _ => []
  end.

(** The JSON payload of a response: the parsed value of the braces of the
    first text block. *)
Definition payload (parse : string -> option json) (response : Response) : option json :=
  match response with
  | Resolved (TextBlock text :: _) =>
      match match_braces text with
      | Some jsonMatch => parse jsonMatch
      | None => None
      end
  | _ => None
  end.

(** The list under [duplicates] of the payload of a response; [None] for
    a response with no payload or whose [duplicates] is absent or not a
    list. *)
Definition duplicatesPayload (parse : string -> option json) (response : Response)
    : option (list json) :=
  match payload parse response with
  | Some (JObj members) =>
      match lookup_prop "duplicates" members with
      | Some (JArr elems) => Some elems
      | _ => None
      end
  | _ => None
  end.

(** The record the program makes of one entry of the model's answer. *)
Definition entryOf (dup : json) : DuplicateMatch :=
  {| taskIndex := field "taskIndex" dup;
     duplicateOfIndex := field "duplicateOfIndex" dup;
     reason := js_or (field "reason" dup) (Some (JStr "Identified as duplicate")) |}.

(** The invariant of [DuplicateMatch] on a list of them: a
    [duplicateOfIndex] that is not [null] is a number strictly below
    [taskIndex], and no entry of the list has it as its [taskIndex]. *)
Definition canonicalRefs (ds : list DuplicateMatch) : bool :=
  forallb
    (fun d =>
       match duplicateOfIndex d with
       | None | Some JNull => true
       | Some (JNum k) =>
           match taskIndex d with
           | Some (JNum t) => negb (Qle_bool t k)
           | _ => false
           end &&
           negb (existsb (fun d' => match taskIndex d' with
                                    | Some (JNum t') => Qeq_bool t' k
                                    | _ => false
                                    end) ds)
       | Some _ => false
       end)
    ds.

(** The tasks of a batch, in order, whose position, counted from [i], is
    not among the reported values. *)
Fixpoint keepFrom (i : nat) (batch : list Task) (reported : list jsval) : list Task :=
  match batch with
  | [] => []
  | t :: batch' =>
      if set_has reported i
      then keepFrom (S i) batch' reported
      else t :: keepFrom (S i) batch' reported
  end.

(** The reported [taskIndex] values are pairwise distinct positions of a
    batch of [n] tasks. *)
Definition distinctInRange (n : nat) (ds : list DuplicateMatch) : Prop :=
  exists idxs : list nat,
    Forall2 (fun d i => same_index (taskIndex d) i = true) ds idxs /\
    NoDup idxs /\
    Forall (fun i => i < n) idxs.

(** The merge groups of a response: what the loop over [merges] visits. *)
Definition mergeGroups (parse : string -> option json) (response : Response) : list json :=
  match payload parse response with
  | Some parsed => itemsOf (js_or (field "merges" parsed) (Some (JArr [])))
  | None => []
  end.

(** Position [i] is the [primaryIndex] of a group or among its
    [mergeIndices]. *)
Definition groupCovers (merge : json) (i : nat) : Prop :=
  same_index (field "primaryIndex" merge) i = true \/
  exists idx,
    In idx (itemsOf (js_or (field "mergeIndices" merge) (Some (JArr [])))) /\
    same_index (Some idx) i = true.

(** [metas] are the tasks [batch] with their positions, counted from
    [k]. *)
Definition indexedFrom (k : nat) (metas : list TaskWithMetadata) (batch : list Task) : Prop :=
  map task metas = batch /\ map index metas = seq k (List.length batch).

(** The tasks of all meetings, in order. *)
Definition allTasks (tasksByMeeting : list Meeting) : list Task :=
  List.concat (map tasks tasksByMeeting).

(** The [mergedTask] values of the groups that have one, group after
    group. *)
Definition synthesizedOf (groups : list json) : list json :=
  flat_map (fun merge =>
              match field "mergedTask" merge with
              | Some v => if truthy (Some v) then [v] else []
              | None => []
              end)
           groups.

(** The values named by the groups that have a [mergedTask]: the
    [primaryIndex], then the [mergeIndices], group after group. *)
Definition mergedOf (groups : list json) : list jsval :=
  flat_map (fun merge =>
              if truthy (field "mergedTask" merge)
              then field "primaryIndex" merge
                   :: map Some (itemsOf (js_or (field "mergeIndices" merge)
                                               (Some (JArr []))))
              else [])
           groups.

(** ** Sample data *)

Definition sampleTask (t : string) : Task :=
  {| title := t; description := "from the weekly sync"; priority := normal; dueDate := None |}.

Definition demoBatch : list Task :=
  [ sampleTask "Schedule demo call";
    sampleTask "Schedule a demo call";
    sampleTask "Unrelated topic entirely" ].

Definition onboardingBatch : list Task := [ sampleTask "Update onboarding docs" ].

Definition onboardingCache : list ClickUpEntry :=
  [ {| entry_title := "Update onboarding doc"; entry_id := "86abc" |};
    {| entry_title := "Renew the domain"; entry_id := "86abd" |} ].

Definition keyedEnv : Env :=
  {| ANTHROPIC_API_KEY := Some "sk-ant-test"; anthropic := None |}.

Definition noKeyEnv : Env :=
  {| ANTHROPIC_API_KEY := None; anthropic := None |}.

Definition failingOracle : Client -> Request -> Response :=
  fun _ _ => Rejected "network failure".

Definition replyWith (text : string) : Client -> Request -> Response :=
  fun _ _ => Resolved [TextBlock text].

Definition followUpBatch : list Task :=
  [ {| title := "Send follow-up email"; description := "to the customer";
       priority := high; dueDate := None |};
    {| title := "Send follow-up email"; description := "after the demo";
       priority := normal; dueDate := Some "2025-01-31" |} ].

Definition proseReply : string := "I could not find any duplicates.".

Definition goodReply : string :=
  Json.quoted
    "Here you go: {'duplicates':[{'taskIndex':1,'duplicateOfIndex':0,'reason':'same email'}]}".

Definition swappedReply : string :=
  Json.quoted
    "{'duplicates':[{'taskIndex':0,'duplicateOfIndex':1,'reason':'same email'},{'taskIndex':1,'duplicateOfIndex':0}]}".

Definition twoMeetings : list Meeting :=
  [ {| meetingTitle := "Sales sync"; tasks := followUpBatch |};
    {| meetingTitle := "Customer call";
       tasks := [ sampleTask "Send the follow-up email"; sampleTask "Book travel" ] |} ].

Definition distinctMeetings : list Meeting :=
  [ {| meetingTitle := "Sales sync"; tasks := onboardingBatch |};
    {| meetingTitle := "Customer call"; tasks := [ sampleTask "Book travel" ] |} ].

(** The tasks of [distinctMeetings] as one batch. *)
Definition distinctBatch : list Task :=
  [ sampleTask "Update onboarding docs"; sampleTask "Book travel" ].

Definition mergeReply : string :=
  Json.quoted
    "{'merges':[{'primaryIndex':0,'mergeIndices':[1],'mergedTask':{'title':'Send follow-up email','description':'to the customer, after the demo','priority':'high'}},{'primaryIndex':2,'mergeIndices':[3]}]}".

(** What [mergeSimilarTasks] returns on [twoMeetings] when the model
    answers [mergeReply]. *)
Definition mergedSample : list MergedTask :=
  [ Synthesized
      (JObj [ ("title", JStr "Send follow-up email");
              ("description", JStr "to the customer, after the demo");
              ("priority", JStr "high") ]);
    Kept (sampleTask "Send the follow-up email");
    Kept (sampleTask "Book travel") ].

(** The order in which the nested loops of [findPotentialDuplicates]
    visit the pairs of positions. *)
Definition pairBefore (p q : nat * nat) : Prop :=
  fst p < fst q \/ (fst p = fst q /\ snd p < snd q).

(** The key is set and not empty. *)
Definition keySet (env : Env) : bool :=
  match ANTHROPIC_API_KEY env with
  | Some (String _ _) => true
  | _ => false
  end.

(** The batch has a candidate pair. *)
Definition hasCandidates (metas : list TaskWithMetadata) : bool :=
  match findPotentialDuplicates metas with
  | [] => false
  | _ :: _ => true
  end.

Definition nullEntryReply : string :=
  Json.quoted
    "{'duplicates':[{'taskIndex':1,'duplicateOfIndex':0,'reason':'same email'},null]}".

(** The flattened list written as a recursion over the meetings: the
    tasks of each meeting, numbered on from [k] and labelled with the
    meeting's title. *)
Fixpoint labelled (k : nat) (tasksByMeeting : list Meeting) : list TaskWithMetadata :=
  match tasksByMeeting with
  | [] => []
  | meeting :: rest =>
      mapi_from (fun t i => {| task := t; index := i;
                               source := Some (meetingTitle meeting) |})
                k (tasks meeting)
      ++ labelled (k + List.length (tasks meeting)) rest
  end.

(** The character [c] occurs in [s]. *)
Fixpoint has_char (c : ascii) (s : string) : bool :=
  match s with
  | EmptyString => false
  | String c' s' => Ascii.eqb c' c || has_char c s'
  end.

Definition openBrace : string := "{".
Definition closeBrace : string := "}".

(** ** Task extraction ([task-extractor.ts])

    The module has its own handle and the same [getAnthropicClient]; its
    state is an [Env] of its own.  The request of its call is a fixed
    template over the meeting text. *)

(** A task as [extractTasks] returns it.  The program types [title],
    [description] and [dueDate] as strings; what it stores is whatever
    value the model's answer held. *)
Record ExtractedTask : Type := mkExtracted {
  x_title : jsval;
  x_description : jsval;
  x_priority : Priority;
  x_dueDate : jsval
}.

Record ExtractRun : Type := mkExtractRun {
  x_outcome : Exc (list ExtractedTask);
  x_env_after : Env;
  x_calls : list (string * Response)
}.

(** [['urgent', 'high', 'normal', 'low'].includes(v) ? v : 'normal']. *)
Definition priorityOf (v : jsval) : Priority :=
  match v with
  | Some (JStr s) =>
      if String.eqb s "urgent" then urgent
      else if String.eqb s "high" then high
      else if String.eqb s "normal" then normal
      else if String.eqb s "low" then low
      else normal
  | _ => normal
  end.

(** The callback of [parsed.tasks.map]. *)
Definition validateTask (t : json) : Exc ExtractedTask :=
  ttl <- getProp (Some t) "title" ;;
  dsc <- getProp (Some t) "description" ;;
  pri <- getProp (Some t) "priority" ;;
  due <- getProp (Some t) "dueDate" ;;
  ret {| x_title := js_or ttl (Some (JStr "Untitled Task"));
         x_description := js_or dsc (Some (JStr ""));
         x_priority := priorityOf pri;
         x_dueDate := js_or due (Some JNull) |}.

Definition extractFailure : string := "Failed to extract tasks: ".

Section Extraction.

Variable JSON_parse : string -> option json.

(** [client.messages.create] of the extraction prompt. *)
Variable extractor : Client -> string -> Response.

(** The [try] block of [extractTasks]. *)
Definition extractTry (response : Response) : Exc (list ExtractedTask) :=
  content <- firstBlock response ;;
  match content with
  | OtherBlock _ => throw "Unexpected response type from Claude API"
  | TextBlock text =>
      match match_braces text with
      | None => throw "No JSON object found in Claude response"
      | Some jsonMatch =>
          parsed <- parseJSON JSON_parse jsonMatch ;;
          ts <- getProp (Some parsed) "tasks" ;;
          if negb (truthy ts) || negb (isArray ts)
          then throw "Invalid response format: missing tasks array"
          else arrayMap ts validateTask
      end
  end.

(** The errors the [try] block can raise are [Error] objects; the
    [catch] wraps the message of each. *)
Definition extractTasks (env : Env) (meetingText : string) : ExtractRun :=
  match getAnthropicClient env with
  | (inr error, env1) => mkExtractRun (throw error) env1 []
  | (inl client, env1) =>
      let response := extractor client meetingText in
      mkExtractRun
        match extractTry response with
        | inl extracted => ret extracted
        | inr message => throw (extractFailure ++ message)%string
        end
        env1 [(meetingText, response)]
  end.

End Extraction.

(** ** Priorities of the task trackers *)

(** [x <= c]; a comparison with [NaN] is false. *)
Definition js_le (x : number) (c : Q) : bool :=
  match x with
  | Num q => Qle_bool q c
  | NaN => false
  end.

(** The Planner service: [mapPriority] of a task's priority. *)
Module Planner.

Definition mapPriority (priority : Priority) : Q :=
  match priority with
  | urgent => 1
  | high => 3
  | normal => 5
  | low => 9
  end.

End Planner.

(** The ClickUp service over REST: [mapPriority] of a task's priority. *)
Module ClickUpRest.

Definition mapPriority (priority : Priority) : Q :=
  match priority with
  | urgent => 1
  | high => 2
  | normal => 3
  | low => 4
  end.

End ClickUpRest.

(** The ClickUp service over MCP: [mapPriority] of a Planner priority. *)
Module ClickUpMcp.

Definition mapPriority (plannerPriority : number) : Q :=
  if js_le plannerPriority 1 then 1
  else if js_le plannerPriority 3 then 2
  else if js_le plannerPriority 5 then 3
  else 4.

End ClickUpMcp.

(** The Teams service. *)
Module Teams.

Definition getPriorityText (priority : number) : string :=
  if js_le priority 1 then "Urgent"
  else if js_le priority 3 then "High"
  else if js_le priority 5 then "Normal"
  else "Low".

Record Reaction : Type := mkReaction {
  reactionType : string;
  count : Z
}.

(** The thumbs-up emoji, in UTF-8. *)
Definition thumbsUpEmoji : string :=
  String (ascii_of_nat 240) (String (ascii_of_nat 159)
    (String (ascii_of_nat 145) (String (ascii_of_nat 141) EmptyString))).

(** [r.reactionType === thumbs-up || r.reactionType === 'like']. *)
Definition isThumbsUp (r : Reaction) : bool :=
  String.eqb (reactionType r) thumbsUpEmoji || String.eqb (reactionType r) "like".

Definition isApproved (reactions : list Reaction) : bool :=
  match find isThumbsUp reactions with
  | Some _ => 0 <? List.length reactions
  | None => false
  end.

Definition getApprovalCount (reactions : list Reaction) : nat :=
  List.length (filter isThumbsUp reactions).

End Teams.

(** The name of a priority as the Teams service displays it. *)
Definition priorityName (priority : Priority) : string :=
  match priority with
  | urgent => "Urgent"
  | high => "High"
  | normal => "Normal"
  | low => "Low"
  end.

(** The list under [tasks] of the payload of a response. *)
Definition tasksPayload (parse : string -> option json) (response : Response)
    : option (list json) :=
  match payload parse response with
  | Some (JObj members) =>
      match lookup_prop "tasks" members with
      | Some (JArr elems) => Some elems
      | _ => None
      end
  | _ => None
  end.

Definition extractorReply (text : string) : Client -> string -> Response :=
  fun _ _ => Resolved [TextBlock text].

Definition extractReply : string :=
  Json.quoted
    "{'tasks':[{'title':'Send follow-up email','priority':'high','dueDate':'2025-01-31'},{'description':'no title given','priority':'soon'}]}".

Definition isNull (v : json) : bool :=
  match v with
  | JNull => true
  | _ => false
  end.

(** The task [extractTasks] makes of one entry of the model's answer. *)
Definition validatedOf (t : json) : ExtractedTask :=
  {| x_title := js_or (field "title" t) (Some (JStr "Untitled Task"));
     x_description := js_or (field "description" t) (Some (JStr ""));
     x_priority := priorityOf (field "priority" t);
     x_dueDate := js_or (field "dueDate" t) (Some JNull) |}.

(** * Properties *)

(** ** Loops and arrays *)

Lemma fold_left_seq_invariant {St : Type} (P : nat -> St -> Prop)
    (f : St -> nat -> St) (n : nat) (s0 : St) :
  P 0 s0 ->
  (forall k s, k < n -> P k s -> P (S k) (f s k)) ->
  P n (fold_left f (seq 0 n) s0).
Proof.
  induction n as [|n IH]; intros H0 Hstep; [exact H0|].
  rewrite seq_S, fold_left_app. simpl.
  apply Hstep; [lia|]. apply IH; [exact H0|].
  intros k s Hk. apply Hstep. lia.
Qed.

Lemma array_get_set (a : list cell) (j k : nat) (v : cell) :
  array_get (array_set a j v) k = if k =? j then v else array_get a k.
Proof.
  unfold array_get, array_set.
  destruct (Nat.ltb_spec j (List.length a)) as [Hlt|Hge].
  - destruct (Nat.eqb_spec k j) as [->|Hne].
    + rewrite nth_error_app2 by (rewrite length_firstn; lia).
      rewrite length_firstn. replace (j - Nat.min j (List.length a)) with 0 by lia.
      reflexivity.
    + destruct (Nat.lt_ge_cases k j) as [Hk|Hk].
      * rewrite nth_error_app1 by (rewrite length_firstn; lia).
        rewrite nth_error_firstn. destruct (Nat.ltb_spec k j); [reflexivity|lia].
      * rewrite nth_error_app2 by (rewrite length_firstn; lia).
        rewrite length_firstn. replace (Nat.min j (List.length a)) with j by lia.
        destruct (k - j) as [|d] eqn:Hd; [lia|]. cbn [nth_error].
        rewrite nth_error_skipn. replace (S j + d) with k by lia. reflexivity.
  - destruct (Nat.eqb_spec k j) as [->|Hne].
    + rewrite nth_error_app2 by lia.
      rewrite nth_error_app2 by (rewrite repeat_length; lia).
      rewrite repeat_length. replace (j - List.length a - (j - List.length a)) with 0 by lia.
      reflexivity.
    + destruct (Nat.lt_ge_cases k (List.length a)) as [Hk|Hk].
      * rewrite nth_error_app1 by lia. reflexivity.
      * rewrite nth_error_app2 by lia.
        replace (nth_error a k) with (@None cell) by (symmetry; apply nth_error_None; lia).
        destruct (Nat.lt_ge_cases k j) as [Hkj|Hkj].
        -- rewrite nth_error_app1 by (rewrite repeat_length; lia).
           rewrite nth_error_repeat by lia. reflexivity.
        -- rewrite nth_error_app2 by (rewrite repeat_length; lia).
           rewrite repeat_length.
           destruct (k - List.length a - (j - List.length a)) as [|d] eqn:Hd; [lia|].
           simpl. destruct d; reflexivity.
Qed.

(** ** Edit distance *)

Lemma lev_nil_l (y : list ascii) : lev [] y = List.length y.
Proof. destruct y; reflexivity. Qed.

Lemma lev_nil_r (x : list ascii) : lev x [] = List.length x.
Proof. destruct x; reflexivity. Qed.

Lemma lev_cons (a b : ascii) (x y : list ascii) :
  lev (a :: x) (b :: y) =
  if Ascii.eqb a b then lev x y
  else S (Nat.min (Nat.min (lev x y) (lev (a :: x) y)) (lev x (b :: y))).
Proof. reflexivity. Qed.

Lemma lev_sym (x y : list ascii) : lev x y = lev y x.
Proof.
  revert y. induction x as [|a x IHx]; intro y.
  - rewrite lev_nil_l, lev_nil_r. reflexivity.
  - induction y as [|b y IHy].
    + reflexivity.
    + rewrite !lev_cons, Ascii.eqb_sym.
      destruct (Ascii.eqb b a); [apply IHx|].
      rewrite IHy, (IHx y), (IHx (b :: y)). lia.
Qed.

Lemma lev_le_max (x y : list ascii) :
  lev x y <= Nat.max (List.length x) (List.length y).
Proof.
  revert y. induction x as [|a x IHx]; intro y.
  - simpl. destruct y; simpl; lia.
  - induction y as [|b y IHy].
    + simpl. lia.
    + rewrite lev_cons. specialize (IHx y). simpl List.length.
      destruct (Ascii.eqb a b); lia.
Qed.

Lemma lev_refl (x : list ascii) : lev x x = 0.
Proof.
  induction x as [|a x IH]; [reflexivity|].
  rewrite lev_cons, Ascii.eqb_refl. exact IH.
Qed.

Lemma lev_zero (x y : list ascii) : lev x y = 0 -> x = y.
Proof.
  revert y. induction x as [|a x IHx]; intros y H.
  - destruct y; [reflexivity|discriminate].
  - destruct y as [|b y]; [discriminate|].
    rewrite lev_cons in H.
    destruct (Ascii.eqb_spec a b) as [->|Hne]; [|discriminate].
    f_equal. apply IHx. exact H.
Qed.

(** ** The table of [getLevenshteinDistance] *)

Lemma length_list_ascii (s : string) :
  List.length (list_ascii_of_string s) = String.length s.
Proof. induction s as [|c s IH]; simpl; congruence. Qed.

Lemma charAt_list (s : string) (k : nat) :
  charAt s k = nth_error (list_ascii_of_string s) k.
Proof.
  unfold charAt. revert k. induction s as [|c s IH]; intro k.
  - destruct k; reflexivity.
  - destruct k as [|k]; simpl; [reflexivity|apply IH].
Qed.

Lemma firstn_snoc {A : Type} (l : list A) (i : nat) (a : A) :
  nth_error l i = Some a -> firstn (S i) l = firstn i l ++ [a].
Proof.
  revert i. induction l as [|b l IH]; intros i H.
  - destruct i; discriminate.
  - destruct i as [|i].
    + simpl in H. injection H as ->. reflexivity.
    + simpl in H. cbn [firstn app]. f_equal. apply IH. exact H.
Qed.

Lemma rev_firstn_S {A : Type} (l : list A) (i : nat) (a : A) :
  nth_error l i = Some a -> rev (firstn (S i) l) = a :: rev (firstn i l).
Proof.
  intro H. rewrite (firstn_snoc l i a H), rev_app_distr. reflexivity.
Qed.

Lemma prefixDistance_0_l (s1 s2 : string) (j : nat) :
  j <= String.length s2 -> prefixDistance s1 s2 0 j = j.
Proof.
  intro H. unfold prefixDistance. simpl firstn. simpl rev.
  rewrite lev_nil_l, length_rev, length_firstn, length_list_ascii. lia.
Qed.

Lemma prefixDistance_0_r (s1 s2 : string) (i : nat) :
  i <= String.length s1 -> prefixDistance s1 s2 i 0 = i.
Proof.
  intro H. unfold prefixDistance. simpl firstn. simpl rev.
  rewrite lev_nil_r, length_rev, length_firstn, length_list_ascii. lia.
Qed.

Lemma prefixDistance_S (s1 s2 : string) (i j : nat) :
  i < String.length s1 -> j < String.length s2 ->
  prefixDistance s1 s2 (S i) (S j) =
  if charAt_neq (charAt s1 i) (charAt s2 j)
  then S (Nat.min (Nat.min (prefixDistance s1 s2 i j) (prefixDistance s1 s2 (S i) j))
                  (prefixDistance s1 s2 i (S j)))
  else prefixDistance s1 s2 i j.
Proof.
  intros Hi Hj. unfold prefixDistance. rewrite !charAt_list.
  destruct (nth_error (list_ascii_of_string s1) i) as [a|] eqn:Ha.
  2:{ apply nth_error_None in Ha. rewrite length_list_ascii in Ha. lia. }
  destruct (nth_error (list_ascii_of_string s2) j) as [b|] eqn:Hb.
  2:{ apply nth_error_None in Hb. rewrite length_list_ascii in Hb. lia. }
  rewrite (rev_firstn_S _ _ _ Ha), (rev_firstn_S _ _ _ Hb), lev_cons.
  simpl charAt_neq. destruct (Ascii.eqb a b); reflexivity.
Qed.

Lemma prefixDistance_full (s1 s2 : string) :
  prefixDistance s1 s2 (String.length s1) (String.length s2) = editDistance s1 s2.
Proof.
  unfold prefixDistance, editDistance.
  rewrite <- (length_list_ascii s1), <- (length_list_ascii s2), !firstn_all.
  reflexivity.
Qed.

(** The first pass of the outer loop writes [0, 1, ..., s2.length]. *)
Lemma levOuter_first_row (s1 s2 : string) (costs : list cell) :
  rowStored s1 s2 0 (levOuter s1 s2 costs 0).
Proof.
  unfold levOuter.
  pose (P := fun (j : nat) (st : list cell * cell) =>
               forall k, k < j -> array_get (fst st) k = Some k).
  assert (HP : P (S (String.length s2))
                 (fold_left (levInner s1 s2 0) (seq 0 (S (String.length s2)))
                            (costs, Some 0))).
  { apply fold_left_seq_invariant.
    - intros k Hk. lia.
    - intros j [c l] _ IH k Hk. simpl. rewrite array_get_set.
      destruct (Nat.eqb_spec k j) as [->|Hne]; [reflexivity|].
      apply IH. lia. }
  destruct (fold_left _ _ _) as [costs' lastValue]. simpl.
  intros k Hk. rewrite prefixDistance_0_l by exact Hk. apply HP. lia.
Qed.

(** A later pass turns row [i] into row [i + 1]. *)
Lemma levOuter_next_row (s1 s2 : string) (costs : list cell) (i : nat) :
  i < String.length s1 ->
  rowStored s1 s2 i costs ->
  rowStored s1 s2 (S i) (levOuter s1 s2 costs (S i)).
Proof.
  intros Hi Hrow. unfold levOuter.
  pose (Q := fun (j : nat) (st : list cell * cell) =>
               snd st = Some (prefixDistance s1 s2 (S i) (j - 1)) /\
               (forall k, k + 1 < j ->
                  array_get (fst st) k = Some (prefixDistance s1 s2 (S i) k)) /\
               (forall k, j <= k + 1 -> k <= String.length s2 ->
                  array_get (fst st) k = Some (prefixDistance s1 s2 i k))).
  assert (HQ : Q (S (String.length s2))
                 (fold_left (levInner s1 s2 (S i)) (seq 0 (S (String.length s2)))
                            (costs, Some (S i)))).
  { apply fold_left_seq_invariant.
    - repeat split; simpl.
      + rewrite prefixDistance_0_r by lia. reflexivity.
      + intros k Hk. lia.
      + intros k _ Hk. apply Hrow. exact Hk.
    - intros j [c l] Hj (Hlast & Hdone & Hold). simpl in Hlast, Hdone, Hold.
      unfold levInner. simpl Nat.eqb. cbv iota.
      destruct j as [|j].
      + simpl. repeat split; simpl.
        * exact Hlast.
        * intros k Hk. lia.
        * intros k _ Hk. apply Hold; [lia|exact Hk].
      + replace (S j - 1) with j in * by lia.
        replace (S i - 1) with i by lia.
        change (0 <? S j) with true. cbv iota.
        rewrite (Hold j) by lia. rewrite (Hold (S j)) by lia. rewrite Hlast.
        repeat split; simpl.
        * replace (j - 0) with j by lia.
          rewrite prefixDistance_S by lia.
          destruct (charAt_neq _ _); reflexivity.
        * intros k Hk. rewrite array_get_set.
          destruct (Nat.eqb_spec k j) as [->|Hne]; [reflexivity|].
          apply Hdone. lia.
        * intros k Hk1 Hk2. rewrite array_get_set.
          destruct (Nat.eqb_spec k j) as [->|Hne]; [lia|].
          apply Hold; lia. }
  destruct (fold_left _ _ _) as [costs' lastValue].
  destruct HQ as (Hlast & Hdone & _). simpl in Hlast, Hdone.
  change (0 <? S i) with true. cbv iota.
  intros k Hk. rewrite array_get_set.
  destruct (Nat.eqb_spec k (String.length s2)) as [->|Hne].
  - rewrite Hlast. do 2 f_equal. lia.
  - apply Hdone. lia.
Qed.

(** [getLevenshteinDistance] returns the edit distance, a number. *)
Lemma getLevenshteinDistance_correct (s1 s2 : string) :
  getLevenshteinDistance s1 s2 = Some (editDistance s1 s2).
Proof.
  unfold getLevenshteinDistance.
  pose (R := fun (i : nat) (costs : list cell) =>
               i = 0 \/ rowStored s1 s2 (i - 1) costs).
  assert (HR : R (S (String.length s1))
                 (fold_left (levOuter s1 s2) (seq 0 (S (String.length s1))) [])).
  { apply fold_left_seq_invariant.
    - left. reflexivity.
    - intros i costs Hi [->|Hrow]; right; simpl.
      + apply levOuter_first_row.
      + destruct i as [|i]; [apply levOuter_first_row|].
        replace (S i - 0) with (S i) by lia.
        apply levOuter_next_row; [lia|].
        replace (S i - 1) with i in Hrow by lia. exact Hrow. }
  destruct HR as [H|Hrow]; [discriminate|].
  replace (S (String.length s1) - 1) with (String.length s1) in Hrow by lia.
  rewrite (Hrow (String.length s2)) by lia.
  rewrite prefixDistance_full. reflexivity.
Qed.

(** ** Substrings *)

Lemma prefix_length (p s : string) :
  prefix p s = true -> String.length p <= String.length s.
Proof.
  revert s. induction p as [|a p IH]; intros s H; simpl; [lia|].
  destruct s as [|b s]; simpl in H; [discriminate|].
  destruct (ascii_dec a b); [|discriminate].
  simpl. apply IH in H. lia.
Qed.

Lemma prefix_same_length (p s : string) :
  prefix p s = true -> String.length p = String.length s -> p = s.
Proof.
  revert s. induction p as [|a p IH]; intros s H Hlen.
  - destruct s; [reflexivity|discriminate].
  - destruct s as [|b s]; simpl in H; [discriminate|].
    destruct (ascii_dec a b) as [->|]; [|discriminate].
    simpl in Hlen. f_equal. apply IH; [exact H|lia].
Qed.

Lemma includes_nil (sub : string) :
  includes EmptyString sub = prefix sub EmptyString.
Proof. simpl. apply orb_false_r. Qed.

Lemma includes_cons (c : ascii) (s sub : string) :
  includes (String c s) sub = prefix sub (String c s) || includes s sub.
Proof. reflexivity. Qed.

Lemma includes_length (s sub : string) :
  includes s sub = true -> String.length sub <= String.length s.
Proof.
  induction s as [|c s IH]; intro H.
  - rewrite includes_nil in H. apply prefix_length in H. exact H.
  - rewrite includes_cons in H. apply orb_true_iff in H. destruct H as [H|H].
    + apply prefix_length in H. exact H.
    + apply IH in H. simpl. lia.
Qed.

Lemma includes_same_length (s sub : string) :
  includes s sub = true -> String.length sub = String.length s -> sub = s.
Proof.
  intros H Hlen. destruct s as [|c s].
  - rewrite includes_nil in H. apply prefix_same_length; assumption.
  - rewrite includes_cons in H. apply orb_true_iff in H. destruct H as [H|H].
    + apply prefix_same_length; assumption.
    + apply includes_length in H. simpl in Hlen. lia.
Qed.

(** ** Quotients of lengths *)

Lemma Zpos_of_nat (m : nat) : 0 < m -> Z.pos (Pos.of_nat m) = Z.of_nat m.
Proof.
  intro H. rewrite <- positive_nat_Z, Nat2Pos.id by lia. reflexivity.
Qed.

Lemma quotient_bounds (n m : nat) :
  0 < m -> n <= m ->
  (0 <= Z.of_nat n # Pos.of_nat m)%Q /\ (Z.of_nat n # Pos.of_nat m <= 1)%Q.
Proof.
  intros Hm Hn. unfold Qle. simpl. rewrite Zpos_of_nat by exact Hm. lia.
Qed.

Lemma quotient_one (n m : nat) :
  0 < m -> (Z.of_nat n # Pos.of_nat m == 1)%Q <-> n = m.
Proof.
  intro Hm. unfold Qeq. simpl. rewrite Zpos_of_nat by exact Hm. lia.
Qed.

Lemma complement_bounds (n m : nat) :
  0 < m -> n <= m ->
  (0 <= 1 - (Z.of_nat n # Pos.of_nat m))%Q /\ (1 - (Z.of_nat n # Pos.of_nat m) <= 1)%Q.
Proof.
  intros Hm Hn. unfold Qle, Qminus, Qplus, Qopp. cbn [Qnum Qden].
  rewrite ?Pos2Z.inj_mul, ?Zpos_of_nat by exact Hm. lia.
Qed.

Lemma complement_one (n m : nat) :
  0 < m -> (1 - (Z.of_nat n # Pos.of_nat m) == 1)%Q <-> n = 0.
Proof.
  intro Hm. unfold Qeq, Qminus, Qplus, Qopp. cbn [Qnum Qden].
  rewrite ?Pos2Z.inj_mul, ?Zpos_of_nat by exact Hm. lia.
Qed.

Lemma js_div_pos (n m : nat) :
  0 < m -> js_div (Some n) m = Num (Z.of_nat n # Pos.of_nat m).
Proof. intro H. destruct m; [lia|reflexivity]. Qed.

Lemma editDistance_sym (s1 s2 : string) : editDistance s1 s2 = editDistance s2 s1.
Proof. unfold editDistance. apply lev_sym. Qed.

Lemma editDistance_le (s1 s2 : string) :
  editDistance s1 s2 <= Nat.max (String.length s1) (String.length s2).
Proof.
  unfold editDistance.
  rewrite <- (length_list_ascii s1), <- (length_list_ascii s2).
  rewrite <- (length_rev (list_ascii_of_string s1)), <- (length_rev (list_ascii_of_string s2)).
  apply lev_le_max.
Qed.

Lemma editDistance_zero (s1 s2 : string) : editDistance s1 s2 = 0 -> s1 = s2.
Proof.
  unfold editDistance. intro H. apply lev_zero in H.
  apply (f_equal (@rev ascii)) in H. rewrite !rev_involutive in H.
  rewrite <- (string_of_list_ascii_of_string s1), <- (string_of_list_ascii_of_string s2).
  rewrite H. reflexivity.
Qed.

(** ** Lexical similarity filter *)

(** C5. For all strings [a] and [b], [calculateSimilarity a b] is a number
    in [0, 1]; it is 1 exactly when [a] and [b] are identical after
    normalization (lower case, trimmed); in particular
    [calculateSimilarity a a] is 1. *)
Theorem calculateSimilarity_unit_interval (a b : string) :
  (exists q : Q,
     calculateSimilarity a b = Num q /\
     (0 <= q)%Q /\ (q <= 1)%Q /\
     ((q == 1)%Q <-> normalize a = normalize b)) /\
  calculateSimilarity a a = Num 1.
Proof.
  split.
  2:{ unfold calculateSimilarity. rewrite String.eqb_refl. reflexivity. }
  unfold calculateSimilarity, normalize.
  set (s1 := trim (toLowerCase a)). set (s2 := trim (toLowerCase b)).
  destruct (String.eqb_spec s1 s2) as [Heq|Hne].
  { exists 1%Q. split; [reflexivity|]. split; [unfold Qle; simpl; lia|].
    split; [unfold Qle; simpl; lia|]. split; [intros _; exact Heq|reflexivity]. }
  assert (Hmax : 0 < Nat.max (String.length s1) (String.length s2)).
  { destruct s1, s2; simpl; try lia. congruence. }
  rewrite (js_div_pos _ _ Hmax).
  destruct ((includes s1 s2 || includes s2 s1) &&
            js_gt (Num (Z.of_nat (Nat.min (String.length s1) (String.length s2))
                        # Pos.of_nat (Nat.max (String.length s1) (String.length s2))))
                  (7 # 10)) eqn:Hcontain.
  - apply andb_true_iff in Hcontain. destruct Hcontain as [Hinc _].
    eexists. split; [reflexivity|].
    destruct (quotient_bounds (Nat.min (String.length s1) (String.length s2))
                (Nat.max (String.length s1) (String.length s2)) Hmax ltac:(lia))
      as [H0 H1].
    repeat split; try assumption.
    + intro H. apply quotient_one in H; [|exact Hmax].
      exfalso. apply Hne. apply orb_true_iff in Hinc. destruct Hinc as [Hinc|Hinc].
      * symmetry. apply includes_same_length; [exact Hinc|lia].
      * apply includes_same_length; [exact Hinc|lia].
    + intro H. contradiction.
  - set (longer := if String.length s2 <? String.length s1 then s1 else s2).
    set (shorter := if String.length s2 <? String.length s1 then s2 else s1).
    assert (Hlong : String.length longer = Nat.max (String.length s1) (String.length s2)).
    { unfold longer. destruct (Nat.ltb_spec (String.length s2) (String.length s1)); lia. }
    assert (Hshort : String.length shorter <= String.length longer).
    { unfold longer, shorter.
      destruct (Nat.ltb_spec (String.length s2) (String.length s1)); lia. }
    assert (Hdiff : shorter <> longer).
    { unfold longer, shorter.
      destruct (String.length s2 <? String.length s1); congruence. }
    destruct (Nat.eqb_spec (String.length longer) 0) as [H0|_]; [lia|].
    rewrite getLevenshteinDistance_correct, js_div_pos by lia.
    simpl one_minus. eexists. split; [reflexivity|].
    assert (Hd : editDistance shorter longer <= String.length longer).
    { pose proof (editDistance_le shorter longer). lia. }
    destruct (complement_bounds (editDistance shorter longer) (String.length longer)
                ltac:(lia) Hd) as [Hlo Hhi].
    repeat split; try assumption.
    + intro H. apply complement_one in H; [|lia].
      exfalso. apply Hdiff. apply editDistance_zero. exact H.
    + intro H. contradiction.
Qed.

(** C6. [calculateSimilarity] is symmetric. *)
Theorem calculateSimilarity_symmetric (a b : string) :
  calculateSimilarity a b = calculateSimilarity b a.
Proof.
  unfold calculateSimilarity.
  set (s1 := trim (toLowerCase a)). set (s2 := trim (toLowerCase b)).
  rewrite (String.eqb_sym s2 s1).
  destruct (String.eqb s1 s2); [reflexivity|].
  rewrite (Nat.min_comm (String.length s2)), (Nat.max_comm (String.length s2)).
  rewrite (orb_comm (includes s2 s1)).
  destruct ((includes s1 s2 || includes s2 s1) && _); [reflexivity|].
  destruct (Nat.ltb_spec (String.length s2) (String.length s1)) as [H|H];
    destruct (Nat.ltb_spec (String.length s1) (String.length s2)) as [H'|H'];
    try lia; try reflexivity.
  assert (Hlen : String.length s1 = String.length s2) by lia.
  rewrite !getLevenshteinDistance_correct, (editDistance_sym s2 s1), Hlen.
  reflexivity.
Qed.

(** ** Candidate pair generator *)

Lemma fold_left_collect {A B : Type} (f : list B -> A -> list B) (g : A -> list B) :
  (forall acc x, f acc x = acc ++ g x) ->
  forall xs acc, fold_left f xs acc = acc ++ flat_map g xs.
Proof.
  intros Hf xs. induction xs as [|x xs IH]; intro acc; simpl.
  - rewrite app_nil_r. reflexivity.
  - rewrite IH, Hf, <- app_assoc. reflexivity.
Qed.

Lemma findPotentialDuplicates_collect (tasks : list TaskWithMetadata) :
  findPotentialDuplicates tasks =
  flat_map (fun i => flat_map (pairIf tasks i)
                              (seq (i + 1) (List.length tasks - (i + 1))))
           (seq 0 (List.length tasks)).
Proof.
  unfold findPotentialDuplicates.
  rewrite (fold_left_collect _
             (fun i => flat_map (pairIf tasks i)
                                (seq (i + 1) (List.length tasks - (i + 1))))).
  - reflexivity.
  - intros acc i. apply fold_left_collect.
    intros acc' j. unfold pairStep, pairIf.
    destruct (nth_error tasks i), (nth_error tasks j);
      try (rewrite app_nil_r; reflexivity).
    destruct (js_gt _ _); [reflexivity|rewrite app_nil_r; reflexivity].
Qed.

Lemma in_pairIf (tasks : list TaskWithMetadata) (i j : nat) (p : nat * nat) :
  In p (pairIf tasks i j) <-> p = (i, j) /\ similarAt (6 # 10) tasks i j.
Proof.
  unfold pairIf, similarAt. split.
  - destruct (nth_error tasks i) as [ti|]; [|contradiction].
    destruct (nth_error tasks j) as [tj|]; [|contradiction].
    destruct (js_gt _ _) eqn:E; [|contradiction].
    intros [<-|[]]. split; [reflexivity|]. exists ti, tj. auto.
  - intros [-> (ti & tj & -> & -> & ->)]. left. reflexivity.
Qed.

Lemma in_findPotentialDuplicates (tasks : list TaskWithMetadata) (i j : nat) :
  In (i, j) (findPotentialDuplicates tasks) <->
  i < j /\ similarAt (6 # 10) tasks i j.
Proof.
  rewrite findPotentialDuplicates_collect, in_flat_map. split.
  - intros (i' & Hi & H). apply in_flat_map in H. destruct H as (j' & Hj & H).
    apply in_pairIf in H. destruct H as [Heq Hsim]. injection Heq as -> ->.
    apply in_seq in Hj. split; [lia|exact Hsim].
  - intros [Hlt Hsim]. pose proof Hsim as (ti & tj & Hti & Htj & _).
    assert (j < List.length tasks) by (apply nth_error_Some; congruence).
    exists i. split; [apply in_seq; lia|].
    apply in_flat_map. exists j. split; [apply in_seq; lia|].
    apply in_pairIf. split; [reflexivity|exact Hsim].
Qed.

(** On the sample batch the length-ratio branch is not the one taken. *)
Lemma containment_shortcut_fires_refuted :
  ~ (findPotentialDuplicates (withIndex demoBatch) = [(0, 1)] /\
     containmentShortcut "Schedule demo call" "Schedule a demo call" = true).
Proof. intros [_ H]. vm_compute in H. discriminate. Qed.

(** C7, amended. [findPotentialDuplicates] produces exactly the pairs
    [(i, j)], [i < j], of positions whose titles have similarity above
    0.6.  On the titles "Schedule demo call", "Schedule a demo call",
    "Unrelated topic entirely" it yields the single pair [(0, 1)]: neither
    normalized title contains the other, the edit distance is 2 and the
    similarity is [1 - 2/20 = 0.9]; position 2 is in no pair. *)
Theorem findPotentialDuplicates_pairs :
  (forall (tasks : list TaskWithMetadata) (i j : nat),
      In (i, j) (findPotentialDuplicates tasks) <->
      i < j /\ similarAt (6 # 10) tasks i j) /\
  findPotentialDuplicates (withIndex demoBatch) = [(0, 1)] /\
  includes (normalize "Schedule a demo call") (normalize "Schedule demo call") = false /\
  includes (normalize "Schedule demo call") (normalize "Schedule a demo call") = false /\
  containmentShortcut "Schedule demo call" "Schedule a demo call" = false /\
  getLevenshteinDistance (normalize "Schedule demo call")
                         (normalize "Schedule a demo call") = Some 2 /\
  calculateSimilarity "Schedule demo call" "Schedule a demo call" = Num (1 - (2 # 20)).
Proof.
  split; [exact in_findPotentialDuplicates|].
  repeat split; vm_compute; reflexivity.
Qed.

(** ** Cache matcher *)

Lemma checkAgainstClickUp_collect (extractedTasks : list Task)
    (existingClickUpTasks : list ClickUpEntry) :
  checkAgainstClickUp extractedTasks existingClickUpTasks =
  flat_map (fun i => match nth_error extractedTasks i with
                     | Some t => flat_map (matchIf i t) existingClickUpTasks
                     | None => []
                     end)
           (seq 0 (List.length extractedTasks)).
Proof.
  unfold checkAgainstClickUp.
  rewrite (fold_left_collect _
             (fun i => match nth_error extractedTasks i with
                       | Some t => flat_map (matchIf i t) existingClickUpTasks
                       | None => []
                       end)); [reflexivity|].
  intros acc i. destruct (nth_error extractedTasks i) as [t|].
  - apply fold_left_collect. intros acc' e. unfold matchStep, matchIf.
    destruct (js_gt _ _); [reflexivity|rewrite app_nil_r; reflexivity].
  - rewrite app_nil_r. reflexivity.
Qed.

(** C8. [checkAgainstClickUp] returns exactly the matches of a batch
    position and a cache entry whose title similarity exceeds 0.75, each
    with that similarity; it reads the batch and returns only matches.
    The task "Update onboarding docs" and the cache entry "Update
    onboarding doc" are matched, with similarity 21/22. *)
Theorem checkAgainstClickUp_matches :
  (forall (batch : list Task) (cache : list ClickUpEntry) (m : CacheMatch),
      In m (checkAgainstClickUp batch cache) <->
      exists t e,
        nth_error batch (extractedTaskIndex m) = Some t /\
        In e cache /\
        clickupTaskId m = entry_id e /\
        similarity m = calculateSimilarity (title t) (entry_title e) /\
        js_gt (similarity m) (75 # 100) = true) /\
  checkAgainstClickUp onboardingBatch onboardingCache =
    [ {| extractedTaskIndex := 0; clickupTaskId := "86abc"; similarity := Num (21 # 22) |} ] /\
  (75 # 100 < 21 # 22)%Q.
Proof.
  split; [|split; [vm_compute; reflexivity|reflexivity]].
  intros batch cache m. rewrite checkAgainstClickUp_collect, in_flat_map. split.
  - intros (i & Hi & H). destruct (nth_error batch i) as [t|] eqn:Ht; [|contradiction].
    apply in_flat_map in H. destruct H as (e & He & H).
    unfold matchIf in H. destruct (js_gt _ _) eqn:E; [|contradiction].
    destruct H as [<-|[]]. simpl. exists t, e. auto.
  - intros (t & e & Ht & He & Hid & Hsim & Hgt).
    exists (extractedTaskIndex m). split.
    + apply in_seq. assert (extractedTaskIndex m < List.length batch)
        by (apply nth_error_Some; congruence). lia.
    + rewrite Ht. apply in_flat_map. exists e. split; [exact He|].
      unfold matchIf. rewrite <- Hsim, Hgt. left.
      destruct m as [i c q]. simpl in *. subst. reflexivity.
Qed.

(** ** Semantic oracle stage *)

Lemma length_zero_nil {A : Type} (l : list A) :
  (List.length l =? 0) = true <-> l = [].
Proof. destruct l; simpl; split; intro H; congruence. Qed.

Lemma clientAvailable_get (env : Env) :
  clientAvailable env = true ->
  exists client env1, getAnthropicClient env = (inl client, env1).
Proof.
  unfold clientAvailable. destruct (getAnthropicClient env) as [[client|e] env1]; simpl.
  - intros _. exists client, env1. reflexivity.
  - discriminate.
Qed.

(** Without the key and without a cached handle a batch of two tasks
    makes [deduplicateTasks] throw the error of [getAnthropicClient]. *)
Lemma deduplicateTasks_throws_without_key :
  outcome (deduplicateTasks Json.parse failingOracle noKeyEnv followUpBatch)
  = throw missingKey.
Proof. vm_compute. reflexivity. Qed.

(** C1, amended. Whenever the batch is empty or [getAnthropicClient]
    returns a handle, [deduplicateTasks] throws nothing to its caller,
    whatever the language model does: it returns a
    [DeduplicationResult]. *)
Theorem deduplicateTasks_absorbs_failures
    (parse : string -> option json) (oracle : Client -> Request -> Response)
    (env : Env) (batch : list Task) :
  batch = [] \/ clientAvailable env = true ->
  exists r, outcome (deduplicateTasks parse oracle env batch) = ret r.
Proof.
  intros [->|Hclient]; [eexists; reflexivity|].
  unfold deduplicateTasks.
  destruct (List.length batch =? 0); [eexists; reflexivity|].
  destruct (clientAvailable_get env Hclient) as (client & env1 & ->).
  destruct (List.length _ =? 0); eexists; reflexivity.
Qed.

Lemma deduplicateTasks_absorbs_failures_witness :
  exists r, outcome (deduplicateTasks Json.parse failingOracle keyedEnv followUpBatch) = ret r.
Proof.
  apply (deduplicateTasks_absorbs_failures Json.parse failingOracle keyedEnv followUpBatch).
  right. reflexivity.
Defined.

Lemma stripMeta_eq (t : TaskWithMetadata) : stripMeta t = task t.
Proof. destruct t as [[? ? ? ?] ? ?]. reflexivity. Qed.

Lemma indexedFrom_mapi (f : Task -> nat -> TaskWithMetadata) (k : nat) (batch : list Task) :
  (forall t i, task (f t i) = t /\ index (f t i) = i) ->
  indexedFrom k (mapi_from f k batch) batch.
Proof.
  intro Hf. revert k. induction batch as [|t batch IH]; intro k.
  - split; reflexivity.
  - destruct (IH (S k)) as [Ht Hi]. destruct (Hf t k) as [Ht0 Hi0].
    split; simpl; congruence.
Qed.

Lemma indexedFrom_app (k : nat) (m1 m2 : list TaskWithMetadata) (b1 b2 : list Task) :
  indexedFrom k m1 b1 -> indexedFrom (k + List.length b1) m2 b2 ->
  indexedFrom k (m1 ++ m2) (b1 ++ b2).
Proof.
  intros [Ht1 Hi1] [Ht2 Hi2]. split.
  - rewrite map_app. congruence.
  - rewrite map_app, length_app, seq_app. congruence.
Qed.

Lemma indexedFrom_strip (k : nat) (metas : list TaskWithMetadata) (batch : list Task) :
  indexedFrom k metas batch -> map stripMeta metas = batch.
Proof.
  intros [Ht _]. rewrite <- Ht. apply map_ext. exact stripMeta_eq.
Qed.

Lemma withIndex_indexed (batch : list Task) : indexedFrom 0 (withIndex batch) batch.
Proof. apply indexedFrom_mapi. intros t i. split; reflexivity. Qed.

Lemma flatten_tasks_of_meeting (title : string) (ts : list Task)
    (acc : list TaskWithMetadata) (k : nat) :
  fold_left
    (fun st t =>
       let '(allTasksWithSource, index) := st in
       (allTasksWithSource ++ [ {| task := t; index := index; source := Some title |} ],
        S index))
    ts (acc, k)
  = (acc ++ mapi_from (fun t i => {| task := t; index := i; source := Some title |}) k ts,
     k + List.length ts).
Proof.
  revert acc k. induction ts as [|t ts IH]; intros acc k; simpl.
  - rewrite app_nil_r, Nat.add_0_r. reflexivity.
  - rewrite IH, <- app_assoc. simpl. f_equal. lia.
Qed.

Lemma flatten_fold (ms : list Meeting) (acc : list TaskWithMetadata) (k : nat) :
  exists metas,
    fold_left
      (fun st meeting =>
         fold_left
           (fun st t =>
              let '(allTasksWithSource, index) := st in
              (allTasksWithSource ++
                 [ {| task := t; index := index; source := Some (meetingTitle meeting) |} ],
               S index))
           (tasks meeting) st)
      ms (acc, k)
    = (acc ++ metas, k + List.length (allTasks ms)) /\
    indexedFrom k metas (allTasks ms).
Proof.
  revert acc k. induction ms as [|m ms IH]; intros acc k.
  - exists []. simpl. rewrite app_nil_r, Nat.add_0_r. split; [reflexivity|split; reflexivity].
  - cbn [fold_left]. rewrite flatten_tasks_of_meeting.
    destruct (IH (acc ++ mapi_from (fun t i => {| task := t; index := i;
                                                  source := Some (meetingTitle m) |})
                                   k (tasks m))
                 (k + List.length (tasks m))) as (metas & Hfold & Hidx).
    eexists. split.
    + rewrite Hfold, <- app_assoc. unfold allTasks. simpl.
      rewrite length_app, Nat.add_assoc. reflexivity.
    + unfold allTasks. simpl. apply indexedFrom_app; [|exact Hidx].
      apply indexedFrom_mapi. intros t i. split; reflexivity.
Qed.

Lemma flattenMeetings_indexed (ms : list Meeting) :
  indexedFrom 0 (flattenMeetings ms) (allTasks ms).
Proof.
  unfold flattenMeetings. destruct (flatten_fold ms [] 0) as (metas & -> & H).
  exact H.
Qed.

Lemma keepAll_flatten (ms : list Meeting) :
  keepAll (flattenMeetings ms) = map Kept (allTasks ms).
Proof.
  unfold keepAll.
  rewrite <- (indexedFrom_strip 0 _ _ (flattenMeetings_indexed ms)), map_map.
  reflexivity.
Qed.

(** C2. Two tasks with no candidate pair between them, the key unset
    and no handle stored.  [deduplicateTasks] throws the error of
    [getAnthropicClient], which it calls before it looks for pairs; the
    claim has it return the batch unchanged.  It makes no call.  On the
    same tasks [mergeSimilarTasks], which asks for the handle only after
    its no-pairs return, returns them unchanged without a call, and so
    does [deduplicateTasks] once the key is set. *)
Theorem no_candidate_pairs_throws_without_key
    (parse : string -> option json) (oracle : Client -> Request -> Response) :
  findPotentialDuplicates (withIndex distinctBatch) = [] /\
  deduplicateTasks parse oracle noKeyEnv distinctBatch
  = mkRun (throw missingKey) noKeyEnv [] /\
  allTasks distinctMeetings = distinctBatch /\
  findPotentialDuplicates (flattenMeetings distinctMeetings) = [] /\
  mergeSimilarTasks parse oracle noKeyEnv distinctMeetings
  = mkRun (ret (map Kept distinctBatch)) noKeyEnv [] /\
  outcome (deduplicateTasks parse oracle keyedEnv distinctBatch)
  = ret {| duplicates := []; uniqueTasks := distinctBatch; totalDuplicates := 0 |} /\
  calls (deduplicateTasks parse oracle keyedEnv distinctBatch) = [].
Proof. repeat split; vm_compute; reflexivity. Qed.

Lemma dedupTry_fallback (parse : string -> option json) (response : Response)
    (batch : list Task) (metas : list TaskWithMetadata) :
  duplicatesPayload parse response = None ->
  try_catch (dedupTry parse response batch metas) (allUnique batch) = allUnique batch.
Proof.
  unfold duplicatesPayload, payload, dedupTry, firstBlock, parseJSON.
  destruct response as [[|[text|ty] content]|e]; try reflexivity.
  simpl. destruct (match_braces text) as [m|]; [|reflexivity].
  destruct (parse m) as [v|]; [|reflexivity].
  destruct v as [|b|q|str|elems|members]; try reflexivity.
  simpl. destruct (lookup_prop "duplicates" members) as [[|b|q|str|elems|ms]|];
    try reflexivity; try discriminate; intros _; simpl;
    match goal with |- context [if ?c then _ else _] => destruct c; reflexivity end.
Qed.

(** C3. If the response the language model gave to [deduplicateTasks]
    has no JSON payload that parses, or the [duplicates] of the parsed
    object is absent or not a list, the function returns the whole batch
    as [uniqueTasks] with [totalDuplicates] 0, and throws nothing. *)
Theorem malformed_response_keeps_batch
    (parse : string -> option json) (oracle : Client -> Request -> Response)
    (env : Env) (batch : list Task) (request : Request) (response : Response) :
  In (request, response) (calls (deduplicateTasks parse oracle env batch)) ->
  duplicatesPayload parse response = None ->
  outcome (deduplicateTasks parse oracle env batch)
  = ret {| duplicates := []; uniqueTasks := batch; totalDuplicates := 0 |}.
Proof.
  unfold deduplicateTasks.
  destruct (List.length batch =? 0); [intros []|].
  destruct (getAnthropicClient env) as [[client|e] env1]; [|intros []].
  destruct (List.length _ =? 0); [intros []|].
  simpl. intros [Heq|[]] Hbad. injection Heq as _ Hresp.
  rewrite Hresp, (dedupTry_fallback parse response batch _ Hbad). reflexivity.
Qed.

Lemma malformed_response_keeps_batch_witness :
  outcome (deduplicateTasks Json.parse (replyWith proseReply) keyedEnv followUpBatch)
  = ret {| duplicates := []; uniqueTasks := followUpBatch; totalDuplicates := 0 |}.
Proof.
  apply (malformed_response_keeps_batch Json.parse (replyWith proseReply) keyedEnv
           followUpBatch
           (DedupRequest (withIndex followUpBatch) [(0, 1)])
           (Resolved [TextBlock proseReply])).
  - vm_compute. left. reflexivity.
  - vm_compute. reflexivity.
Defined.

Lemma toDuplicateMatch_entryOf (dup : json) :
  dup <> JNull -> toDuplicateMatch dup = ret (entryOf dup).
Proof. destruct dup; intro H; try reflexivity. contradiction. Qed.

Lemma mapM_toDuplicateMatch (elems : list json) :
  ~ In JNull elems -> mapM toDuplicateMatch elems = ret (map entryOf elems).
Proof.
  induction elems as [|e elems IH]; intro H; [reflexivity|].
  simpl. rewrite toDuplicateMatch_entryOf by (intros ->; apply H; left; reflexivity).
  simpl. rewrite IH by (intro Hin; apply H; right; exact Hin). reflexivity.
Qed.

Lemma dedupTry_accepted (parse : string -> option json) (response : Response)
    (batch : list Task) (metas : list TaskWithMetadata) (elems : list json) :
  duplicatesPayload parse response = Some elems ->
  ~ In JNull elems ->
  dedupTry parse response batch metas =
  ret {| duplicates := map entryOf elems;
         uniqueTasks :=
           map stripMeta
               (filter (fun t => negb (set_has (map taskIndex (map entryOf elems)) (index t)))
                       metas);
         totalDuplicates := List.length (map entryOf elems) |}.
Proof.
  unfold duplicatesPayload, payload, dedupTry, firstBlock, parseJSON.
  destruct response as [[|[text|ty] content]|e]; try discriminate.
  simpl. destruct (match_braces text) as [m|]; [|discriminate].
  destruct (parse m) as [v|]; [|discriminate].
  destruct v as [|b|q|str|es|members]; try discriminate.
  simpl. destruct (lookup_prop "duplicates" members) as [[|b|q|str|es|ms]|];
    try discriminate.
  intros Heq Hnull. injection Heq as ->. simpl.
  rewrite (mapM_toDuplicateMatch elems Hnull). reflexivity.
Qed.

(** The model's answer names position 1 as the original of position 0 and
    position 0 as the original of position 1; the function returns both
    entries. *)
Lemma deduplicateTasks_returns_swapped_entries :
  exists r,
    outcome (deduplicateTasks Json.parse (replyWith swappedReply) keyedEnv followUpBatch)
    = ret r /\
    totalDuplicates r = 2 /\
    canonicalRefs (duplicates r) = false.
Proof. eexists. split; [vm_compute; reflexivity|]. split; vm_compute; reflexivity. Qed.

(** C4, amended. For every response [deduplicateTasks] accepts, the
    returned [duplicates] are the entries of the model's answer, in
    order, each with the [taskIndex] and [duplicateOfIndex] the model
    gave: the function does not check them, so the returned list
    satisfies the invariant (a [duplicateOfIndex] that is not [null] is
    strictly below [taskIndex] and is not itself reported as a duplicate)
    exactly when the model's entries do. *)
Theorem deduplicateTasks_copies_entries
    (parse : string -> option json) (oracle : Client -> Request -> Response)
    (env : Env) (batch : list Task) (request : Request) (response : Response)
    (elems : list json) :
  In (request, response) (calls (deduplicateTasks parse oracle env batch)) ->
  duplicatesPayload parse response = Some elems ->
  ~ In JNull elems ->
  exists r,
    outcome (deduplicateTasks parse oracle env batch) = ret r /\
    duplicates r = map entryOf elems /\
    canonicalRefs (duplicates r) = canonicalRefs (map entryOf elems).
Proof.
  unfold deduplicateTasks.
  destruct (List.length batch =? 0); [intros []|].
  destruct (getAnthropicClient env) as [[client|e] env1]; [|intros []].
  destruct (List.length _ =? 0); [intros []|].
  simpl. intros [Heq|[]] Hpayload Hnull. injection Heq as _ Hresp.
  rewrite Hresp, (dedupTry_accepted parse response batch _ elems Hpayload Hnull).
  eexists. split; [reflexivity|]. split; reflexivity.
Qed.

Lemma deduplicateTasks_copies_entries_witness :
  exists r,
    outcome (deduplicateTasks Json.parse (replyWith goodReply) keyedEnv followUpBatch)
    = ret r /\
    duplicates r = map entryOf
      [ JObj [ ("taskIndex", JNum 1); ("duplicateOfIndex", JNum 0);
               ("reason", JStr "same email") ] ] /\
    canonicalRefs (duplicates r) = canonicalRefs (map entryOf
      [ JObj [ ("taskIndex", JNum 1); ("duplicateOfIndex", JNum 0);
               ("reason", JStr "same email") ] ]).
Proof.
  apply (deduplicateTasks_copies_entries Json.parse (replyWith goodReply) keyedEnv
           followUpBatch
           (DedupRequest (withIndex followUpBatch) [(0, 1)])
           (Resolved [TextBlock goodReply])).
  - vm_compute. left. reflexivity.
  - vm_compute. reflexivity.
  - vm_compute. intros [H|[]]. discriminate H.
Defined.

Lemma ret_injective {A : Type} (x y : A) : ret x = ret y -> x = y.
Proof. unfold ret. intro H. congruence. Qed.

Lemma keepFrom_nothing_reported (k : nat) (batch : list Task) :
  keepFrom k batch [] = batch.
Proof.
  revert k. induction batch as [|t batch IH]; intro k; simpl; [reflexivity|].
  rewrite IH. reflexivity.
Qed.

Lemma filter_indexed_keepFrom (k : nat) (metas : list TaskWithMetadata)
    (batch : list Task) (reported : list jsval) :
  indexedFrom k metas batch ->
  map stripMeta (filter (fun t => negb (set_has reported (index t))) metas)
  = keepFrom k batch reported.
Proof.
  revert k batch. induction metas as [|m metas IH]; intros k batch [Ht Hi].
  - simpl in Ht. subst batch. reflexivity.
  - destruct batch as [|t batch]; [discriminate|].
    simpl in Ht, Hi. injection Ht as Ht0 Ht. injection Hi as Hi0 Hi.
    simpl. rewrite Hi0.
    destruct (set_has reported k); simpl.
    + apply IH. split; assumption.
    + rewrite stripMeta_eq, Ht0. f_equal. apply IH. split; assumption.
Qed.

Lemma dedupTry_cases (parse : string -> option json) (response : Response)
    (batch : list Task) (metas : list TaskWithMetadata) (r : DeduplicationResult) :
  dedupTry parse response batch metas = ret r ->
  r = allUnique batch \/
  exists dups,
    r = {| duplicates := dups;
           uniqueTasks :=
             map stripMeta
                 (filter (fun t => negb (set_has (map taskIndex dups) (index t))) metas);
           totalDuplicates := List.length dups |}.
Proof.
  unfold dedupTry, firstBlock, parseJSON, bind, ret, throw.
  destruct response as [[|[text|ty] content]|e]; try discriminate.
  cbv beta iota. simpl nth_error. cbv beta iota.
  destruct (match_braces text) as [m|].
  2:{ intro H. apply ret_injective in H. subst r. left. reflexivity. }
  destruct (parse m) as [v|]; cbv beta iota; [|discriminate].
  destruct (getProp (Some v) "duplicates") as [dups|e]; [|discriminate].
  destruct (negb (truthy dups) || negb (isArray dups)).
  { intro H. apply ret_injective in H. subst r. left. reflexivity. }
  destruct (arrayMap dups toDuplicateMatch) as [ds|e]; [|discriminate].
  intro H. apply ret_injective in H. subst r. right. exists ds. reflexivity.
Qed.

Lemma same_index_functional (v : jsval) (i j : nat) :
  same_index v i = true -> same_index v j = true -> i = j.
Proof.
  destruct v as [[| |q| | |]|]; try discriminate. simpl. intros Hi Hj.
  apply Qeq_bool_iff in Hi, Hj. rewrite Hi in Hj.
  unfold Qeq in Hj. simpl in Hj. lia.
Qed.

Lemma set_has_reported (ds : list DuplicateMatch) (idxs : list nat) (i : nat) :
  Forall2 (fun d k => same_index (taskIndex d) k = true) ds idxs ->
  set_has (map taskIndex ds) i = true <-> In i idxs.
Proof.
  intro H. induction H as [|d k ds idxs Hdk _ IH]; simpl.
  - split; [discriminate|contradiction].
  - rewrite orb_true_iff. unfold set_has in IH. rewrite IH. split.
    + intros [Hi|Hin]; [left; exact (same_index_functional _ _ _ Hdk Hi)|right; exact Hin].
    + intros [<-|Hin]; [left; exact Hdk|right; exact Hin].
Qed.

Lemma keepFrom_length (k : nat) (batch : list Task) (reported : list jsval) :
  List.length (keepFrom k batch reported)
  = List.length (filter (fun i => negb (set_has reported i)) (seq k (List.length batch))).
Proof.
  revert k. induction batch as [|t batch IH]; intro k; simpl; [reflexivity|].
  destruct (set_has reported k); simpl; rewrite IH; reflexivity.
Qed.

Lemma kept_and_reported (batch : list Task) (ds : list DuplicateMatch) :
  distinctInRange (List.length batch) ds ->
  List.length (keepFrom 0 batch (map taskIndex ds)) + List.length ds = List.length batch.
Proof.
  intros (idxs & Hrep & Hnodup & Hrange).
  rewrite keepFrom_length, (Forall2_length Hrep).
  pose proof (filter_length (fun i => set_has (map taskIndex ds) i)
                            (seq 0 (List.length batch))) as Hsplit.
  rewrite length_seq in Hsplit.
  assert (Hsame : List.length (filter (fun i => set_has (map taskIndex ds) i)
                                      (seq 0 (List.length batch)))
                  = List.length idxs).
  { apply Permutation_length, NoDup_Permutation.
    - apply NoDup_filter, seq_NoDup.
    - exact Hnodup.
    - intro i. rewrite filter_In, in_seq.
      rewrite (set_has_reported ds idxs i Hrep). rewrite Forall_forall in Hrange.
      split; [tauto|]. intro Hin. specialize (Hrange i Hin). split; [lia|exact Hin]. }
  lia.
Qed.

(** C9. The result [deduplicateTasks] returns is consistent with itself:
    [totalDuplicates] is the length of [duplicates]; [uniqueTasks] is the
    batch, in its order, without the tasks whose position is a reported
    [taskIndex]; and when the reported [taskIndex] values are distinct
    positions of the batch, [duplicates] and [uniqueTasks] together have
    as many elements as the batch. *)
Theorem deduplicateTasks_result_consistent
    (parse : string -> option json) (oracle : Client -> Request -> Response)
    (env : Env) (batch : list Task) (r : DeduplicationResult) :
  outcome (deduplicateTasks parse oracle env batch) = ret r ->
  totalDuplicates r = List.length (duplicates r) /\
  uniqueTasks r = keepFrom 0 batch (map taskIndex (duplicates r)) /\
  (distinctInRange (List.length batch) (duplicates r) ->
   List.length (uniqueTasks r) + List.length (duplicates r) = List.length batch).
Proof.
  intro Hrun.
  assert (Hshape : totalDuplicates r = List.length (duplicates r) /\
                   uniqueTasks r = keepFrom 0 batch (map taskIndex (duplicates r))).
  { revert Hrun. unfold deduplicateTasks.
    destruct (List.length batch =? 0) eqn:Hlen.
    { apply length_zero_nil in Hlen. subst batch. simpl.
      intro H. apply ret_injective in H. subst r. split; reflexivity. }
    destruct (getAnthropicClient env) as [[client|e] env1]; [|discriminate].
    assert (Hall : totalDuplicates (allUnique batch)
                   = List.length (duplicates (allUnique batch)) /\
                   uniqueTasks (allUnique batch)
                   = keepFrom 0 batch (map taskIndex (duplicates (allUnique batch)))).
    { simpl. rewrite keepFrom_nothing_reported. split; reflexivity. }
    match goal with |- context [if ?c then _ else _] => destruct c end; simpl.
    { intro H. apply ret_injective in H. subst r. exact Hall. }
    intro H. apply ret_injective in H. subst r.
    destruct (dedupTry parse _ batch _) as [r|e] eqn:Htry; simpl; [|exact Hall].
    apply dedupTry_cases in Htry. destruct Htry as [->|(dups & ->)]; [exact Hall|].
    simpl. split; [reflexivity|].
    apply filter_indexed_keepFrom. apply withIndex_indexed. }
  destruct Hshape as [Htotal Hunique].
  split; [exact Htotal|]. split; [exact Hunique|].
  intro Hdistinct. rewrite Hunique. apply kept_and_reported. exact Hdistinct.
Qed.

Lemma deduplicateTasks_result_consistent_witness :
  let r := {| duplicates := map entryOf
                [ JObj [ ("taskIndex", JNum 1); ("duplicateOfIndex", JNum 0);
                         ("reason", JStr "same email") ] ];
              uniqueTasks := firstn 1 followUpBatch;
              totalDuplicates := 1 |} in
  totalDuplicates r = List.length (duplicates r) /\
  uniqueTasks r = keepFrom 0 followUpBatch (map taskIndex (duplicates r)) /\
  (distinctInRange (List.length followUpBatch) (duplicates r) ->
   List.length (uniqueTasks r) + List.length (duplicates r) = List.length followUpBatch).
Proof.
  intro r.
  apply (deduplicateTasks_result_consistent Json.parse (replyWith goodReply) keyedEnv
           followUpBatch r).
  vm_compute. reflexivity.
Defined.

(** ** Merge resolver *)

Lemma getProp_field (v : json) (k : string) (x : jsval) :
  getProp (Some v) k = ret x -> x = field k v.
Proof.
  destruct v; simpl; intro H; try discriminate;
    apply ret_injective in H; congruence.
Qed.

Lemma iterate_itemsOf (v : jsval) (items : list json) :
  iterate v = ret items -> items = itemsOf v.
Proof. unfold itemsOf. intros ->. reflexivity. Qed.

Lemma mergeStep_cases (result result' : list MergedTask) (merged merged' : list jsval)
    (merge : json) :
  mergeStep (result, merged) merge = ret (result', merged') ->
  (result' = result /\ merged' = merged) \/
  exists v,
    field "mergedTask" merge = Some v /\
    truthy (Some v) = true /\
    result' = result ++ [Synthesized v] /\
    merged' = merged ++ field "primaryIndex" merge ::
                map Some (itemsOf (js_or (field "mergeIndices" merge) (Some (JArr [])))).
Proof.
  unfold mergeStep, bind.
  destruct (getProp (Some merge) "mergedTask") as [mt|e] eqn:Hmt; [|discriminate].
  apply getProp_field in Hmt. subst mt.
  destruct (field "mergedTask" merge) as [v|] eqn:Hv.
  2:{ intro H. apply ret_injective in H. injection H as <- <-. left. split; reflexivity. }
  destruct (truthy (Some v)) eqn:Htruthy.
  2:{ intro H. apply ret_injective in H. injection H as <- <-. left. split; reflexivity. }
  destruct (getProp (Some merge) "primaryIndex") as [pi|e] eqn:Hpi; [|discriminate].
  apply getProp_field in Hpi. subst pi.
  destruct (getProp (Some merge) "mergeIndices") as [mi|e] eqn:Hmi; [|discriminate].
  apply getProp_field in Hmi. subst mi.
  destruct (iterate _) as [idxs|e] eqn:Hidxs; [|discriminate].
  apply iterate_itemsOf in Hidxs. subst idxs.
  intro H. apply ret_injective in H. injection H as <- <-.
  right. exists v. repeat split; try reflexivity; assumption.
Qed.

Lemma mergeStep_closed (result : list MergedTask) (merged : list jsval)
    (merge : json) (st' : list MergedTask * list jsval) :
  mergeStep (result, merged) merge = ret st' ->
  st' = (result ++ map Synthesized (synthesizedOf [merge]),
         merged ++ mergedOf [merge]).
Proof.
  unfold mergeStep, bind, synthesizedOf, mergedOf. cbn [flat_map].
  rewrite !app_nil_r.
  destruct (getProp (Some merge) "mergedTask") as [mt|e] eqn:Hmt; [|discriminate].
  apply getProp_field in Hmt. subst mt.
  destruct (field "mergedTask" merge) as [v|] eqn:Hv.
  2:{ intro H. apply ret_injective in H. subst st'.
      cbn [truthy map]. rewrite !app_nil_r. reflexivity. }
  destruct (truthy (Some v)) eqn:Htruthy.
  2:{ intro H. apply ret_injective in H. subst st'.
      cbn [map]. rewrite !app_nil_r. reflexivity. }
  destruct (getProp (Some merge) "primaryIndex") as [pi|e] eqn:Hpi; [|discriminate].
  apply getProp_field in Hpi. subst pi.
  destruct (getProp (Some merge) "mergeIndices") as [mi|e] eqn:Hmi; [|discriminate].
  apply getProp_field in Hmi. subst mi.
  destruct (iterate _) as [idxs|e] eqn:Hidxs; [|discriminate].
  apply iterate_itemsOf in Hidxs. subst idxs.
  intro H. apply ret_injective in H. subst st'. reflexivity.
Qed.

Lemma synthesizedOf_app (xs ys : list json) :
  synthesizedOf (xs ++ ys) = synthesizedOf xs ++ synthesizedOf ys.
Proof. unfold synthesizedOf. apply flat_map_app. Qed.

Lemma mergedOf_app (xs ys : list json) :
  mergedOf (xs ++ ys) = mergedOf xs ++ mergedOf ys.
Proof. unfold mergedOf. apply flat_map_app. Qed.

Lemma foldM_mergeStep_closed (groups : list json) :
  forall (result : list MergedTask) (merged : list jsval)
         (st' : list MergedTask * list jsval),
    foldM mergeStep groups (result, merged) = ret st' ->
    st' = (result ++ map Synthesized (synthesizedOf groups),
           merged ++ mergedOf groups).
Proof.
  induction groups as [|g groups IH]; intros result merged st' Hfold.
  - simpl in Hfold. apply ret_injective in Hfold. subst st'.
    cbn [synthesizedOf mergedOf flat_map map]. rewrite !app_nil_r. reflexivity.
  - cbn [foldM] in Hfold. unfold bind in Hfold.
    destruct (mergeStep (result, merged) g) as [st1|e] eqn:Hstep; [|discriminate].
    apply mergeStep_closed in Hstep. subst st1.
    apply IH in Hfold. subst st'.
    change (g :: groups) with ([g] ++ groups).
    rewrite synthesizedOf_app, mergedOf_app, map_app, !app_assoc. reflexivity.
Qed.

Lemma in_synthesizedOf (groups : list json) (v : json) :
  In v (synthesizedOf groups) <->
  exists merge,
    In merge groups /\ field "mergedTask" merge = Some v /\ truthy (Some v) = true.
Proof.
  unfold synthesizedOf. rewrite in_flat_map. split.
  - intros (merge & Hin & Hv). exists merge. split; [exact Hin|].
    destruct (field "mergedTask" merge) as [w|]; [|contradiction].
    destruct (truthy (Some w)) eqn:Htruthy; [|contradiction].
    destruct Hv as [->|[]]. split; [reflexivity|exact Htruthy].
  - intros (merge & Hin & Hv & Htruthy). exists merge. split; [exact Hin|].
    rewrite Hv, Htruthy. left. reflexivity.
Qed.

Lemma set_has_mergedOf (groups : list json) (i : nat) :
  set_has (mergedOf groups) i = true <->
  exists merge,
    In merge groups /\ truthy (field "mergedTask" merge) = true /\ groupCovers merge i.
Proof.
  unfold set_has, mergedOf. rewrite existsb_exists. split.
  - intros (x & Hx & Hsame). apply in_flat_map in Hx.
    destruct Hx as (merge & Hin & Hx). exists merge. split; [exact Hin|].
    destruct (truthy (field "mergedTask" merge)); [|contradiction].
    split; [reflexivity|]. destruct Hx as [<-|Hx].
    + left. exact Hsame.
    + right. apply in_map_iff in Hx. destruct Hx as (idx & <- & Hidx).
      exists idx. split; assumption.
  - intros (merge & Hin & Htruthy & Hcov).
    destruct Hcov as [Hprimary|(idx & Hidx & Hsame)].
    + exists (field "primaryIndex" merge). split; [|exact Hprimary].
      apply in_flat_map. exists merge. split; [exact Hin|].
      rewrite Htruthy. left. reflexivity.
    + exists (Some idx). split; [|exact Hsame].
      apply in_flat_map. exists merge. split; [exact Hin|].
      rewrite Htruthy. right. apply in_map. exact Hidx.
Qed.

Lemma mergeTry_cases (parse : string -> option json) (response : Response)
    (metas : list TaskWithMetadata) (result : list MergedTask) :
  mergeTry parse response metas = ret result ->
  result = keepAll metas \/
  exists synthesized merged,
    foldM mergeStep (mergeGroups parse response) ([], []) = ret (synthesized, merged) /\
    result = synthesized ++
             keepAll (filter (fun t => negb (set_has merged (index t))) metas).
Proof.
  unfold mergeTry, mergeGroups, payload, firstBlock, parseJSON, bind.
  destruct response as [[|[text|ty] content]|e]; try discriminate.
  2:{ simpl. intro H. apply ret_injective in H. left. congruence. }
  simpl nth_error. unfold ret at 1. cbv beta iota.
  destruct (match_braces text) as [m|].
  2:{ intro H. apply ret_injective in H. left. congruence. }
  destruct (parse m) as [parsed|]; [|discriminate].
  unfold ret at 1. cbv beta iota.
  destruct (getProp (Some parsed) "merges") as [mv|e] eqn:Hmv; [|discriminate].
  apply getProp_field in Hmv. subst mv.
  destruct (iterate _) as [merges|e] eqn:Hmerges; [|discriminate].
  apply iterate_itemsOf in Hmerges. subst merges.
  destruct (foldM mergeStep _ _) as [[synthesized merged]|e] eqn:Hfold; [|discriminate].
  intro H. apply ret_injective in H. subst result.
  right. exists synthesized, merged. split; reflexivity.
Qed.

Lemma keepAll_filter_keepFrom (ms : list Meeting) (merged : list jsval) :
  keepAll (filter (fun t => negb (set_has merged (index t))) (flattenMeetings ms))
  = map Kept (keepFrom 0 (allTasks ms) merged).
Proof.
  unfold keepAll.
  rewrite <- (filter_indexed_keepFrom 0 (flattenMeetings ms) (allTasks ms) merged
                (flattenMeetings_indexed ms)).
  rewrite map_map. reflexivity.
Qed.

(** C10. [mergeSimilarTasks] drops no task silently.  Whenever it
    returns, the groups it applied are none, or all the merge groups of
    the model's answer, and the result is determined by them position by
    position: first the [mergedTask] of every applied group that has
    one, then every task of the input, in the order of the input, whose
    position is not in the merged set.  A position is in the merged set
    exactly when it is the [primaryIndex] or one of the [mergeIndices]
    of an applied group that has a [mergedTask], and every such
    [mergedTask] is in the result.  A group without a [mergedTask] adds
    nothing to the merged set, so a task that only such groups name is
    kept at its place, also when an equal task is merged or kept
    elsewhere. *)
Theorem mergeSimilarTasks_keeps_or_merges
    (parse : string -> option json) (oracle : Client -> Request -> Response)
    (env : Env) (tasksByMeeting : list Meeting) (result : list MergedTask) :
  outcome (mergeSimilarTasks parse oracle env tasksByMeeting) = ret result ->
  exists applied : list json,
    (applied = [] \/
     exists request response,
       In (request, response)
          (calls (mergeSimilarTasks parse oracle env tasksByMeeting)) /\
       applied = mergeGroups parse response) /\
    result = map Synthesized (synthesizedOf applied)
             ++ map Kept (keepFrom 0 (allTasks tasksByMeeting) (mergedOf applied)) /\
    (forall i : nat,
        set_has (mergedOf applied) i = true <->
        exists merge,
          In merge applied /\
          truthy (field "mergedTask" merge) = true /\
          groupCovers merge i) /\
    (forall merge v,
        In merge applied ->
        field "mergedTask" merge = Some v ->
        truthy (Some v) = true ->
        In (Synthesized v) result).
Proof.
  assert (Hnone : forall res : list MergedTask,
             res = keepAll (flattenMeetings tasksByMeeting) ->
             exists applied : list json,
               (applied = [] \/
                exists request response,
                  In (request, response)
                     (calls (mergeSimilarTasks parse oracle env tasksByMeeting)) /\
                  applied = mergeGroups parse response) /\
               res = map Synthesized (synthesizedOf applied)
                     ++ map Kept (keepFrom 0 (allTasks tasksByMeeting) (mergedOf applied)) /\
               (forall i : nat,
                   set_has (mergedOf applied) i = true <->
                   exists merge,
                     In merge applied /\
                     truthy (field "mergedTask" merge) = true /\
                     groupCovers merge i) /\
               (forall merge v,
                   In merge applied ->
                   field "mergedTask" merge = Some v ->
                   truthy (Some v) = true ->
                   In (Synthesized v) res)).
  { intros res ->. exists []. split; [left; reflexivity|]. split.
    - cbn [synthesizedOf mergedOf flat_map map app].
      rewrite keepFrom_nothing_reported, keepAll_flatten. reflexivity.
    - split; [apply set_has_mergedOf|]. intros merge v []. }
  revert Hnone. unfold mergeSimilarTasks.
  destruct (List.length tasksByMeeting =? 0) eqn:Hlen.
  { apply length_zero_nil in Hlen. subst tasksByMeeting. simpl.
    intros Hnone H. apply ret_injective in H. subst result.
    apply Hnone. reflexivity. }
  destruct (List.length (flattenMeetings tasksByMeeting) <=? 1).
  { simpl. intros Hnone H. apply ret_injective in H. subst result.
    apply Hnone. reflexivity. }
  match goal with |- context [if ?c then _ else _] => destruct c end.
  { simpl. intros Hnone H. apply ret_injective in H. subst result.
    apply Hnone. reflexivity. }
  destruct (getAnthropicClient env) as [[client|e] env1]; [|discriminate].
  simpl. intros Hnone H. apply ret_injective in H. subst result.
  destruct (mergeTry parse _ _) as [res|e] eqn:Htry; simpl;
    [|apply Hnone; reflexivity].
  apply mergeTry_cases in Htry.
  destruct Htry as [->|(synthesized & merged & Hfold & ->)];
    [apply Hnone; reflexivity|].
  apply foldM_mergeStep_closed in Hfold. simpl in Hfold.
  injection Hfold as -> ->.
  exists (mergeGroups parse (oracle client (MergeRequest (flattenMeetings tasksByMeeting)))).
  split.
  { right. exists (MergeRequest (flattenMeetings tasksByMeeting)),
                  (oracle client (MergeRequest (flattenMeetings tasksByMeeting))).
    split; [left; reflexivity|reflexivity]. }
  split; [rewrite keepAll_filter_keepFrom; reflexivity|].
  split; [apply set_has_mergedOf|].
  intros merge v Hin Hv Htruthy. apply in_or_app. left. apply in_map.
  apply in_synthesizedOf. exists merge. repeat split; assumption.
Qed.

Lemma mergeSimilarTasks_keeps_or_merges_witness :
  exists applied : list json,
    (applied = [] \/
     exists request response,
       In (request, response)
          (calls (mergeSimilarTasks Json.parse (replyWith mergeReply) keyedEnv
                    twoMeetings)) /\
       applied = mergeGroups Json.parse response) /\
    mergedSample
    = map Synthesized (synthesizedOf applied)
      ++ map Kept (keepFrom 0 (allTasks twoMeetings) (mergedOf applied)) /\
    (forall i : nat,
        set_has (mergedOf applied) i = true <->
        exists merge,
          In merge applied /\
          truthy (field "mergedTask" merge) = true /\
          groupCovers merge i) /\
    (forall merge v,
        In merge applied ->
        field "mergedTask" merge = Some v ->
        truthy (Some v) = true ->
        In (Synthesized v) mergedSample).
Proof.
  apply (mergeSimilarTasks_keeps_or_merges Json.parse (replyWith mergeReply) keyedEnv
           twoMeetings mergedSample).
  vm_compute. reflexivity.
Defined.

(** * Further properties of the code *)

(** ** The edit distance is a metric *)

Lemma lev_length_diff (x y : list ascii) :
  List.length x - List.length y <= lev x y /\ List.length y - List.length x <= lev x y.
Proof.
  revert y. induction x as [|a x IHx]; intro y.
  - rewrite lev_nil_l. simpl. lia.
  - induction y as [|b y IHy].
    + simpl. lia.
    + rewrite lev_cons. simpl List.length.
      pose proof (IHx y). pose proof (IHx (b :: y)) as H1.
      simpl List.length in H1, IHy.
      destruct (Ascii.eqb a b); lia.
Qed.

(** Removing the first character of either sequence changes the distance
    by at most one. *)
Lemma lev_head_step (n : nat) :
  forall (x y : list ascii) (a : ascii),
    List.length x + List.length y <= n ->
    lev (a :: x) y <= S (lev x y) /\ lev x y <= S (lev (a :: x) y).
Proof.
  induction n as [|n IH]; intros x y a Hn.
  - destruct x, y; simpl in Hn; try lia. simpl. lia.
  - destruct y as [|b y].
    + rewrite !lev_nil_r. simpl. lia.
    + assert (Hxy : List.length x + List.length y <= n) by (simpl in Hn; lia).
      (* [lev x (b :: y)] against [lev x y], through symmetry *)
      assert (Hb : lev x (b :: y) <= S (lev x y) /\ lev x y <= S (lev x (b :: y))).
      { rewrite (lev_sym x (b :: y)), (lev_sym x y).
        apply IH. lia. }
      rewrite lev_cons. destruct (Ascii.eqb a b).
      * lia.
      * split; [lia|].
        assert (Ha : lev x y <= S (lev (a :: x) y)) by (apply IH; lia).
        lia.
Qed.

Lemma lev_cons_l (a : ascii) (x y : list ascii) :
  lev (a :: x) y <= S (lev x y) /\ lev x y <= S (lev (a :: x) y).
Proof. apply (lev_head_step (List.length x + List.length y)). lia. Qed.

Lemma lev_cons_r (b : ascii) (x y : list ascii) :
  lev x (b :: y) <= S (lev x y) /\ lev x y <= S (lev x (b :: y)).
Proof. rewrite (lev_sym x (b :: y)), (lev_sym x y). apply lev_cons_l. Qed.

Lemma lev_cons_both (a c : ascii) (x z : list ascii) :
  lev (a :: x) (c :: z) <= S (lev x z) /\
  (a = c -> lev (a :: x) (c :: z) = lev x z).
Proof.
  rewrite lev_cons. destruct (Ascii.eqb_spec a c) as [->|Hne].
  - split; [lia|reflexivity].
  - split; [lia|]. intro H. contradiction.
Qed.

Lemma lev_triangle_sized (n : nat) :
  forall x y z : list ascii,
    List.length x + List.length y + List.length z <= n ->
    lev x z <= lev x y + lev y z.
Proof.
  induction n as [|n IH]; intros x y z Hn.
  - destruct x, y, z; simpl in Hn; try lia; simpl; lia.
  - destruct x as [|a x].
    { rewrite !lev_nil_l. pose proof (lev_length_diff y z). lia. }
    destruct z as [|c z].
    { rewrite !lev_nil_r. pose proof (lev_length_diff (a :: x) y). lia. }
    destruct y as [|b y].
    { rewrite lev_nil_r, lev_nil_l. pose proof (lev_le_max (a :: x) (c :: z)). lia. }
    simpl in Hn.
    assert (H1 : lev x (c :: z) <= lev x (b :: y) + lev (b :: y) (c :: z))
      by (apply IH; simpl; lia).
    assert (H2 : lev (a :: x) z <= lev (a :: x) (b :: y) + lev (b :: y) z)
      by (apply IH; simpl; lia).
    assert (H3 : lev (a :: x) (c :: z) <= lev (a :: x) y + lev y (c :: z))
      by (apply IH; simpl; lia).
    assert (H4 : lev (a :: x) z <= lev (a :: x) y + lev y z)
      by (apply IH; simpl; lia).
    assert (H5 : lev x (c :: z) <= lev x y + lev y (c :: z))
      by (apply IH; simpl; lia).
    assert (H6 : lev x z <= lev x y + lev y z)
      by (apply IH; simpl; lia).
    destruct (lev_cons_l a x (c :: z)) as [U1 _].
    destruct (lev_cons_r c (a :: x) z) as [U2 _].
    destruct (lev_cons_both a c x z) as [U3 U4].
    pose proof (lev_cons a b x y) as E1. pose proof (lev_cons b c y z) as E2.
    destruct (Ascii.eqb_spec a b) as [Hab|Hab];
      destruct (Ascii.eqb_spec b c) as [Hbc|Hbc]; try lia.
    assert (E3 : lev (a :: x) (c :: z) = lev x z) by (apply U4; congruence).
    lia.
Qed.

Lemma lev_triangle (x y z : list ascii) : lev x z <= lev x y + lev y z.
Proof.
  apply (lev_triangle_sized (List.length x + List.length y + List.length z)). lia.
Qed.

(** X1. [getLevenshteinDistance] always returns a number, and as a
    function of two strings it is a metric: it is symmetric, it is 0
    exactly for equal strings, and it satisfies the triangle
    inequality. *)
Theorem getLevenshteinDistance_metric (s1 s2 s3 : string) :
  exists d12 d23 d13 : nat,
    getLevenshteinDistance s1 s2 = Some d12 /\
    getLevenshteinDistance s2 s3 = Some d23 /\
    getLevenshteinDistance s1 s3 = Some d13 /\
    getLevenshteinDistance s2 s1 = Some d12 /\
    (d12 = 0 <-> s1 = s2) /\
    d13 <= d12 + d23.
Proof.
  exists (editDistance s1 s2), (editDistance s2 s3), (editDistance s1 s3).
  rewrite !getLevenshteinDistance_correct, (editDistance_sym s2 s1).
  repeat split.
  - apply editDistance_zero.
  - intros ->. unfold editDistance. apply lev_refl.
  - unfold editDistance. apply lev_triangle.
Qed.

(** X2. The distance [getLevenshteinDistance] returns is at least the
    difference of the two lengths and at most the greater length. *)
Theorem getLevenshteinDistance_bounds (s1 s2 : string) :
  exists d : nat,
    getLevenshteinDistance s1 s2 = Some d /\
    String.length s1 - String.length s2 <= d /\
    String.length s2 - String.length s1 <= d /\
    d <= Nat.max (String.length s1) (String.length s2).
Proof.
  exists (editDistance s1 s2). rewrite getLevenshteinDistance_correct.
  split; [reflexivity|].
  pose proof (editDistance_le s1 s2) as Hle.
  pose proof (lev_length_diff (rev (list_ascii_of_string s1))
                              (rev (list_ascii_of_string s2))) as Hdiff.
  rewrite !length_rev, !length_list_ascii in Hdiff.
  unfold editDistance. unfold editDistance in Hle. lia.
Qed.

Lemma list_ascii_app (s t : string) :
  list_ascii_of_string (s ++ t) = list_ascii_of_string s ++ list_ascii_of_string t.
Proof. induction s as [|c s IH]; simpl; [reflexivity|]. rewrite IH. reflexivity. Qed.

Lemma editDistance_snoc (s t : string) (a b : ascii) :
  editDistance (s ++ String a EmptyString) (t ++ String b EmptyString) =
  if Ascii.eqb a b then editDistance s t
  else S (Nat.min (Nat.min (editDistance s t)
                           (editDistance (s ++ String a EmptyString) t))
                  (editDistance s (t ++ String b EmptyString))).
Proof.
  unfold editDistance. rewrite !list_ascii_app. simpl list_ascii_of_string.
  rewrite !rev_app_distr. simpl rev. simpl app. apply lev_cons.
Qed.

(** X3. [getLevenshteinDistance] satisfies the recurrence of the edit
    distance on the last characters: against the empty string it is the
    length of the other string; for strings that end in the same
    character it is the distance of the strings without it; otherwise it
    is one more than the least of the distances with the last character
    of one, of the other or of both removed. *)
Theorem getLevenshteinDistance_recurrence (s t : string) (a b : ascii) :
  getLevenshteinDistance EmptyString t = Some (String.length t) /\
  getLevenshteinDistance s EmptyString = Some (String.length s) /\
  getLevenshteinDistance (s ++ String a EmptyString) (t ++ String b EmptyString) =
    if Ascii.eqb a b then getLevenshteinDistance s t
    else js_succ (js_min (js_min (getLevenshteinDistance s t)
                                 (getLevenshteinDistance (s ++ String a EmptyString) t))
                         (getLevenshteinDistance s (t ++ String b EmptyString))).
Proof.
  rewrite !getLevenshteinDistance_correct. repeat split.
  - unfold editDistance. simpl. rewrite lev_nil_l, length_rev, length_list_ascii.
    reflexivity.
  - unfold editDistance. simpl. rewrite lev_nil_r, length_rev, length_list_ascii.
    reflexivity.
  - rewrite editDistance_snoc. destruct (Ascii.eqb a b); reflexivity.
Qed.

(** ** Bounds on the similarity *)

Lemma Qle_complement_ratio (d mn m : nat) :
  0 < m -> m <= d + mn ->
  (1 - (Z.of_nat d # Pos.of_nat m) <= Z.of_nat mn # Pos.of_nat m)%Q.
Proof.
  intros Hm H. unfold Qle, Qminus, Qplus, Qopp. cbn [Qnum Qden].
  rewrite ?Pos2Z.inj_mul, ?Zpos_of_nat by exact Hm. nia.
Qed.

Lemma Qle_complement_mono (d d' m : nat) :
  0 < m -> d' <= d ->
  (1 - (Z.of_nat d # Pos.of_nat m) <= 1 - (Z.of_nat d' # Pos.of_nat m))%Q.
Proof.
  intros Hm H. unfold Qle, Qminus, Qplus, Qopp. cbn [Qnum Qden].
  rewrite ?Pos2Z.inj_mul, ?Zpos_of_nat by exact Hm. nia.
Qed.

Lemma similarity_between (a b : string) :
  normalize a <> normalize b ->
  let m := Nat.max (String.length (normalize a)) (String.length (normalize b)) in
  let mn := Nat.min (String.length (normalize a)) (String.length (normalize b)) in
  let d := editDistance (normalize a) (normalize b) in
  0 < m /\
  exists q : Q,
    calculateSimilarity a b = Num q /\
    (1 - (Z.of_nat d # Pos.of_nat m) <= q)%Q /\
    (q <= Z.of_nat mn # Pos.of_nat m)%Q.
Proof.
  unfold calculateSimilarity, normalize.
  set (s1 := trim (toLowerCase a)). set (s2 := trim (toLowerCase b)).
  intro Hne. cbv zeta.
  assert (Hmax : 0 < Nat.max (String.length s1) (String.length s2)).
  { destruct s1, s2; simpl; try lia. congruence. }
  split; [exact Hmax|].
  destruct (String.eqb_spec s1 s2) as [Heq|_]; [contradiction|].
  assert (Hdiff : Nat.max (String.length s1) (String.length s2)
                  <= editDistance s1 s2 + Nat.min (String.length s1) (String.length s2)).
  { pose proof (lev_length_diff (rev (list_ascii_of_string s1))
                                (rev (list_ascii_of_string s2))) as H.
    rewrite !length_rev, !length_list_ascii in H. unfold editDistance. lia. }
  rewrite (js_div_pos _ _ Hmax).
  destruct ((includes s1 s2 || includes s2 s1) && _).
  - eexists. split; [reflexivity|]. split.
    + apply Qle_complement_ratio; assumption.
    + apply Qle_refl.
  - assert (Hd : editDistance
                   (if String.length s2 <? String.length s1 then s2 else s1)
                   (if String.length s2 <? String.length s1 then s1 else s2)
                 = editDistance s1 s2).
    { destruct (String.length s2 <? String.length s1);
        [apply editDistance_sym|reflexivity]. }
    assert (Hlong : String.length
                      (if String.length s2 <? String.length s1 then s1 else s2)
                    = Nat.max (String.length s1) (String.length s2)).
    { destruct (Nat.ltb_spec (String.length s2) (String.length s1)); lia. }
    rewrite getLevenshteinDistance_correct, Hd, Hlong.
    destruct (Nat.eqb_spec (Nat.max (String.length s1) (String.length s2)) 0); [lia|].
    rewrite js_div_pos by exact Hmax. simpl one_minus.
    eexists. split; [reflexivity|]. split.
    + apply Qle_refl.
    + apply Qle_complement_ratio; assumption.
Qed.

Lemma Qlt_threshold_complement (d m : nat) :
  0 < m -> 5 * d < 2 * m ->
  (6 # 10 < 1 - (Z.of_nat d # Pos.of_nat m))%Q.
Proof.
  intros Hm H. unfold Qlt, Qminus, Qplus, Qopp. cbn [Qnum Qden].
  rewrite ?Pos2Z.inj_mul, ?Zpos_of_nat by exact Hm. nia.
Qed.

Lemma Qle_ratio_threshold (mn m : nat) :
  0 < m -> 10 * mn <= 6 * m ->
  (Z.of_nat mn # Pos.of_nat m <= 6 # 10)%Q.
Proof.
  intros Hm H. unfold Qle. cbn [Qnum Qden].
  rewrite ?Zpos_of_nat by exact Hm. nia.
Qed.

Lemma js_gt_true (q c : Q) : (c < q)%Q -> js_gt (Num q) c = true.
Proof.
  intro H. simpl. destruct (Qle_bool q c) eqn:E; [|reflexivity].
  apply Qle_bool_iff in E. exfalso. exact (Qlt_not_le _ _ H E).
Qed.

Lemma js_gt_false (q c : Q) : (q <= c)%Q -> js_gt (Num q) c = false.
Proof. intro H. simpl. apply Qle_bool_iff in H. rewrite H. reflexivity. Qed.

Lemma calculateSimilarity_same (a b : string) :
  normalize a = normalize b -> calculateSimilarity a b = Num 1.
Proof.
  unfold calculateSimilarity, normalize. intros ->.
  rewrite String.eqb_refl. reflexivity.
Qed.

(** X5. What the candidate pair generator guarantees for two positions
    [i < j] of a batch.  Titles equal after normalization are a candidate
    pair.  Titles whose edit distance after normalization is below 40 %
    of the greater length are a candidate pair.  Titles that differ after
    normalization and whose shorter length is at most 60 % of the longer
    are not a candidate pair. *)
Theorem findPotentialDuplicates_guarantees
    (tasks : list TaskWithMetadata) (i j : nat) (ti tj : TaskWithMetadata) :
  nth_error tasks i = Some ti ->
  nth_error tasks j = Some tj ->
  i < j ->
  let a := normalize (title (task ti)) in
  let b := normalize (title (task tj)) in
  (a = b -> In (i, j) (findPotentialDuplicates tasks)) /\
  (5 * editDistance a b < 2 * Nat.max (String.length a) (String.length b) ->
   In (i, j) (findPotentialDuplicates tasks)) /\
  (a <> b ->
   10 * Nat.min (String.length a) (String.length b)
   <= 6 * Nat.max (String.length a) (String.length b) ->
   ~ In (i, j) (findPotentialDuplicates tasks)).
Proof.
  intros Hi Hj Hlt a b.
  assert (Hin : js_gt (calculateSimilarity (title (task ti)) (title (task tj))) (6 # 10)
                = true -> In (i, j) (findPotentialDuplicates tasks)).
  { intro H. apply in_findPotentialDuplicates. split; [exact Hlt|].
    exists ti, tj. auto. }
  assert (Hsame : a = b -> In (i, j) (findPotentialDuplicates tasks)).
  { intro Heq. apply Hin. rewrite (calculateSimilarity_same _ _ Heq). reflexivity. }
  split; [exact Hsame|]. split.
  - intro Hclose.
    destruct (string_dec a b) as [Heq|Hne]; [exact (Hsame Heq)|].
    destruct (similarity_between _ _ Hne) as (Hm & q & Hq & Hlow & _).
    apply Hin. rewrite Hq. apply js_gt_true.
    eapply Qlt_le_trans; [|exact Hlow].
    apply Qlt_threshold_complement; [exact Hm|exact Hclose].
  - intros Hne Hshort Hpair.
    apply in_findPotentialDuplicates in Hpair.
    destruct Hpair as (_ & ti' & tj' & Hi' & Hj' & Hgt).
    rewrite Hi in Hi'. rewrite Hj in Hj'. injection Hi' as <-. injection Hj' as <-.
    destruct (similarity_between _ _ Hne) as (Hm & q & Hq & _ & Hhigh).
    rewrite Hq, js_gt_false in Hgt; [discriminate|].
    eapply Qle_trans; [exact Hhigh|].
    apply Qle_ratio_threshold; [exact Hm|exact Hshort].
Qed.

Lemma findPotentialDuplicates_guarantees_witness :
  let a := normalize "Schedule demo call" in
  let b := normalize "Schedule a demo call" in
  (a = b -> In (0, 1) (findPotentialDuplicates (withIndex demoBatch))) /\
  (5 * editDistance a b < 2 * Nat.max (String.length a) (String.length b) ->
   In (0, 1) (findPotentialDuplicates (withIndex demoBatch))) /\
  (a <> b ->
   10 * Nat.min (String.length a) (String.length b)
   <= 6 * Nat.max (String.length a) (String.length b) ->
   ~ In (0, 1) (findPotentialDuplicates (withIndex demoBatch))).
Proof.
  apply (findPotentialDuplicates_guarantees (withIndex demoBatch) 0 1
           {| task := sampleTask "Schedule demo call"; index := 0; source := None |}
           {| task := sampleTask "Schedule a demo call"; index := 1; source := None |}).
  - reflexivity.
  - reflexivity.
  - lia.
Defined.

(** ** Normalization *)

Lemma lower_char_idempotent (c : ascii) : lower_char (lower_char c) = lower_char c.
Proof. destruct c as [[] [] [] [] [] [] [] []]; vm_compute; reflexivity. Qed.

Lemma is_space_lower_char (c : ascii) : is_space (lower_char c) = is_space c.
Proof. destruct c as [[] [] [] [] [] [] [] []]; vm_compute; reflexivity. Qed.

Lemma toLowerCase_idempotent (s : string) : toLowerCase (toLowerCase s) = toLowerCase s.
Proof.
  induction s as [|c s IH]; simpl; [reflexivity|].
  rewrite lower_char_idempotent, IH. reflexivity.
Qed.

Lemma toLowerCase_trimStart (s : string) :
  toLowerCase (trimStart s) = trimStart (toLowerCase s).
Proof.
  induction s as [|c s IH]; simpl; [reflexivity|].
  rewrite is_space_lower_char. destruct (is_space c); [exact IH|reflexivity].
Qed.

Lemma toLowerCase_trimEnd (s : string) :
  toLowerCase (trimEnd s) = trimEnd (toLowerCase s).
Proof.
  induction s as [|c s IH]; simpl; [reflexivity|].
  rewrite <- IH, is_space_lower_char.
  destruct (trimEnd s) as [|c' t]; simpl; [|reflexivity].
  destruct (is_space c); reflexivity.
Qed.

Lemma trimStart_idempotent (s : string) : trimStart (trimStart s) = trimStart s.
Proof.
  induction s as [|c s IH]; simpl; [reflexivity|].
  destruct (is_space c) eqn:E; [exact IH|]. simpl. rewrite E. reflexivity.
Qed.

Lemma trimEnd_idempotent (s : string) : trimEnd (trimEnd s) = trimEnd s.
Proof.
  induction s as [|c s IH]; simpl; [reflexivity|].
  destruct (trimEnd s) as [|c' t] eqn:E.
  - destruct (is_space c) eqn:Ec; simpl; [reflexivity|]. rewrite Ec. reflexivity.
  - change (trimEnd (String c (String c' t))) with
      (match trimEnd (String c' t) with
       | EmptyString => if is_space c then EmptyString else String c EmptyString
       | r => String c r
       end).
    rewrite IH. reflexivity.
Qed.

Lemma trimEnd_startsTrimmed (s : string) :
  trimStart s = s -> trimStart (trimEnd s) = trimEnd s.
Proof.
  destruct s as [|c s]; [reflexivity|]. simpl.
  destruct (is_space c) eqn:E.
  - intro H. exfalso.
    assert (Hlen : String.length (trimStart s) <= String.length s).
    { clear. induction s as [|c s IH]; simpl; [lia|].
      destruct (is_space c); simpl; lia. }
    rewrite H in Hlen. simpl in Hlen. lia.
  - intros _. destruct (trimEnd s); simpl; rewrite E; reflexivity.
Qed.

Lemma trim_idempotent (s : string) : trim (trim s) = trim s.
Proof.
  unfold trim.
  rewrite (trimEnd_startsTrimmed (trimStart s) (trimStart_idempotent s)).
  apply trimEnd_idempotent.
Qed.

Lemma normalize_toLowerCase (s : string) : normalize (toLowerCase s) = normalize s.
Proof. unfold normalize. rewrite toLowerCase_idempotent. reflexivity. Qed.

Lemma normalize_trim (s : string) : normalize (trim s) = normalize s.
Proof.
  unfold normalize, trim.
  rewrite toLowerCase_trimEnd, toLowerCase_trimStart.
  apply (trim_idempotent (toLowerCase s)).
Qed.

Lemma normalize_idempotent (s : string) : normalize (normalize s) = normalize s.
Proof.
  unfold normalize at 2. rewrite normalize_trim, normalize_toLowerCase. reflexivity.
Qed.

Lemma calculateSimilarity_normalized (a a' b b' : string) :
  normalize a = normalize a' -> normalize b = normalize b' ->
  calculateSimilarity a b = calculateSimilarity a' b'.
Proof.
  unfold calculateSimilarity, normalize. intros -> ->. reflexivity.
Qed.

(** X6. The similarity does not depend on letter case or on white space
    around the strings: lowering the case of an argument, trimming it or
    normalizing both arguments leaves [calculateSimilarity] unchanged. *)
Theorem calculateSimilarity_ignores_case_and_margins (a b : string) :
  calculateSimilarity (toLowerCase a) b = calculateSimilarity a b /\
  calculateSimilarity (trim a) b = calculateSimilarity a b /\
  calculateSimilarity a (toLowerCase b) = calculateSimilarity a b /\
  calculateSimilarity a (trim b) = calculateSimilarity a b /\
  calculateSimilarity (normalize a) (normalize b) = calculateSimilarity a b.
Proof.
  repeat split; apply calculateSimilarity_normalized;
    try reflexivity;
    auto using normalize_toLowerCase, normalize_trim, normalize_idempotent.
Qed.

(** ** Order and number of the candidate pairs *)

Lemma StronglySorted_append {A : Type} (R : A -> A -> Prop) (l1 l2 : list A) :
  StronglySorted R l1 -> StronglySorted R l2 ->
  (forall x y, In x l1 -> In y l2 -> R x y) ->
  StronglySorted R (l1 ++ l2).
Proof.
  intros H1 H2 Hcross. induction H1 as [|a l1 Hl1 IH Ha]; simpl; [exact H2|].
  constructor.
  - apply IH. intros x y Hx Hy. apply Hcross; [right; exact Hx|exact Hy].
  - apply Forall_app. split; [exact Ha|].
    apply Forall_forall. intros y Hy. apply Hcross; [left; reflexivity|exact Hy].
Qed.

Lemma StronglySorted_flat_map {A B : Type} (S : A -> A -> Prop) (R : B -> B -> Prop)
    (f : A -> list B) (l : list A) :
  StronglySorted S l ->
  (forall x, In x l -> StronglySorted R (f x)) ->
  (forall x y p q, S x y -> In p (f x) -> In q (f y) -> R p q) ->
  StronglySorted R (flat_map f l).
Proof.
  intros Hl Hf Hcross. induction Hl as [|a l Hl IH Ha]; simpl; [constructor|].
  apply StronglySorted_append.
  - apply Hf. left. reflexivity.
  - apply IH. intros x Hx. apply Hf. right. exact Hx.
  - intros p q Hp Hq. apply in_flat_map in Hq. destruct Hq as (y & Hy & Hq).
    rewrite Forall_forall in Ha. exact (Hcross a y p q (Ha y Hy) Hp Hq).
Qed.

Lemma StronglySorted_seq_lt (start len : nat) : StronglySorted lt (seq start len).
Proof.
  revert start. induction len as [|len IH]; intro start; simpl; constructor.
  - apply IH.
  - apply Forall_forall. intros y Hy. apply in_seq in Hy. lia.
Qed.

Lemma StronglySorted_NoDup {A : Type} (R : A -> A -> Prop) (l : list A) :
  (forall x, ~ R x x) -> StronglySorted R l -> NoDup l.
Proof.
  intros Hirr H. induction H as [|a l Hl IH Ha]; constructor; [|exact IH].
  intro Hin. rewrite Forall_forall in Ha. exact (Hirr a (Ha a Hin)).
Qed.

Lemma pairIf_cases (tasks : list TaskWithMetadata) (i j : nat) :
  pairIf tasks i j = [] \/ pairIf tasks i j = [(i, j)].
Proof.
  unfold pairIf. destruct (nth_error tasks i), (nth_error tasks j); auto.
  destruct (js_gt _ _); auto.
Qed.

Lemma list_sum_le {A : Type} (f g : A -> nat) (l : list A) :
  (forall x, In x l -> f x <= g x) ->
  list_sum (map f l) <= list_sum (map g l).
Proof.
  induction l as [|a l IH]; intro H; simpl; [lia|].
  pose proof (H a (or_introl eq_refl)).
  assert (list_sum (map f l) <= list_sum (map g l))
    by (apply IH; intros x Hx; apply H; right; exact Hx).
  lia.
Qed.

Lemma flat_map_at_most_one {A B : Type} (f : A -> list B) (l : list A) :
  (forall x, List.length (f x) <= 1) ->
  List.length (flat_map f l) <= List.length l.
Proof.
  intro H. induction l as [|a l IH]; simpl; [lia|].
  rewrite length_app. specialize (H a). lia.
Qed.

Lemma triangular_sum (n k a : nat) :
  a + k = n ->
  2 * list_sum (map (fun i => n - (i + 1)) (seq a k)) = k * (k - 1).
Proof.
  revert a. induction k as [|k IH]; intros a H; simpl; [reflexivity|].
  specialize (IH (S a) ltac:(lia)).
  replace (n - (a + 1)) with k by lia. nia.
Qed.

(** X7. The candidate pairs come out in the order of the nested loops,
    strictly increasing, so no pair occurs twice; every pair [(i, j)] has
    [i < j] inside the batch; and a batch of [n] tasks has at most
    [n (n - 1) / 2] of them (none for fewer than two tasks). *)
Theorem findPotentialDuplicates_ordered (tasks : list TaskWithMetadata) :
  StronglySorted pairBefore (findPotentialDuplicates tasks) /\
  NoDup (findPotentialDuplicates tasks) /\
  Forall (fun p => fst p < snd p /\ snd p < List.length tasks)
         (findPotentialDuplicates tasks) /\
  2 * List.length (findPotentialDuplicates tasks)
  <= List.length tasks * (List.length tasks - 1).
Proof.
  assert (Hsorted : StronglySorted pairBefore (findPotentialDuplicates tasks)).
  { rewrite findPotentialDuplicates_collect.
    apply (StronglySorted_flat_map lt).
    - apply StronglySorted_seq_lt.
    - intros i _. apply (StronglySorted_flat_map lt).
      + apply StronglySorted_seq_lt.
      + intros j _. destruct (pairIf_cases tasks i j) as [->| ->].
        * constructor.
        * constructor; constructor.
      + intros j j' p q Hlt Hp Hq.
        apply in_pairIf in Hp. apply in_pairIf in Hq.
        destruct Hp as [-> _], Hq as [-> _]. right. simpl. split; [reflexivity|exact Hlt].
    - intros i i' p q Hlt Hp Hq.
      apply in_flat_map in Hp. apply in_flat_map in Hq.
      destruct Hp as (j & _ & Hp), Hq as (j' & _ & Hq).
      apply in_pairIf in Hp. apply in_pairIf in Hq.
      destruct Hp as [-> _], Hq as [-> _]. left. exact Hlt. }
  split; [exact Hsorted|]. split.
  { apply (StronglySorted_NoDup pairBefore); [|exact Hsorted].
    intros p [H|[_ H]]; lia. }
  split.
  { apply Forall_forall. intros [i j] Hin.
    apply in_findPotentialDuplicates in Hin.
    destruct Hin as (Hlt & ti & tj & _ & Hj & _). simpl. split; [exact Hlt|].
    apply nth_error_Some. congruence. }
  rewrite findPotentialDuplicates_collect, length_flat_map.
  rewrite <- (triangular_sum (List.length tasks) (List.length tasks) 0) by lia.
  apply Nat.mul_le_mono_l. apply list_sum_le. intros i Hi.
  pose proof (flat_map_at_most_one (pairIf tasks i)
                (seq (i + 1) (List.length tasks - (i + 1)))) as Hone.
  rewrite length_seq in Hone. apply Hone.
  intro j. destruct (pairIf_cases tasks i j) as [->| ->]; simpl; lia.
Qed.

(** ** The client handle *)

Lemma clientAvailable_spec (env : Env) :
  clientAvailable env =
  match anthropic env with
  | Some _ => true
  | None => keySet env
  end.
Proof.
  unfold clientAvailable, getAnthropicClient, keySet.
  destruct (anthropic env); [reflexivity|].
  destruct (ANTHROPIC_API_KEY env) as [[|c k]|]; reflexivity.
Qed.

Lemma getAnthropicClient_cached (env : Env) (client : Client) :
  anthropic env = Some client -> getAnthropicClient env = (ret client, env).
Proof. unfold getAnthropicClient. intros ->. reflexivity. Qed.

Lemma getAnthropicClient_state (env : Env) :
  ANTHROPIC_API_KEY (snd (getAnthropicClient env)) = ANTHROPIC_API_KEY env /\
  match fst (getAnthropicClient env) with
  | inl client =>
      anthropic (snd (getAnthropicClient env)) = Some client /\
      (anthropic env = None -> ANTHROPIC_API_KEY env = Some (apiKey client)) /\
      forall key : option string,
        let later := {| ANTHROPIC_API_KEY := key;
                        anthropic := anthropic (snd (getAnthropicClient env)) |} in
        getAnthropicClient later = (ret client, later)
  | inr error =>
      error = missingKey /\
      snd (getAnthropicClient env) = env /\
      anthropic env = None /\
      keySet env = false
  end.
Proof.
  unfold getAnthropicClient, keySet.
  destruct (anthropic env) as [client|] eqn:Hcached.
  - simpl. rewrite Hcached. repeat split; try reflexivity; discriminate.
  - destruct (ANTHROPIC_API_KEY env) as [[|c k]|] eqn:Hkey; simpl;
      repeat split; try reflexivity; try assumption.
Qed.

(** X8. [getAnthropicClient] builds the handle at most once.  It never
    changes the environment variable.  When it returns a handle, the
    handle is stored, and every later call returns that same handle and
    leaves the state alone, whatever the variable then holds.  When it
    throws, the error is the missing-key error, the state is unchanged,
    no handle was stored and the key is unset or empty. *)
Theorem getAnthropicClient_caches (env : Env) :
  ANTHROPIC_API_KEY (snd (getAnthropicClient env)) = ANTHROPIC_API_KEY env /\
  match fst (getAnthropicClient env) with
  | inl client =>
      anthropic (snd (getAnthropicClient env)) = Some client /\
      (anthropic env = None -> ANTHROPIC_API_KEY env = Some (apiKey client)) /\
      forall key : option string,
        let later := {| ANTHROPIC_API_KEY := key;
                        anthropic := anthropic (snd (getAnthropicClient env)) |} in
        getAnthropicClient later = (ret client, later)
  | inr error =>
      error = missingKey /\
      snd (getAnthropicClient env) = env /\
      anthropic env = None /\
      keySet env = false
  end.
Proof.
  unfold getAnthropicClient, keySet.
  destruct (anthropic env) as [client|] eqn:Hcached.
  - simpl. rewrite Hcached. repeat split; try reflexivity; discriminate.
  - destruct (ANTHROPIC_API_KEY env) as [[|c k]|] eqn:Hkey; simpl;
      repeat split; try reflexivity; try assumption.
Qed.

Lemma getAnthropicClient_caches_error (env : Env) :
  match fst (getAnthropicClient env) with
  | inl _ => True
  | inr error => error = missingKey /\ snd (getAnthropicClient env) = env
  end.
Proof.
  unfold getAnthropicClient.
  destruct (anthropic env); [exact I|].
  destruct (ANTHROPIC_API_KEY env) as [[|c k]|]; simpl; auto.
Qed.

(** ** Runs of [deduplicateTasks] *)

Lemma deduplicateTasks_unavailable
    (parse : string -> option json) (oracle : Client -> Request -> Response)
    (env : Env) (batch : list Task) :
  batch <> [] -> clientAvailable env = false ->
  deduplicateTasks parse oracle env batch = mkRun (throw missingKey) env [].
Proof.
  intros Hne Hno. unfold deduplicateTasks.
  destruct (List.length batch =? 0) eqn:Hlen.
  { apply length_zero_nil in Hlen. contradiction. }
  pose proof (getAnthropicClient_state env) as [_ H].
  unfold clientAvailable in Hno.
  destruct (getAnthropicClient env) as [[client|e] env1]; [discriminate|].
  simpl in H. destruct H as (-> & -> & _). reflexivity.
Qed.

Lemma deduplicateTasks_throws_or_returns
    (parse : string -> option json) (oracle : Client -> Request -> Response)
    (env : Env) (batch : list Task) :
  if negb (List.length batch =? 0) && negb (clientAvailable env)
  then deduplicateTasks parse oracle env batch = mkRun (throw missingKey) env []
  else exists r, outcome (deduplicateTasks parse oracle env batch) = ret r.
Proof.
  destruct (List.length batch =? 0) eqn:Hlen; simpl.
  - apply length_zero_nil in Hlen. subst batch. eexists. reflexivity.
  - destruct (clientAvailable env) eqn:Hclient; simpl.
    + unfold deduplicateTasks. rewrite Hlen.
      destruct (clientAvailable_get env Hclient) as (client & env1 & ->).
      match goal with |- context [if ?c then _ else _] => destruct c end;
        eexists; reflexivity.
    + apply deduplicateTasks_unavailable; [|exact Hclient].
      intros ->. discriminate.
Qed.

(** X9. [deduplicateTasks] throws exactly when the batch is not empty and
    [getAnthropicClient] has no handle to return.  It then throws the
    missing-key error, before any call to the language model, and leaves
    the process state as it was.  In every other case it returns a
    result. *)
Theorem deduplicateTasks_throws_exactly
    (parse : string -> option json) (oracle : Client -> Request -> Response)
    (env : Env) (batch : list Task) :
  if negb (List.length batch =? 0) && negb (clientAvailable env)
  then deduplicateTasks parse oracle env batch = mkRun (throw missingKey) env []
  else exists r, outcome (deduplicateTasks parse oracle env batch) = ret r.
Proof.
  destruct (List.length batch =? 0) eqn:Hlen; simpl.
  - apply length_zero_nil in Hlen. subst batch. eexists. reflexivity.
  - destruct (clientAvailable env) eqn:Hclient; simpl.
    + unfold deduplicateTasks. rewrite Hlen.
      destruct (clientAvailable_get env Hclient) as (client & env1 & ->).
      match goal with |- context [if ?c then _ else _] => destruct c end;
        eexists; reflexivity.
    + apply deduplicateTasks_unavailable; [|exact Hclient].
      intros ->. discriminate.
Qed.

(** X10. One run of [deduplicateTasks] makes at most one call to the
    language model.  It makes the call exactly when the batch has a
    candidate pair and a handle is available; the request then lists
    every task of the batch with its position, together with all
    candidate pairs, and the response is that of the handle
    [getAnthropicClient] returned. *)
Theorem deduplicateTasks_single_call
    (parse : string -> option json) (oracle : Client -> Request -> Response)
    (env : Env) (batch : list Task) :
  match calls (deduplicateTasks parse oracle env batch) with
  | [] => hasCandidates (withIndex batch) && clientAvailable env = false
  | [(request, response)] =>
      hasCandidates (withIndex batch) && clientAvailable env = true /\
      request = DedupRequest (withIndex batch) (findPotentialDuplicates (withIndex batch)) /\
      exists client,
        fst (getAnthropicClient env) = ret client /\
        response = oracle client request
  | _ :: _ :: _ => False
  end.
Proof.
  unfold deduplicateTasks, hasCandidates, clientAvailable.
  destruct (List.length batch =? 0) eqn:Hlen.
  { apply length_zero_nil in Hlen. subst batch. reflexivity. }
  change (mapi (fun t i => {| task := t; index := i; source := None |}) batch)
    with (withIndex batch).
  destruct (getAnthropicClient env) as [[client|e] env1]; simpl.
  - destruct (findPotentialDuplicates (withIndex batch)) as [|p ps] eqn:Hpairs; simpl.
    + reflexivity.
    + split; [reflexivity|]. split; [reflexivity|]. exists client. split; reflexivity.
  - apply andb_false_r.
Qed.

Lemma deduplicateTasks_env_after
    (parse : string -> option json) (oracle : Client -> Request -> Response)
    (env : Env) (batch : list Task) :
  env_after (deduplicateTasks parse oracle env batch) =
  if List.length batch =? 0 then env else snd (getAnthropicClient env).
Proof.
  unfold deduplicateTasks. destruct (List.length batch =? 0); [reflexivity|].
  destruct (getAnthropicClient env) as [[client|e] env1]; [|reflexivity].
  match goal with |- context [if ?c then _ else _] => destruct c end; reflexivity.
Qed.

Lemma mergeSimilarTasks_returns_when_available
    (parse : string -> option json) (oracle : Client -> Request -> Response)
    (env : Env) (tasksByMeeting : list Meeting) :
  clientAvailable env = true ->
  exists result, outcome (mergeSimilarTasks parse oracle env tasksByMeeting) = ret result.
Proof.
  intro Hclient. unfold mergeSimilarTasks.
  destruct (List.length tasksByMeeting =? 0); [eexists; reflexivity|].
  destruct (List.length (flattenMeetings tasksByMeeting) <=? 1); [eexists; reflexivity|].
  match goal with |- context [if ?c then _ else _] => destruct c end;
    [eexists; reflexivity|].
  destruct (clientAvailable_get env Hclient) as (client & env1 & ->).
  eexists. reflexivity.
Qed.

(** X11. The handle outlives the run that built it.  After a run of
    [deduplicateTasks] on a batch that is not empty has returned, the
    handle is stored, the environment variable is as before, and from
    then on neither [deduplicateTasks] nor [mergeSimilarTasks] throws,
    on any input and even if the variable has been unset since. *)
Theorem handle_outlives_run
    (parse : string -> option json) (oracle oracle' : Client -> Request -> Response)
    (env : Env) (batch : list Task) (r : DeduplicationResult)
    (key : option string) (batch' : list Task) (tasksByMeeting : list Meeting) :
  batch <> [] ->
  outcome (deduplicateTasks parse oracle env batch) = ret r ->
  let env1 := env_after (deduplicateTasks parse oracle env batch) in
  let later := {| ANTHROPIC_API_KEY := key; anthropic := anthropic env1 |} in
  ANTHROPIC_API_KEY env1 = ANTHROPIC_API_KEY env /\
  anthropic env1 <> None /\
  (exists r', outcome (deduplicateTasks parse oracle' later batch') = ret r') /\
  (exists result,
      outcome (mergeSimilarTasks parse oracle' later tasksByMeeting) = ret result).
Proof.
  intros Hne Hrun env1 later.
  assert (Hclient : clientAvailable env = true).
  { pose proof (deduplicateTasks_throws_or_returns parse oracle env batch) as H.
    destruct (List.length batch =? 0) eqn:Hlen.
    { apply length_zero_nil in Hlen. contradiction. }
    destruct (clientAvailable env); [reflexivity|].
    simpl in H. rewrite H in Hrun. discriminate. }
  assert (Hlen : (List.length batch =? 0) = false).
  { destruct batch; [contradiction|reflexivity]. }
  pose proof (getAnthropicClient_state env) as [Hkey Hget].
  unfold clientAvailable in Hclient.
  subst env1 later. rewrite deduplicateTasks_env_after, Hlen.
  destruct (fst (getAnthropicClient env)) as [client|e]; [|discriminate].
  destruct Hget as (Hstored & _ & _).
  assert (Hlater : clientAvailable
                     {| ANTHROPIC_API_KEY := key;
                        anthropic := anthropic (snd (getAnthropicClient env)) |} = true).
  { rewrite clientAvailable_spec. simpl. rewrite Hstored. reflexivity. }
  split; [exact Hkey|]. split; [rewrite Hstored; discriminate|]. split.
  - pose proof (deduplicateTasks_throws_or_returns parse oracle'
                  {| ANTHROPIC_API_KEY := key;
                     anthropic := anthropic (snd (getAnthropicClient env)) |} batch') as H.
    rewrite Hlater, andb_false_r in H. exact H.
  - apply mergeSimilarTasks_returns_when_available. exact Hlater.
Qed.

Lemma handle_outlives_run_witness :
  let env1 := env_after (deduplicateTasks Json.parse failingOracle keyedEnv followUpBatch) in
  let later := {| ANTHROPIC_API_KEY := None; anthropic := anthropic env1 |} in
  ANTHROPIC_API_KEY env1 = ANTHROPIC_API_KEY keyedEnv /\
  anthropic env1 <> None /\
  (exists r', outcome (deduplicateTasks Json.parse (replyWith goodReply) later demoBatch)
              = ret r') /\
  (exists result,
      outcome (mergeSimilarTasks Json.parse (replyWith goodReply) later twoMeetings)
      = ret result).
Proof.
  apply (handle_outlives_run Json.parse failingOracle (replyWith goodReply) keyedEnv
           followUpBatch (allUnique followUpBatch)
           None demoBatch twoMeetings).
  - discriminate.
  - vm_compute. reflexivity.
Defined.

Lemma json_is_null (v : json) : v = JNull \/ v <> JNull.
Proof. destruct v; (left; reflexivity) || (right; discriminate). Qed.

Lemma mapM_toDuplicateMatch_null (elems : list json) :
  In JNull elems -> exists e, mapM toDuplicateMatch elems = throw e.
Proof.
  induction elems as [|x elems IH]; intro Hin; [contradiction|].
  cbn [mapM]. destruct (json_is_null x) as [->|Hx].
  - eexists. reflexivity.
  - rewrite (toDuplicateMatch_entryOf x Hx).
    destruct Hin as [Hin|Hin]; [congruence|].
    destruct (IH Hin) as [e He]. rewrite He. eexists. reflexivity.
Qed.

(** X12. A response whose [duplicates] list holds a [null] is treated
    like a failed call: [deduplicateTasks] returns the whole batch as
    [uniqueTasks], with no duplicates, whatever the other entries say. *)
Theorem null_entry_keeps_batch
    (parse : string -> option json) (oracle : Client -> Request -> Response)
    (env : Env) (batch : list Task) (request : Request) (response : Response)
    (elems : list json) :
  In (request, response) (calls (deduplicateTasks parse oracle env batch)) ->
  duplicatesPayload parse response = Some elems ->
  In JNull elems ->
  outcome (deduplicateTasks parse oracle env batch)
  = ret {| duplicates := []; uniqueTasks := batch; totalDuplicates := 0 |}.
Proof.
  unfold deduplicateTasks.
  destruct (List.length batch =? 0); [intros []|].
  destruct (getAnthropicClient env) as [[client|e] env1]; [|intros []].
  match goal with |- context [if ?c then _ else _] => destruct c end; [intros []|].
  simpl. intros [Heq|[]] Hpayload Hnull. injection Heq as _ Hresp. rewrite Hresp.
  f_equal. clear Hresp.
  unfold duplicatesPayload, payload in Hpayload.
  unfold dedupTry, firstBlock, parseJSON.
  destruct response as [[|[text|ty] content]|e]; try discriminate.
  simpl. destruct (match_braces text) as [m|]; [|discriminate].
  destruct (parse m) as [v|]; [|discriminate].
  destruct v as [|b|q|str|es|members]; try discriminate.
  simpl. destruct (lookup_prop "duplicates" members) as [[|b|q|str|es|ms]|];
    try discriminate.
  injection Hpayload as ->. simpl.
  destruct (mapM_toDuplicateMatch_null elems Hnull) as [e ->]. reflexivity.
Qed.

Lemma null_entry_keeps_batch_witness :
  outcome (deduplicateTasks Json.parse (replyWith nullEntryReply) keyedEnv followUpBatch)
  = ret {| duplicates := []; uniqueTasks := followUpBatch; totalDuplicates := 0 |}.
Proof.
  apply (null_entry_keeps_batch Json.parse (replyWith nullEntryReply) keyedEnv
           followUpBatch
           (DedupRequest (withIndex followUpBatch) [(0, 1)])
           (Resolved [TextBlock nullEntryReply])
           [ JObj [ ("taskIndex", JNum 1); ("duplicateOfIndex", JNum 0);
                    ("reason", JStr "same email") ]; JNull ]).
  - vm_compute. left. reflexivity.
  - vm_compute. reflexivity.
  - right. left. reflexivity.
Defined.

Lemma deduplicateTasks_shape
    (parse : string -> option json) (oracle : Client -> Request -> Response)
    (env : Env) (batch : list Task) (r : DeduplicationResult) :
  outcome (deduplicateTasks parse oracle env batch) = ret r ->
  totalDuplicates r = List.length (duplicates r) /\
  uniqueTasks r = keepFrom 0 batch (map taskIndex (duplicates r)).
Proof.
  unfold deduplicateTasks.
  destruct (List.length batch =? 0) eqn:Hlen.
  { apply length_zero_nil in Hlen. subst batch. simpl.
    intro H. apply ret_injective in H. subst r. split; reflexivity. }
  destruct (getAnthropicClient env) as [[client|e] env1]; [|discriminate].
  assert (Hall : totalDuplicates (allUnique batch)
                 = List.length (duplicates (allUnique batch)) /\
                 uniqueTasks (allUnique batch)
                 = keepFrom 0 batch (map taskIndex (duplicates (allUnique batch)))).
  { simpl. rewrite keepFrom_nothing_reported. split; reflexivity. }
  match goal with |- context [if ?c then _ else _] => destruct c end; simpl.
  { intro H. apply ret_injective in H. subst r. exact Hall. }
  intro H. apply ret_injective in H. subst r.
  destruct (dedupTry parse _ batch _) as [r|e] eqn:Htry; simpl; [|exact Hall].
  apply dedupTry_cases in Htry. destruct Htry as [->|(dups & ->)]; [exact Hall|].
  simpl. split; [reflexivity|].
  apply filter_indexed_keepFrom. apply withIndex_indexed.
Qed.

Lemma filter_orb_length {A : Type} (f g : A -> bool) (l : list A) :
  List.length (filter (fun x => f x || g x) l)
  <= List.length (filter f l) + List.length (filter g l).
Proof.
  induction l as [|a l IH]; simpl; [lia|].
  destruct (f a), (g a); simpl; lia.
Qed.

Lemma at_most_one_element {A : Type} (l : list A) :
  NoDup l -> (forall x y, In x l -> In y l -> x = y) -> List.length l <= 1.
Proof.
  intros Hnd Hall. destruct l as [|a [|b l]]; simpl; try lia.
  exfalso. inversion Hnd as [|? ? Hnotin _]; subst. apply Hnotin.
  rewrite (Hall a b); [left; reflexivity|left; reflexivity|right; left; reflexivity].
Qed.

Lemma reported_positions_length (reported : list jsval) (n : nat) :
  List.length (filter (fun i => set_has reported i) (seq 0 n)) <= List.length reported.
Proof.
  induction reported as [|v reported IH]; simpl.
  - induction (seq 0 n) as [|x l IHl]; simpl; [lia|exact IHl].
  - pose proof (filter_orb_length (fun i => same_index v i)
                                  (fun i => set_has reported i) (seq 0 n)) as Hor.
    assert (Hone : List.length (filter (fun i => same_index v i) (seq 0 n)) <= 1).
    { apply at_most_one_element.
      - apply NoDup_filter, seq_NoDup.
      - intros x y Hx Hy. apply filter_In in Hx, Hy.
        exact (same_index_functional v x y (proj2 Hx) (proj2 Hy)). }
    unfold set_has in *. simpl. lia.
Qed.

(** X13. [deduplicateTasks] never removes more tasks than it reports:
    the returned [uniqueTasks] and [totalDuplicates] together account for
    at least the whole batch, and [uniqueTasks] is never longer than the
    batch. *)
Theorem deduplicateTasks_accounts_for_batch
    (parse : string -> option json) (oracle : Client -> Request -> Response)
    (env : Env) (batch : list Task) (r : DeduplicationResult) :
  outcome (deduplicateTasks parse oracle env batch) = ret r ->
  List.length batch <= List.length (uniqueTasks r) + totalDuplicates r /\
  List.length (uniqueTasks r) <= List.length batch.
Proof.
  intro Hrun. destruct (deduplicateTasks_shape parse oracle env batch r Hrun)
    as [-> ->].
  rewrite keepFrom_length.
  pose proof (filter_length (fun i => set_has (map taskIndex (duplicates r)) i)
                            (seq 0 (List.length batch))) as Hsplit.
  rewrite length_seq in Hsplit.
  pose proof (reported_positions_length (map taskIndex (duplicates r))
                                        (List.length batch)) as Hrep.
  rewrite length_map in Hrep. lia.
Qed.

Lemma deduplicateTasks_accounts_for_batch_witness :
  let r := {| duplicates :=
                [ {| taskIndex := Some (JNum 0); duplicateOfIndex := Some (JNum 1);
                     reason := Some (JStr "same email") |};
                  {| taskIndex := Some (JNum 1); duplicateOfIndex := Some (JNum 0);
                     reason := Some (JStr "Identified as duplicate") |} ];
              uniqueTasks := [];
              totalDuplicates := 2 |} in
  List.length followUpBatch <= List.length (uniqueTasks r) + totalDuplicates r /\
  List.length (uniqueTasks r) <= List.length followUpBatch.
Proof.
  intro r.
  apply (deduplicateTasks_accounts_for_batch Json.parse (replyWith swappedReply) keyedEnv
           followUpBatch r).
  vm_compute. reflexivity.
Defined.

(** ** More on the cache matcher *)

Lemma flat_map_length_le {A B : Type} (f : A -> list B) (l : list A) (c : nat) :
  (forall x, In x l -> List.length (f x) <= c) ->
  List.length (flat_map f l) <= List.length l * c.
Proof.
  induction l as [|a l IH]; intro H; simpl; [lia|].
  rewrite length_app.
  pose proof (H a (or_introl eq_refl)).
  assert (List.length (flat_map f l) <= List.length l * c)
    by (apply IH; intros x Hx; apply H; right; exact Hx).
  lia.
Qed.

Lemma StronglySorted_all_related {A : Type} (R : A -> A -> Prop) (l : list A) :
  (forall x y, In x l -> In y l -> R x y) -> StronglySorted R l.
Proof.
  induction l as [|a l IH]; intro H; constructor.
  - apply IH. intros x y Hx Hy. apply H; right; assumption.
  - apply Forall_forall. intros y Hy. apply H; [left; reflexivity|right; exact Hy].
Qed.

Lemma in_matchIf (i : nat) (t : Task) (e : ClickUpEntry) (m : CacheMatch) :
  In m (matchIf i t e) -> extractedTaskIndex m = i.
Proof.
  unfold matchIf. destruct (js_gt _ _); [|contradiction].
  intros [<-|[]]. reflexivity.
Qed.

(** X14. [checkAgainstClickUp] reports at most one match for each pair of
    a task and a cache entry, so at most (batch size) x (cache size)
    matches, none for an empty batch or an empty cache; every match
    points inside the batch; and the matches come in the order of the
    batch. *)
Theorem checkAgainstClickUp_size_and_order
    (batch : list Task) (cache : list ClickUpEntry) :
  List.length (checkAgainstClickUp batch cache) <= List.length batch * List.length cache /\
  Forall (fun m => extractedTaskIndex m < List.length batch)
         (checkAgainstClickUp batch cache) /\
  StronglySorted (fun m m' => extractedTaskIndex m <= extractedTaskIndex m')
                 (checkAgainstClickUp batch cache).
Proof.
  rewrite checkAgainstClickUp_collect. split; [|split].
  - match goal with |- List.length (flat_map ?f ?l) <= _ =>
      pose proof (flat_map_length_le f l (List.length cache)) as Hle
    end.
    rewrite length_seq in Hle. apply Hle. intros i _.
    destruct (nth_error batch i) as [t|]; simpl; [|lia].
    apply flat_map_at_most_one. intro e. unfold matchIf.
    destruct (js_gt _ _); simpl; lia.
  - apply Forall_forall. intros m Hm. apply in_flat_map in Hm.
    destruct Hm as (i & Hi & Hm). apply in_seq in Hi.
    destruct (nth_error batch i) as [t|]; [|contradiction].
    apply in_flat_map in Hm. destruct Hm as (e & _ & Hm).
    rewrite (in_matchIf i t e m Hm). lia.
  - apply (StronglySorted_flat_map lt).
    + apply StronglySorted_seq_lt.
    + intros i _. apply StronglySorted_all_related. intros m m' Hm Hm'.
      destruct (nth_error batch i) as [t|]; [|contradiction].
      apply in_flat_map in Hm, Hm'.
      destruct Hm as (e & _ & Hm), Hm' as (e' & _ & Hm').
      rewrite (in_matchIf i t e m Hm), (in_matchIf i t e' m' Hm'). lia.
    + intros i i' m m' Hlt Hm Hm'.
      destruct (nth_error batch i) as [t|]; [|contradiction].
      destruct (nth_error batch i') as [t'|]; [|contradiction].
      apply in_flat_map in Hm, Hm'.
      destruct Hm as (e & _ & Hm), Hm' as (e' & _ & Hm').
      rewrite (in_matchIf i t e m Hm), (in_matchIf i' t' e' m' Hm'). lia.
Qed.

(** X15. A task whose title equals the title of a cache entry up to
    letter case and surrounding white space is always reported as a match
    of that entry, with similarity 1. *)
Theorem checkAgainstClickUp_exact_titles
    (batch : list Task) (cache : list ClickUpEntry)
    (i : nat) (t : Task) (e : ClickUpEntry) :
  nth_error batch i = Some t ->
  In e cache ->
  normalize (title t) = normalize (entry_title e) ->
  In {| extractedTaskIndex := i; clickupTaskId := entry_id e; similarity := Num 1 |}
     (checkAgainstClickUp batch cache).
Proof.
  intros Ht He Hsame. rewrite checkAgainstClickUp_collect.
  apply in_flat_map. exists i. split.
  - apply in_seq. assert (i < List.length batch) by (apply nth_error_Some; congruence). lia.
  - rewrite Ht. apply in_flat_map. exists e. split; [exact He|].
    unfold matchIf. rewrite (calculateSimilarity_same _ _ Hsame). left. reflexivity.
Qed.

Lemma checkAgainstClickUp_exact_titles_witness :
  In {| extractedTaskIndex := 0; clickupTaskId := "86abd"; similarity := Num 1 |}
     (checkAgainstClickUp [ sampleTask "  RENEW the Domain " ] onboardingCache).
Proof.
  apply (checkAgainstClickUp_exact_titles [ sampleTask "  RENEW the Domain " ]
           onboardingCache 0 (sampleTask "  RENEW the Domain ")
           {| entry_title := "Renew the domain"; entry_id := "86abd" |}).
  - reflexivity.
  - right. left. reflexivity.
  - vm_compute. reflexivity.
Defined.

(** ** Runs of [mergeSimilarTasks] *)

Lemma no_candidates_below_two (metas : list TaskWithMetadata) :
  List.length metas <= 1 -> findPotentialDuplicates metas = [].
Proof.
  intro Hlen. destruct (findPotentialDuplicates metas) as [|[i j] ps] eqn:E;
    [reflexivity|].
  assert (Hin : In (i, j) (findPotentialDuplicates metas)) by (rewrite E; left; reflexivity).
  apply in_findPotentialDuplicates in Hin.
  destruct Hin as (Hlt & ti & tj & _ & Hj & _).
  assert (j < List.length metas) by (apply nth_error_Some; congruence). lia.
Qed.

Lemma hasCandidates_false (metas : list TaskWithMetadata) :
  hasCandidates metas = false <-> findPotentialDuplicates metas = [].
Proof.
  unfold hasCandidates. destruct (findPotentialDuplicates metas); split; congruence.
Qed.

Lemma length_nonzero_pairs (metas : list TaskWithMetadata) :
  (List.length (findPotentialDuplicates metas) =? 0) = negb (hasCandidates metas).
Proof. unfold hasCandidates. destruct (findPotentialDuplicates metas); reflexivity. Qed.

Lemma no_candidate_pairs_merge
    (parse : string -> option json) (oracle : Client -> Request -> Response)
    (env : Env) (tasksByMeeting : list Meeting) :
  findPotentialDuplicates (flattenMeetings tasksByMeeting) = [] ->
  calls (mergeSimilarTasks parse oracle env tasksByMeeting) = [] /\
  outcome (mergeSimilarTasks parse oracle env tasksByMeeting)
  = ret (map Kept (allTasks tasksByMeeting)).
Proof.
  intro Hpairs. unfold mergeSimilarTasks.
  destruct (List.length tasksByMeeting =? 0) eqn:Hlen.
  { apply length_zero_nil in Hlen. subst tasksByMeeting. split; reflexivity. }
  rewrite Hpairs, <- keepAll_flatten.
  destruct (List.length (flattenMeetings tasksByMeeting) <=? 1); split; reflexivity.
Qed.

(** X28. With no candidate pair neither stage calls the language model,
    in any process state.  [deduplicateTasks] then returns the batch
    unchanged, with no duplicates and [totalDuplicates] 0, when the
    batch is empty or [getAnthropicClient] has a handle to return, and
    throws the missing-key error otherwise.  [mergeSimilarTasks] returns
    the flattened list unchanged and leaves the process state as it was,
    whether or not a handle is available. *)
Theorem no_candidate_pairs_contract
    (parse : string -> option json) (oracle : Client -> Request -> Response) (env : Env) :
  (forall batch : list Task,
      findPotentialDuplicates (withIndex batch) = [] ->
      calls (deduplicateTasks parse oracle env batch) = [] /\
      outcome (deduplicateTasks parse oracle env batch)
      = if (List.length batch =? 0) || clientAvailable env
        then ret {| duplicates := []; uniqueTasks := batch; totalDuplicates := 0 |}
        else throw missingKey) /\
  (forall tasksByMeeting : list Meeting,
      findPotentialDuplicates (flattenMeetings tasksByMeeting) = [] ->
      mergeSimilarTasks parse oracle env tasksByMeeting
      = mkRun (ret (map Kept (allTasks tasksByMeeting))) env []).
Proof.
  split.
  - intros batch Hpairs.
    destruct (List.length batch =? 0) eqn:Hlen.
    { apply length_zero_nil in Hlen. subst batch. split; reflexivity. }
    assert (Hne : batch <> []) by (intros ->; discriminate Hlen).
    destruct (clientAvailable env) eqn:Hclient; cbn [orb].
    + unfold deduplicateTasks. rewrite Hlen.
      destruct (clientAvailable_get env Hclient) as (client & env1 & ->).
      change (mapi (fun t i => {| task := t; index := i; source := None |}) batch)
        with (withIndex batch).
      rewrite Hpairs. split; reflexivity.
    + rewrite (deduplicateTasks_unavailable parse oracle env batch Hne Hclient).
      split; reflexivity.
  - intros ms Hpairs. unfold mergeSimilarTasks.
    destruct (List.length ms =? 0) eqn:Hlen.
    { apply length_zero_nil in Hlen. subst ms. reflexivity. }
    rewrite Hpairs, <- keepAll_flatten.
    destruct (List.length (flattenMeetings ms) <=? 1); reflexivity.
Qed.

Lemma no_candidate_pairs_contract_witness :
  (calls (deduplicateTasks Json.parse failingOracle noKeyEnv distinctBatch) = [] /\
   outcome (deduplicateTasks Json.parse failingOracle noKeyEnv distinctBatch)
   = if (List.length distinctBatch =? 0) || clientAvailable noKeyEnv
     then ret {| duplicates := []; uniqueTasks := distinctBatch; totalDuplicates := 0 |}
     else throw missingKey) /\
  mergeSimilarTasks Json.parse failingOracle noKeyEnv distinctMeetings
  = mkRun (ret (map Kept (allTasks distinctMeetings))) noKeyEnv [].
Proof.
  split.
  - apply (proj1 (no_candidate_pairs_contract Json.parse failingOracle noKeyEnv)
             distinctBatch).
    vm_compute. reflexivity.
  - apply (proj2 (no_candidate_pairs_contract Json.parse failingOracle noKeyEnv)
             distinctMeetings).
    vm_compute. reflexivity.
Defined.

(** X16. [mergeSimilarTasks] throws exactly when the flattened list has
    a candidate pair and [getAnthropicClient] has no handle to return.
    It then throws the missing-key error, before any call to the language
    model, and leaves the process state as it was.  In every other case
    it returns a list of tasks. *)
Theorem mergeSimilarTasks_throws_exactly
    (parse : string -> option json) (oracle : Client -> Request -> Response)
    (env : Env) (tasksByMeeting : list Meeting) :
  if hasCandidates (flattenMeetings tasksByMeeting) && negb (clientAvailable env)
  then mergeSimilarTasks parse oracle env tasksByMeeting = mkRun (throw missingKey) env []
  else exists result,
         outcome (mergeSimilarTasks parse oracle env tasksByMeeting) = ret result.
Proof.
  destruct (hasCandidates (flattenMeetings tasksByMeeting)) eqn:Hcand; simpl.
  2:{ apply hasCandidates_false in Hcand.
      destruct (no_candidate_pairs_merge parse oracle env tasksByMeeting Hcand) as [_ H].
      eexists. exact H. }
  destruct (clientAvailable env) eqn:Hclient; simpl.
  { apply mergeSimilarTasks_returns_when_available. exact Hclient. }
  unfold mergeSimilarTasks.
  destruct (List.length tasksByMeeting =? 0) eqn:Hlen.
  { apply length_zero_nil in Hlen. subst tasksByMeeting. discriminate Hcand. }
  destruct (Nat.leb_spec (List.length (flattenMeetings tasksByMeeting)) 1) as [Hle|_].
  { apply no_candidates_below_two in Hle. apply hasCandidates_false in Hle. congruence. }
  rewrite length_nonzero_pairs, Hcand. simpl.
  pose proof (getAnthropicClient_state env) as [_ H].
  unfold clientAvailable in Hclient.
  destruct (getAnthropicClient env) as [[client|e] env1]; [discriminate|].
  simpl in H. destruct H as (-> & -> & _). reflexivity.
Qed.

(** X17. When the response to [mergeSimilarTasks] yields no merge group
    (the call failed, the first block is not text, no JSON is found or
    parses, or [merges] is absent, empty or not a list), the function
    returns the flattened list of all tasks unchanged. *)
Theorem merge_without_groups_keeps_all
    (parse : string -> option json) (oracle : Client -> Request -> Response)
    (env : Env) (tasksByMeeting : list Meeting) (request : Request) (response : Response) :
  In (request, response) (calls (mergeSimilarTasks parse oracle env tasksByMeeting)) ->
  mergeGroups parse response = [] ->
  outcome (mergeSimilarTasks parse oracle env tasksByMeeting)
  = ret (map Kept (allTasks tasksByMeeting)).
Proof.
  rewrite <- keepAll_flatten. unfold mergeSimilarTasks.
  destruct (List.length tasksByMeeting =? 0); [intros []|].
  destruct (List.length (flattenMeetings tasksByMeeting) <=? 1); [intros []|].
  match goal with |- context [if ?c then _ else _] => destruct c end; [intros []|].
  destruct (getAnthropicClient env) as [[client|e] env1]; [|intros []].
  simpl. intros [Heq|[]] Hnone. injection Heq as _ Hresp. rewrite Hresp.
  f_equal.
  destruct (mergeTry parse response _) as [res|e] eqn:Htry; simpl; [|reflexivity].
  apply mergeTry_cases in Htry.
  destruct Htry as [->|(synthesized & merged & Hfold & ->)]; [reflexivity|].
  rewrite Hnone in Hfold. simpl in Hfold. apply ret_injective in Hfold.
  injection Hfold as <- <-. simpl. f_equal. clear.
  induction (flattenMeetings tasksByMeeting) as [|m l IH]; simpl; [reflexivity|].
  rewrite IH. reflexivity.
Qed.

Lemma merge_without_groups_keeps_all_witness :
  outcome (mergeSimilarTasks Json.parse (replyWith proseReply) keyedEnv twoMeetings)
  = ret (map Kept (allTasks twoMeetings)).
Proof.
  apply (merge_without_groups_keeps_all Json.parse (replyWith proseReply) keyedEnv
           twoMeetings (MergeRequest (flattenMeetings twoMeetings))
           (Resolved [TextBlock proseReply])).
  - vm_compute. left. reflexivity.
  - vm_compute. reflexivity.
Defined.

(** X18. One run of [mergeSimilarTasks] makes at most one call to the
    language model, exactly when the flattened list has a candidate pair
    and a handle is available; the request lists every task of every
    meeting. *)
Theorem mergeSimilarTasks_single_call
    (parse : string -> option json) (oracle : Client -> Request -> Response)
    (env : Env) (tasksByMeeting : list Meeting) :
  match calls (mergeSimilarTasks parse oracle env tasksByMeeting) with
  | [] => hasCandidates (flattenMeetings tasksByMeeting) && clientAvailable env = false
  | [(request, response)] =>
      hasCandidates (flattenMeetings tasksByMeeting) && clientAvailable env = true /\
      request = MergeRequest (flattenMeetings tasksByMeeting) /\
      map stripMeta (flattenMeetings tasksByMeeting) = allTasks tasksByMeeting /\
      exists client,
        fst (getAnthropicClient env) = ret client /\
        response = oracle client request
  | _ :: _ :: _ => False
  end.
Proof.
  unfold mergeSimilarTasks.
  destruct (List.length tasksByMeeting =? 0) eqn:Hlen.
  { apply length_zero_nil in Hlen. subst tasksByMeeting. reflexivity. }
  destruct (Nat.leb_spec (List.length (flattenMeetings tasksByMeeting)) 1) as [Hle|_].
  { apply no_candidates_below_two in Hle. apply hasCandidates_false in Hle.
    simpl. rewrite Hle. reflexivity. }
  rewrite length_nonzero_pairs.
  destruct (hasCandidates (flattenMeetings tasksByMeeting)); simpl; [|reflexivity].
  unfold clientAvailable.
  destruct (getAnthropicClient env) as [[client|e] env1]; simpl; [|reflexivity].
  split; [reflexivity|]. split; [reflexivity|]. split.
  - apply (indexedFrom_strip 0). apply flattenMeetings_indexed.
  - exists client. split; reflexivity.
Qed.

Lemma flatten_fold_labelled (ms : list Meeting) (acc : list TaskWithMetadata) (k : nat) :
  fold_left
    (fun st meeting =>
       fold_left
         (fun st t =>
            let '(allTasksWithSource, index) := st in
            (allTasksWithSource ++
               [ {| task := t; index := index; source := Some (meetingTitle meeting) |} ],
             S index))
         (tasks meeting) st)
    ms (acc, k)
  = (acc ++ labelled k ms, k + List.length (allTasks ms)).
Proof.
  revert acc k. induction ms as [|m ms IH]; intros acc k.
  - simpl. rewrite app_nil_r, Nat.add_0_r. reflexivity.
  - cbn [fold_left]. rewrite flatten_tasks_of_meeting, IH.
    unfold allTasks. simpl. rewrite <- app_assoc, length_app, Nat.add_assoc.
    reflexivity.
Qed.

Lemma map_source_mapi (title : string) (k : nat) (ts : list Task) :
  map source (mapi_from (fun t i => {| task := t; index := i; source := Some title |}) k ts)
  = repeat (Some title) (List.length ts).
Proof.
  revert k. induction ts as [|t ts IH]; intro k; simpl; [reflexivity|].
  rewrite IH. reflexivity.
Qed.

Lemma map_source_labelled (k : nat) (ms : list Meeting) :
  map source (labelled k ms)
  = flat_map (fun m => repeat (Some (meetingTitle m)) (List.length (tasks m))) ms.
Proof.
  revert k. induction ms as [|m ms IH]; intro k; simpl; [reflexivity|].
  rewrite map_app, map_source_mapi, IH. reflexivity.
Qed.

(** X19. The two loops that flatten the meetings keep the tasks in the
    order of the meetings, number them 0, 1, 2, ... across meetings, and
    label each with the title of its meeting. *)
Theorem flattenMeetings_numbered (tasksByMeeting : list Meeting) :
  flattenMeetings tasksByMeeting = labelled 0 tasksByMeeting /\
  map task (flattenMeetings tasksByMeeting) = allTasks tasksByMeeting /\
  map index (flattenMeetings tasksByMeeting)
  = seq 0 (List.length (allTasks tasksByMeeting)) /\
  map source (flattenMeetings tasksByMeeting)
  = flat_map (fun m => repeat (Some (meetingTitle m)) (List.length (tasks m)))
             tasksByMeeting.
Proof.
  assert (Heq : flattenMeetings tasksByMeeting = labelled 0 tasksByMeeting).
  { unfold flattenMeetings. rewrite flatten_fold_labelled. reflexivity. }
  destruct (flattenMeetings_indexed tasksByMeeting) as [Htask Hindex].
  split; [exact Heq|]. split; [exact Htask|]. split; [exact Hindex|].
  rewrite Heq. apply map_source_labelled.
Qed.

Lemma foldM_mergeStep_synthesized (groups : list json) :
  forall (synth0 : list json) (merged0 : list jsval)
         (st' : list MergedTask * list jsval),
    foldM mergeStep groups (map Synthesized synth0, merged0) = ret st' ->
    exists synth',
      fst st' = map Synthesized (synth0 ++ synth') /\
      Forall (fun v => truthy (Some v) = true /\
                       exists merge, In merge groups /\ field "mergedTask" merge = Some v)
             synth'.
Proof.
  induction groups as [|g groups IH]; intros synth0 merged0 st' Hfold.
  - simpl in Hfold. apply ret_injective in Hfold. subst st'.
    exists []. rewrite app_nil_r. split; [reflexivity|constructor].
  - cbn [foldM] in Hfold. unfold bind in Hfold.
    destruct (mergeStep (map Synthesized synth0, merged0) g) as [[res1 merged1]|e] eqn:Hstep;
      [|discriminate].
    apply mergeStep_cases in Hstep.
    destruct Hstep as [[-> ->]|(v & Hv & Htruthy & -> & ->)].
    + destruct (IH synth0 merged0 st' Hfold) as (synth' & Hfst & Hall).
      exists synth'. split; [exact Hfst|].
      eapply Forall_impl; [|exact Hall].
      intros w (Hw & merge & Hin & Hfield). split; [exact Hw|].
      exists merge. split; [right; exact Hin|exact Hfield].
    + replace (map Synthesized synth0 ++ [Synthesized v])
        with (map Synthesized (synth0 ++ [v])) in Hfold
        by (rewrite map_app; reflexivity).
      destruct (IH (synth0 ++ [v]) _ st' Hfold) as (synth' & Hfst & Hall).
      exists (v :: synth'). split.
      * rewrite Hfst, <- app_assoc. reflexivity.
      * constructor.
        -- split; [exact Htruthy|]. exists g. split; [left; reflexivity|exact Hv].
        -- eapply Forall_impl; [|exact Hall].
           intros w (Hw & merge & Hin & Hfield). split; [exact Hw|].
           exists merge. split; [right; exact Hin|exact Hfield].
Qed.

(** X20. The list [mergeSimilarTasks] returns has the synthesized tasks
    first and the kept tasks after them.  Each synthesized task is the
    present [mergedTask] of a merge group of the model's answer; the kept
    tasks are tasks of the input, in the order of the input. *)
Theorem mergeSimilarTasks_result_shape
    (parse : string -> option json) (oracle : Client -> Request -> Response)
    (env : Env) (tasksByMeeting : list Meeting) (result : list MergedTask) :
  outcome (mergeSimilarTasks parse oracle env tasksByMeeting) = ret result ->
  exists (synthesized : list json) (merged : list jsval),
    result = map Synthesized synthesized
             ++ map Kept (keepFrom 0 (allTasks tasksByMeeting) merged) /\
    Forall (fun v =>
              truthy (Some v) = true /\
              exists request response merge,
                In (request, response)
                   (calls (mergeSimilarTasks parse oracle env tasksByMeeting)) /\
                In merge (mergeGroups parse response) /\
                field "mergedTask" merge = Some v)
           synthesized.
Proof.
  assert (Hall : exists (synthesized : list json) (merged : list jsval),
             keepAll (flattenMeetings tasksByMeeting)
             = map Synthesized synthesized
               ++ map Kept (keepFrom 0 (allTasks tasksByMeeting) merged) /\
             synthesized = []).
  { exists [], []. rewrite keepFrom_nothing_reported, keepAll_flatten.
    split; reflexivity. }
  unfold mergeSimilarTasks.
  destruct (List.length tasksByMeeting =? 0) eqn:Hlen.
  { apply length_zero_nil in Hlen. subst tasksByMeeting. simpl.
    intro H. apply ret_injective in H. subst result.
    exists [], []. split; [reflexivity|constructor]. }
  destruct (List.length (flattenMeetings tasksByMeeting) <=? 1).
  { simpl. intro H. apply ret_injective in H. subst result.
    destruct Hall as (sy & mg & Heq & ->). exists [], mg. split; [exact Heq|constructor]. }
  match goal with |- context [if ?c then _ else _] => destruct c end.
  { simpl. intro H. apply ret_injective in H. subst result.
    destruct Hall as (sy & mg & Heq & ->). exists [], mg. split; [exact Heq|constructor]. }
  destruct (getAnthropicClient env) as [[client|e] env1]; [|discriminate].
  simpl. intro H. apply ret_injective in H. subst result.
  destruct (mergeTry parse _ _) as [res|e] eqn:Htry; simpl.
  2:{ destruct Hall as (sy & mg & Heq & ->). exists [], mg. split; [exact Heq|constructor]. }
  apply mergeTry_cases in Htry.
  destruct Htry as [->|(synthesized & merged & Hfold & ->)].
  { destruct Hall as (sy & mg & Heq & ->). exists [], mg. split; [exact Heq|constructor]. }
  destruct (foldM_mergeStep_synthesized _ [] [] _ Hfold) as (synth' & Hfst & Hsynth).
  simpl in Hfst. subst synthesized.
  exists synth', merged. split.
  - rewrite keepAll_filter_keepFrom. reflexivity.
  - eapply Forall_impl; [|exact Hsynth].
    intros v (Hv & merge & Hin & Hfield). split; [exact Hv|].
    exists (MergeRequest (flattenMeetings tasksByMeeting)),
           (oracle client (MergeRequest (flattenMeetings tasksByMeeting))), merge.
    split; [left; reflexivity|]. split; assumption.
Qed.

Lemma mergeSimilarTasks_result_shape_witness :
  exists (synthesized : list json) (merged : list jsval),
    mergedSample = map Synthesized synthesized
                   ++ map Kept (keepFrom 0 (allTasks twoMeetings) merged) /\
    Forall (fun v =>
              truthy (Some v) = true /\
              exists request response merge,
                In (request, response)
                   (calls (mergeSimilarTasks Json.parse (replyWith mergeReply)
                             keyedEnv twoMeetings)) /\
                In merge (mergeGroups Json.parse response) /\
                field "mergedTask" merge = Some v)
           synthesized.
Proof.
  apply (mergeSimilarTasks_result_shape Json.parse (replyWith mergeReply) keyedEnv
           twoMeetings mergedSample).
  vm_compute. reflexivity.
Defined.

(** ** The braces of the response *)

Lemma from_open_brace_skip (pre rest : string) :
  has_char "{" pre = false ->
  from_open_brace (pre ++ String "{" rest) = Some (String "{" rest).
Proof.
  induction pre as [|c pre IH]; intro H; simpl; [reflexivity|].
  simpl in H. apply orb_false_iff in H. destruct H as [Hc Hpre].
  rewrite Hc. apply IH. exact Hpre.
Qed.

Lemma upto_close_brace_none (post : string) :
  has_char "}" post = false -> upto_close_brace post = None.
Proof.
  induction post as [|c post IH]; intro H; simpl; [reflexivity|].
  simpl in H. apply orb_false_iff in H. destruct H as [Hc Hpost].
  rewrite (IH Hpost), Hc. reflexivity.
Qed.

Lemma upto_close_brace_last (body post : string) :
  has_char "}" post = false ->
  upto_close_brace (body ++ String "}" post) = Some (body ++ closeBrace)%string.
Proof.
  intro H. induction body as [|c body IH]; simpl.
  - rewrite (upto_close_brace_none post H). reflexivity.
  - rewrite IH. reflexivity.
Qed.

Lemma from_open_brace_inv (text s : string) :
  from_open_brace text = Some s ->
  exists pre rest,
    text = (pre ++ String "{" rest)%string /\ s = String "{" rest /\ has_char "{" pre = false.
Proof.
  induction text as [|c text IH]; simpl; [discriminate|].
  destruct (Ascii.eqb_spec c "{") as [->|Hne].
  - intro H. injection H as <-. exists EmptyString, text. repeat split.
  - intro H. destruct (IH H) as (pre & rest & -> & -> & Hpre).
    exists (String c pre), rest. repeat split. simpl.
    rewrite Hpre, orb_false_r. apply Ascii.eqb_neq. exact Hne.
Qed.

Lemma upto_close_brace_inv (s m : string) :
  upto_close_brace s = Some m ->
  exists body post,
    s = (body ++ String "}" post)%string /\ m = (body ++ closeBrace)%string /\ has_char "}" post = false.
Proof.
  revert m. induction s as [|c s IH]; intro m; simpl; [discriminate|].
  destruct (upto_close_brace s) as [m'|] eqn:E.
  - intro H. injection H as <-.
    destruct (IH m' eq_refl) as (body & post & -> & -> & Hpost).
    exists (String c body), post. repeat split. exact Hpost.
  - destruct (Ascii.eqb_spec c "}") as [->|Hne]; [|discriminate].
    intro H. injection H as <-. exists EmptyString, s. repeat split.
    clear IH. induction s as [|c s IHs]; [reflexivity|].
    simpl in E. destruct (upto_close_brace s); [discriminate|].
    destruct (Ascii.eqb c "}") eqn:Ec; [discriminate|].
    simpl. rewrite Ec. apply IHs. reflexivity.
Qed.

(** X21. The regular expression of the response picks the text from the
    first opening brace to the last closing brace: the match is [m]
    exactly when the text is some prose without an opening brace, then
    [m], which starts with an opening and ends with a closing brace, then
    some prose without a closing brace.  Text around the JSON object is
    thus ignored. *)
Theorem match_braces_outermost (text m : string) :
  match_braces text = Some m <->
  exists pre body post,
    text = (pre ++ openBrace ++ body ++ closeBrace ++ post)%string /\
    m = (openBrace ++ body ++ closeBrace)%string /\
    has_char "{" pre = false /\
    has_char "}" post = false.
Proof.
  unfold match_braces, openBrace. split.
  - destruct (from_open_brace text) as [s|] eqn:Hopen; [|discriminate].
    destruct (from_open_brace_inv text s Hopen) as (pre & rest & -> & -> & Hpre).
    destruct (upto_close_brace rest) as [m'|] eqn:Hclose; [|discriminate].
    simpl. intro H. injection H as <-.
    destruct (upto_close_brace_inv rest m' Hclose) as (body & post & -> & -> & Hpost).
    exists pre, body, post. repeat split; assumption.
  - intros (pre & body & post & -> & -> & Hpre & Hpost).
    simpl. rewrite (from_open_brace_skip pre _ Hpre).
    unfold closeBrace. simpl.
    rewrite (upto_close_brace_last body post Hpost). reflexivity.
Qed.

(** ** Priorities across the services *)

(** X22. The two routes from a task's priority to a ClickUp priority
    agree: mapping it for Planner and then from Planner to ClickUp gives
    what the REST service assigns directly.  The Teams service displays a
    Planner priority under the name of the task priority it came from.
    The ClickUp priorities of different task priorities differ. *)
Theorem priority_routes_agree (p p' : Priority) :
  ClickUpMcp.mapPriority (Num (Planner.mapPriority p)) = ClickUpRest.mapPriority p /\
  Teams.getPriorityText (Num (Planner.mapPriority p)) = priorityName p /\
  (ClickUpRest.mapPriority p = ClickUpRest.mapPriority p' <-> p = p').
Proof.
  split; [destruct p; reflexivity|]. split; [destruct p; reflexivity|].
  split; [|intros ->; reflexivity].
  destruct p, p'; intro H; try reflexivity; discriminate H.
Qed.

(** X23. The ClickUp priority [mapPriority] derives from a Planner
    priority is always one of 1, 2, 3, 4, also for a number that is no
    Planner priority or is [NaN], and a greater Planner priority never
    gets a smaller ClickUp priority. *)
Theorem clickup_priority_range_and_order (x y : Q) (n : number) :
  (ClickUpMcp.mapPriority n = 1%Q \/ ClickUpMcp.mapPriority n = 2%Q \/
   ClickUpMcp.mapPriority n = 3%Q \/ ClickUpMcp.mapPriority n = 4%Q) /\
  ClickUpMcp.mapPriority NaN = 4%Q /\
  ((x <= y)%Q -> (ClickUpMcp.mapPriority (Num x) <= ClickUpMcp.mapPriority (Num y))%Q).
Proof.
  split; [|split; [reflexivity|]].
  - unfold ClickUpMcp.mapPriority.
    destruct (js_le n 1); [auto|]. destruct (js_le n 3); [auto|].
    destruct (js_le n 5); auto.
  - intro Hxy. unfold ClickUpMcp.mapPriority.
    assert (Hmono : forall c, js_le (Num y) c = true -> js_le (Num x) c = true).
    { intros c H. simpl in *. apply Qle_bool_iff. apply Qle_bool_iff in H.
      eapply Qle_trans; eassumption. }
    destruct (js_le (Num y) 1) eqn:Y1.
    { rewrite (Hmono _ Y1). apply Qle_refl. }
    destruct (js_le (Num y) 3) eqn:Y3.
    { destruct (js_le (Num x) 1); [discriminate|]. rewrite (Hmono _ Y3). apply Qle_refl. }
    destruct (js_le (Num y) 5) eqn:Y5.
    { destruct (js_le (Num x) 1); [discriminate|].
      destruct (js_le (Num x) 3); [discriminate|].
      rewrite (Hmono _ Y5). apply Qle_refl. }
    destruct (js_le (Num x) 1); [discriminate|].
    destruct (js_le (Num x) 3); [discriminate|].
    destruct (js_le (Num x) 5); [discriminate|apply Qle_refl].
Qed.

Lemma clickup_priority_range_and_order_witness :
  (ClickUpMcp.mapPriority (Num 3) = 1%Q \/ ClickUpMcp.mapPriority (Num 3) = 2%Q \/
   ClickUpMcp.mapPriority (Num 3) = 3%Q \/ ClickUpMcp.mapPriority (Num 3) = 4%Q) /\
  ClickUpMcp.mapPriority NaN = 4%Q /\
  ((3 <= 9)%Q -> (ClickUpMcp.mapPriority (Num 3) <= ClickUpMcp.mapPriority (Num 9))%Q).
Proof. exact (clickup_priority_range_and_order 3 9 (Num 3)). Defined.

(** ** Approvals in Teams *)

Lemma find_filter_nonempty {A : Type} (f : A -> bool) (l : list A) :
  match find f l with
  | Some _ => 0 <? List.length l
  | None => false
  end = (0 <? List.length (filter f l)).
Proof.
  induction l as [|a l IH]; simpl; [reflexivity|].
  destruct (f a); simpl; [reflexivity|].
  rewrite <- IH. destruct (find f l) eqn:E; [|reflexivity].
  destruct l; [discriminate E|reflexivity].
Qed.

(** X24. A message counts as approved exactly when its approval count is
    positive, and both look only at the types of the reactions: the
    [count] a reaction carries changes neither. *)
Theorem approval_agrees_with_count (reactions : list Teams.Reaction) (c : Z) :
  Teams.isApproved reactions = (0 <? Teams.getApprovalCount reactions) /\
  let recounted :=
    map (fun r => {| Teams.reactionType := Teams.reactionType r; Teams.count := c |})
        reactions in
  Teams.isApproved recounted = Teams.isApproved reactions /\
  Teams.getApprovalCount recounted = Teams.getApprovalCount reactions.
Proof.
  assert (Hagree : forall rs, Teams.isApproved rs = (0 <? Teams.getApprovalCount rs)).
  { intro rs. unfold Teams.isApproved, Teams.getApprovalCount.
    apply find_filter_nonempty. }
  split; [apply Hagree|]. cbv zeta.
  assert (Hcount : Teams.getApprovalCount
                     (map (fun r => {| Teams.reactionType := Teams.reactionType r;
                                       Teams.count := c |}) reactions)
                   = Teams.getApprovalCount reactions).
  { unfold Teams.getApprovalCount.
    induction reactions as [|r rs IH]; simpl; [reflexivity|].
    change (Teams.isThumbsUp {| Teams.reactionType := Teams.reactionType r;
                                Teams.count := c |})
      with (Teams.isThumbsUp r).
    destruct (Teams.isThumbsUp r); simpl; rewrite IH; reflexivity. }
  split; [|exact Hcount]. rewrite !Hagree, Hcount. reflexivity.
Qed.

(** ** Task extraction *)

Lemma validateTask_validatedOf (t : json) :
  t <> JNull -> validateTask t = ret (validatedOf t).
Proof. destruct t; intro H; try reflexivity. contradiction. Qed.

Lemma mapM_validateTask (elems : list json) :
  existsb isNull elems = false ->
  mapM validateTask elems = ret (map validatedOf elems).
Proof.
  induction elems as [|e elems IH]; intro H; [reflexivity|].
  simpl in H. apply orb_false_iff in H. destruct H as [He Hrest].
  cbn [mapM]. rewrite validateTask_validatedOf by (intros ->; discriminate He).
  rewrite (IH Hrest). reflexivity.
Qed.

Lemma mapM_validateTask_null (elems : list json) :
  existsb isNull elems = true -> exists e, mapM validateTask elems = throw e.
Proof.
  induction elems as [|x elems IH]; intro H; [discriminate|].
  cbn [mapM]. destruct (json_is_null x) as [->|Hx].
  - eexists. reflexivity.
  - rewrite (validateTask_validatedOf x Hx).
    simpl in H. destruct x; try contradiction;
      destruct (IH H) as [e He]; rewrite He; eexists; reflexivity.
Qed.

Lemma extractTry_cases (parse : string -> option json) (response : Response) :
  match tasksPayload parse response with
  | Some elems =>
      if existsb isNull elems
      then exists message, extractTry parse response = throw message
      else extractTry parse response = ret (map validatedOf elems)
  | None => exists message, extractTry parse response = throw message
  end.
Proof.
  unfold tasksPayload, payload, extractTry, firstBlock, parseJSON.
  destruct response as [[|[text|ty] content]|e]; try (eexists; reflexivity).
  simpl. destruct (match_braces text) as [m|]; [|eexists; reflexivity].
  destruct (parse m) as [v|]; [|eexists; reflexivity].
  destruct v as [|b|q|str|es|members]; try (eexists; reflexivity).
  simpl. destruct (lookup_prop "tasks" members) as [[|b|q|str|elems|ms]|];
    simpl; try (eexists; reflexivity);
    try (match goal with |- context [if ?c then _ else _] => destruct c end;
         eexists; reflexivity).
  destruct (existsb isNull elems) eqn:Hnull.
  - apply mapM_validateTask_null. exact Hnull.
  - apply mapM_validateTask. exact Hnull.
Qed.

Lemma extractTasks_returns
    (parse : string -> option json) (extractor : Client -> string -> Response)
    (env : Env) (meetingText : string) :
  match fst (getAnthropicClient env) with
  | inr _ =>
      x_outcome (extractTasks parse extractor env meetingText) = throw missingKey
  | inl client =>
      match tasksPayload parse (extractor client meetingText) with
      | Some elems =>
          if existsb isNull elems
          then exists message,
                 x_outcome (extractTasks parse extractor env meetingText)
                 = throw (extractFailure ++ message)%string
          else x_outcome (extractTasks parse extractor env meetingText)
               = ret (map validatedOf elems)
      | None =>
          exists message,
            x_outcome (extractTasks parse extractor env meetingText)
            = throw (extractFailure ++ message)%string
      end
  end.
Proof.
  pose proof (getAnthropicClient_caches_error env) as Hget.
  unfold extractTasks.
  destruct (getAnthropicClient env) as [[client|e] env1]; simpl in *.
  - pose proof (extractTry_cases parse (extractor client meetingText)) as Hcases.
    destruct (tasksPayload parse (extractor client meetingText)) as [elems|].
    + destruct (existsb isNull elems).
      * destruct Hcases as [message ->]. exists message. reflexivity.
      * rewrite Hcases. reflexivity.
    + destruct Hcases as [message ->]. exists message. reflexivity.
  - rewrite (proj1 Hget). reflexivity.
Qed.

(** X25. [extractTasks] fails closed.  Without a handle it throws the
    missing-key error and makes no call.  With a handle it makes one
    call, on the meeting text; it returns only when the response holds a
    [tasks] list without a [null] in it, one task for each entry of the
    list, in order; for every other response it throws an error whose
    message begins with "Failed to extract tasks: ". *)
Theorem extractTasks_fails_closed
    (parse : string -> option json) (extractor : Client -> string -> Response)
    (env : Env) (meetingText : string) :
  match fst (getAnthropicClient env) with
  | inr _ =>
      extractTasks parse extractor env meetingText = mkExtractRun (throw missingKey) env []
  | inl client =>
      let response := extractor client meetingText in
      x_calls (extractTasks parse extractor env meetingText) = [(meetingText, response)] /\
      x_env_after (extractTasks parse extractor env meetingText)
      = snd (getAnthropicClient env) /\
      match tasksPayload parse response with
      | Some elems =>
          if existsb isNull elems
          then exists message,
                 x_outcome (extractTasks parse extractor env meetingText)
                 = throw (extractFailure ++ message)%string
          else x_outcome (extractTasks parse extractor env meetingText)
               = ret (map validatedOf elems)
      | None =>
          exists message,
            x_outcome (extractTasks parse extractor env meetingText)
            = throw (extractFailure ++ message)%string
      end
  end.
Proof.
  pose proof (getAnthropicClient_state env) as [_ Hget].
  unfold extractTasks.
  destruct (getAnthropicClient env) as [[client|e] env1]; simpl in *.
  - split; [reflexivity|]. split; [reflexivity|].
    pose proof (extractTry_cases parse (extractor client meetingText)) as Hcases.
    destruct (tasksPayload parse (extractor client meetingText)) as [elems|].
    + destruct (existsb isNull elems).
      * destruct Hcases as [message ->]. exists message. reflexivity.
      * rewrite Hcases. reflexivity.
    + destruct Hcases as [message ->]. exists message. reflexivity.
  - destruct Hget as (-> & -> & _). reflexivity.
Qed.

Lemma validatedOf_valid (t : json) :
  truthy (x_title (validatedOf t)) = true /\
  (truthy (x_description (validatedOf t)) = true \/
   x_description (validatedOf t) = Some (JStr "")) /\
  (truthy (x_dueDate (validatedOf t)) = true \/
   x_dueDate (validatedOf t) = Some JNull).
Proof.
  unfold validatedOf, js_or. simpl. repeat split.
  - destruct (truthy (field "title" t)) eqn:E; [exact E|reflexivity].
  - destruct (truthy (field "description" t)) eqn:E; [left; exact E|right; reflexivity].
  - destruct (truthy (field "dueDate" t)) eqn:E; [left; exact E|right; reflexivity].
Qed.

(** X26. Every task [extractTasks] returns is filled in: its title is
    never empty or missing (a missing one becomes "Untitled Task"); its
    description is present or the empty string; its due date is present
    or [null]; its priority is one of the four priorities, "normal" when
    the model gave anything else.  As many tasks are returned as the
    model listed. *)
Theorem extractTasks_validated
    (parse : string -> option json) (extractor : Client -> string -> Response)
    (env : Env) (meetingText : string) (extracted : list ExtractedTask) :
  x_outcome (extractTasks parse extractor env meetingText) = ret extracted ->
  exists client elems,
    fst (getAnthropicClient env) = ret client /\
    tasksPayload parse (extractor client meetingText) = Some elems /\
    List.length extracted = List.length elems /\
    Forall2 (fun x t =>
               x_priority x = priorityOf (field "priority" t) /\
               truthy (x_title x) = true /\
               (truthy (x_description x) = true \/ x_description x = Some (JStr "")) /\
               (truthy (x_dueDate x) = true \/ x_dueDate x = Some JNull))
            extracted elems.
Proof.
  pose proof (extractTasks_returns parse extractor env meetingText) as Hcases.
  intro Hrun.
  destruct (fst (getAnthropicClient env)) as [client|e].
  2:{ rewrite Hcases in Hrun. discriminate. }
  destruct (tasksPayload parse (extractor client meetingText)) as [elems|] eqn:Hpayload.
  2:{ destruct Hcases as [message H]. rewrite H in Hrun. discriminate. }
  destruct (existsb isNull elems).
  { destruct Hcases as [message H]. rewrite H in Hrun. discriminate. }
  rewrite Hcases in Hrun. apply ret_injective in Hrun. subst extracted.
  exists client, elems. split; [reflexivity|]. split; [exact Hpayload|].
  split; [apply length_map|].
  clear. induction elems as [|t elems IH]; simpl; constructor; [|exact IH].
  split; [reflexivity|]. apply validatedOf_valid.
Qed.

Lemma extractTasks_validated_witness :
  exists client elems,
    fst (getAnthropicClient keyedEnv) = ret client /\
    tasksPayload Json.parse (extractorReply extractReply client "Notes of the weekly sync")
    = Some elems /\
    List.length
      [ {| x_title := Some (JStr "Send follow-up email");
           x_description := Some (JStr "");
           x_priority := high;
           x_dueDate := Some (JStr "2025-01-31") |};
        {| x_title := Some (JStr "Untitled Task");
           x_description := Some (JStr "no title given");
           x_priority := normal;
           x_dueDate := Some JNull |} ]
    = List.length elems /\
    Forall2 (fun x t =>
               x_priority x = priorityOf (field "priority" t) /\
               truthy (x_title x) = true /\
               (truthy (x_description x) = true \/ x_description x = Some (JStr "")) /\
               (truthy (x_dueDate x) = true \/ x_dueDate x = Some JNull))
      [ {| x_title := Some (JStr "Send follow-up email");
           x_description := Some (JStr "");
           x_priority := high;
           x_dueDate := Some (JStr "2025-01-31") |};
        {| x_title := Some (JStr "Untitled Task");
           x_description := Some (JStr "no title given");
           x_priority := normal;
           x_dueDate := Some JNull |} ]
      elems.
Proof.
  apply (extractTasks_validated Json.parse (extractorReply extractReply)
           keyedEnv "Notes of the weekly sync").
  vm_compute. reflexivity.
Defined.

(** ** Reasons of the reported duplicates *)

Lemma js_or_default_truthy (v : jsval) (s : string) :
  s <> EmptyString -> truthy (js_or v (Some (JStr s))) = true.
Proof.
  intro Hs. unfold js_or. destruct (truthy v) eqn:E; [exact E|].
  simpl. destruct s; [contradiction|reflexivity].
Qed.

Lemma toDuplicateMatch_reason (dup : json) (d : DuplicateMatch) :
  toDuplicateMatch dup = ret d -> truthy (reason d) = true.
Proof.
  destruct (json_is_null dup) as [->|Hdup]; [discriminate|].
  rewrite (toDuplicateMatch_entryOf dup Hdup). intro H.
  apply ret_injective in H. subst d. simpl.
  apply js_or_default_truthy. discriminate.
Qed.

Lemma mapM_toDuplicateMatch_reasons (elems : list json) (ds : list DuplicateMatch) :
  mapM toDuplicateMatch elems = ret ds ->
  Forall (fun d => truthy (reason d) = true) ds.
Proof.
  revert ds. induction elems as [|e elems IH]; intros ds H.
  - simpl in H. apply ret_injective in H. subst ds. constructor.
  - cbn [mapM] in H. unfold bind in H.
    destruct (toDuplicateMatch e) as [d|err] eqn:Hd; [|discriminate].
    destruct (mapM toDuplicateMatch elems) as [ds'|err]; [|discriminate].
    apply ret_injective in H. subst ds. constructor.
    + exact (toDuplicateMatch_reason e d Hd).
    + apply IH. reflexivity.
Qed.

Lemma dedupTry_reasons (parse : string -> option json) (response : Response)
    (batch : list Task) (metas : list TaskWithMetadata) (r : DeduplicationResult) :
  dedupTry parse response batch metas = ret r ->
  Forall (fun d => truthy (reason d) = true) (duplicates r).
Proof.
  unfold dedupTry, firstBlock, parseJSON, bind, ret, throw.
  destruct response as [[|[text|ty] content]|e]; try discriminate.
  cbv beta iota. simpl nth_error. cbv beta iota.
  destruct (match_braces text) as [m|].
  2:{ intro H. apply ret_injective in H. subst r. constructor. }
  destruct (parse m) as [v|]; cbv beta iota; [|discriminate].
  destruct (getProp (Some v) "duplicates") as [dups|e]; [|discriminate].
  destruct (negb (truthy dups) || negb (isArray dups)).
  { intro H. apply ret_injective in H. subst r. constructor. }
  destruct (arrayMap dups toDuplicateMatch) as [ds|e] eqn:Hmap; [|discriminate].
  intro H. apply ret_injective in H. subst r. simpl.
  unfold arrayMap in Hmap. destruct dups as [[| | | |elems|]|]; try discriminate.
  exact (mapM_toDuplicateMatch_reasons elems ds Hmap).
Qed.

(** X27. Every duplicate [deduplicateTasks] reports carries a reason: an
    entry whose [reason] is missing, empty or otherwise falsy gets
    "Identified as duplicate". *)
Theorem deduplicateTasks_reasons_present
    (parse : string -> option json) (oracle : Client -> Request -> Response)
    (env : Env) (batch : list Task) (r : DeduplicationResult) :
  outcome (deduplicateTasks parse oracle env batch) = ret r ->
  Forall (fun d => truthy (reason d) = true) (duplicates r).
Proof.
  unfold deduplicateTasks.
  destruct (List.length batch =? 0).
  { simpl. intro H. apply ret_injective in H. subst r. constructor. }
  destruct (getAnthropicClient env) as [[client|e] env1]; [|discriminate].
  match goal with |- context [if ?c then _ else _] => destruct c end; simpl.
  { intro H. apply ret_injective in H. subst r. constructor. }
  intro H. apply ret_injective in H. subst r.
  destruct (dedupTry parse _ batch _) as [r|e] eqn:Htry; simpl; [|constructor].
  exact (dedupTry_reasons parse _ batch _ r Htry).
Qed.

Lemma deduplicateTasks_reasons_present_witness :
  Forall (fun d => truthy (reason d) = true)
    [ {| taskIndex := Some (JNum 0); duplicateOfIndex := Some (JNum 1);
         reason := Some (JStr "same email") |};
      {| taskIndex := Some (JNum 1); duplicateOfIndex := Some (JNum 0);
         reason := Some (JStr "Identified as duplicate") |} ].
Proof.
  apply (deduplicateTasks_reasons_present Json.parse (replyWith swappedReply) keyedEnv
           followUpBatch
           {| duplicates :=
                [ {| taskIndex := Some (JNum 0); duplicateOfIndex := Some (JNum 1);
                     reason := Some (JStr "same email") |};
                  {| taskIndex := Some (JNum 1); duplicateOfIndex := Some (JNum 0);
                     reason := Some (JStr "Identified as duplicate") |} ];
              uniqueTasks := [];
              totalDuplicates := 2 |}).
  vm_compute. reflexivity.
Defined.
